(** * A shallow embedding of the rucbase storage core

    The development follows the C++ sources of the lock manager
    (transaction/concurrency/lock_manager.cpp), the heap file
    (record/rm_file_handle.cpp) and its scan (record/rm_scan.cpp), the
    sequential scan and DML executors and the transaction manager
    (execution/, transaction/transaction_manager.cpp), the nested loop join
    (execution/executor_nestedloop_join.h) and the B+tree
    (index/ix_index_handle.cpp).

    Exceptions are modelled by a state-and-error monad whose error result
    keeps the state reached at the throw, as a C++ exception leaves every
    mutation made before it in place. *)

From Stdlib Require Import ZArith List Lia Bool Sorting.Sorted.
From stdpp Require Import base gmap sets list strings.
Import ListNotations.

Open Scope Z_scope.

(* ------------------------------------------------------------------ *)
(** ** Errors and the state-and-error monad *)

Inductive Error :=
  | LOCK_ON_SHIRINKING
  | DEADLOCK_PREVENTION
  | PAGE_NOT_EXIST
  | RECORD_NOT_FOUND
  | INCOMPATIBLE_TYPE
  | INTERNAL.

Inductive Result (St A : Type) :=
  | Ok (a : A) (s : St)
  | Err (e : Error) (s : St).
Arguments Ok {St A} a s.
Arguments Err {St A} e s.

Definition M (St A : Type) := St -> Result St A.

Definition ret {St A} (a : A) : M St A := fun s => Ok a s.
Definition throw {St A} (e : Error) : M St A := fun s => Err e s.
Definition bind {St A B} (m : M St A) (k : A -> M St B) : M St B :=
  fun s => match m s with
           | Ok a s' => k a s'
           | Err e s' => Err e s'
           end.
Definition get {St} : M St St := fun s => Ok s s.
Definition put {St} (s : St) : M St unit := fun _ => Ok tt s.
Definition modify {St} (f : St -> St) : M St unit := fun s => Ok tt (f s).

Notation "x <- m ;; k" := (bind m (fun x => k))
  (at level 64, m at next level, right associativity).
Notation "m ;;; k" := (bind m (fun _ => k))
  (at level 64, right associativity).

(** The state a computation ends in, whether it returned or threw. *)
Definition res_state {St A} (r : Result St A) : St :=
  match r with Ok _ s => s | Err _ s => s end.

(* ------------------------------------------------------------------ *)
(** ** Records, lock identifiers, transactions *)

Record Rid := { page_no : Z; slot_no : Z }.

Global Instance Rid_eq_dec : EqDecision Rid.
Proof. intros [a b] [c d]; unfold Decision; decide equality; apply Z.eq_dec. Defined.

(** The lock identifier ([LockDataId]) is declared in lock_manager.h, which
    is not among the sources; modelled from the spec: a lock table entry is
    keyed by [(file_id, {TABLE | RID})]. *)
Inductive LockDataId :=
  | LockTableId (fd : Z)
  | LockRecordId (fd : Z) (rid : Rid).

Global Instance LockDataId_eq_dec : EqDecision LockDataId.
Proof.
  intros a b; unfold Decision; decide equality; try apply Z.eq_dec;
    apply Rid_eq_dec.
Defined.

Global Instance LockDataId_countable : Countable LockDataId.
Proof.
  refine (inj_countable'
    (fun l => match l with
              | LockTableId fd => (fd, None)
              | LockRecordId fd r => (fd, Some (page_no r, slot_no r))
              end)
    (fun p => match p with
              | (fd, None) => LockTableId fd
              | (fd, Some (pn, sn)) => LockRecordId fd {| page_no := pn; slot_no := sn |}
              end) _).
  intros [fd|fd [pn sn]]; reflexivity.
Defined.

Module LockMode.
Inductive t := SHARED | EXLUCSIVE | INTENTION_SHARED | INTENTION_EXCLUSIVE | S_IX.
End LockMode.

Module GroupLockMode.
Inductive t := NON_LOCK | IS | IX | S | X | SIX.
End GroupLockMode.

Module TransactionState.
Inductive t := DEFAULT | GROWING | SHRINKING | COMMITTED | ABORTED.
End TransactionState.

Global Instance LockMode_eq_dec : EqDecision LockMode.t.
Proof. intros a b; unfold Decision; decide equality. Defined.
Global Instance GroupLockMode_eq_dec : EqDecision GroupLockMode.t.
Proof. intros a b; unfold Decision; decide equality. Defined.
Global Instance TransactionState_eq_dec : EqDecision TransactionState.t.
Proof. intros a b; unfold Decision; decide equality. Defined.

Record LockRequest := mkLockRequest {
  txn_id_ : Z;
  lock_mode_ : LockMode.t;
  granted_ : bool }.

Record LockRequestQueue := mkQueue {
  request_queue_ : list LockRequest;
  group_lock_mode_ : GroupLockMode.t }.

(** A queue created by [lock_table_[id]] for an absent id. *)
Definition empty_queue : LockRequestQueue := mkQueue [] GroupLockMode.NON_LOCK.

Inductive WType := INSERT_TUPLE | DELETE_TUPLE | UPDATE_TUPLE.

Record WriteRecord := mkWriteRecord {
  wtype : WType;
  wtab_name : string;
  wrid : Rid;
  wrecord : list Byte.byte }.

Record Transaction := mkTxn {
  txn_id : Z;
  txn_state : TransactionState.t;
  lock_set : gset LockDataId;
  write_set : list WriteRecord }.

Definition set_txn_state (st : TransactionState.t) (t : Transaction) : Transaction :=
  mkTxn (txn_id t) st (lock_set t) (write_set t).
Definition add_lock (id : LockDataId) (t : Transaction) : Transaction :=
  mkTxn (txn_id t) (txn_state t) ({[id]} ∪ lock_set t) (write_set t).
Definition set_write_set (ws : list WriteRecord) (t : Transaction) : Transaction :=
  mkTxn (txn_id t) (txn_state t) (lock_set t) ws.

(* ------------------------------------------------------------------ *)
(** ** Heap file data (rm_defs.h / rm_file_handle.h) *)

Definition RM_NO_PAGE : Z := -1.
Definition RM_FIRST_RECORD_PAGE : Z := 1.

Record RmFileHdr := mkFileHdr {
  record_size : Z;
  num_records_per_page : Z;
  bitmap_size : Z;
  num_pages : Z;
  first_free_page_no : Z }.

(** A data page: its header, its slot bitmap (one bit per slot) and its
    slots, each holding [record_size] bytes. *)
Record RmPage := mkPage {
  num_records : Z;
  next_free_page_no : Z;
  bitmap : list bool;
  slots : list (list Byte.byte) }.

Record RmFile := mkRmFile {
  fd_ : Z;
  file_hdr_ : RmFileHdr;
  pages : gmap Z RmPage }.

(** Events recorded by the DML executors, in the order they happen. *)
Inductive ExecEvent :=
  | EvHeapWrite (rid : Rid)
  | EvUndoAppend (rid : Rid)
  | EvIndexUpdate (rid : Rid) (index_no : nat).

(** The state shared by the lock manager, the heap files and the executors:
    the lock table, the running transaction, the table registry [fhs]
    (table name to heap file) and the executor event log. *)
Record DbState := mkDb {
  lock_table : gmap LockDataId LockRequestQueue;
  txn : Transaction;
  fhs : gmap string RmFile;
  events : list ExecEvent }.

Definition set_lock_table lt (s : DbState) : DbState :=
  mkDb lt (txn s) (fhs s) (events s).
Definition set_txn t (s : DbState) : DbState :=
  mkDb (lock_table s) t (fhs s) (events s).
Definition set_fhs f (s : DbState) : DbState :=
  mkDb (lock_table s) (txn s) f (events s).
Definition log_event ev (s : DbState) : DbState :=
  mkDb (lock_table s) (txn s) (fhs s) (events s ++ [ev]).

(* ------------------------------------------------------------------ *)
(** ** Lock manager (lock_manager.cpp) *)

(** What the loop over [request_queue_] does when it meets a request of
    the calling transaction: return at once, throw, or change the mode of
    that request and set the group mode. [None] continues the loop. *)
Inductive LoopAction :=
  | ActReturn
  | ActThrow (e : Error)
  | ActUpgrade (m : LockMode.t) (g : GroupLockMode.t).

(** The loop [for (auto& req : request_queue.request_queue_)]: it stops at
    the first request [req] of transaction [tid] for which the body acts,
    and returns that request together with the requests before and after
    it (the position the reference [req] points to). *)
Fixpoint scan_own (tid : Z) (dec : LockRequest -> option LoopAction)
    (pre rs : list LockRequest)
    : option (list LockRequest * LockRequest * list LockRequest * LoopAction) :=
  match rs with
  | [] => None
  | r :: rs' =>
      if txn_id_ r =? tid then
        match dec r with
        | Some a => Some (pre, r, rs', a)
        | None => scan_own tid dec (pre ++ [r]) rs'
        end
      else scan_own tid dec (pre ++ [r]) rs'
  end.

Definition set_mode (m : LockMode.t) (r : LockRequest) : LockRequest :=
  mkLockRequest (txn_id_ r) m (granted_ r).

(** The [only_current_txn] check: no granted request of another transaction. *)
Definition only_current_txn (q : LockRequestQueue) (tid : Z) : bool :=
  forallb (fun r => negb (negb (txn_id_ r =? tid) && granted_ r)) (request_queue_ q).

(** The common shape of the five acquisition functions: the SHRINKING
    check, [lock_table_[id]] (which creates an empty queue for an absent
    id), the loop over the requests, the no-wait compatibility check and
    the append of a granted request with the group mode update. *)
Definition acquire (id : LockDataId) (mode : LockMode.t)
    (dec : LockRequestQueue -> Z -> LockRequest -> option LoopAction)
    (conflicts : GroupLockMode.t -> bool)
    (new_group : GroupLockMode.t -> GroupLockMode.t) : M DbState bool :=
  fun s =>
    let t := txn s in
    if decide (txn_state t = TransactionState.SHRINKING) then Err LOCK_ON_SHIRINKING s
    else
      let q := default empty_queue (lock_table s !! id) in
      let s1 := set_lock_table (<[id := q]> (lock_table s)) s in
      match scan_own (txn_id t) (dec q (txn_id t)) [] (request_queue_ q) with
      | Some (_, _, _, ActReturn) => Ok true s1
      | Some (_, _, _, ActThrow e) => Err e s1
      | Some (pre, r, post, ActUpgrade m g) =>
          Ok true (set_lock_table
                     (<[id := mkQueue (pre ++ set_mode m r :: post) g]> (lock_table s)) s)
      | None =>
          if conflicts (group_lock_mode_ q) then Err DEADLOCK_PREVENTION s1
          else
            Ok true (mkDb
              (<[id := mkQueue (request_queue_ q ++ [mkLockRequest (txn_id t) mode true])
                               (new_group (group_lock_mode_ q))]> (lock_table s))
              (add_lock id t) (fhs s) (events s))
      end.

Definition is_group (g : GroupLockMode.t) (gs : list GroupLockMode.t) : bool :=
  bool_decide (g ∈ gs).
Definition is_mode (m : LockMode.t) (ms : list LockMode.t) : bool :=
  bool_decide (m ∈ ms).

Definition lock_shared_on_record (rid : Rid) (tab_fd : Z) : M DbState bool :=
  acquire (LockRecordId tab_fd rid) LockMode.SHARED
    (fun q tid req =>
       if is_mode (lock_mode_ req) [LockMode.SHARED; LockMode.EXLUCSIVE]
       then Some ActReturn else None)
    (fun g => is_group g [GroupLockMode.X])
    (fun g => match g with
              | GroupLockMode.NON_LOCK | GroupLockMode.IS => GroupLockMode.S
              | GroupLockMode.IX => GroupLockMode.SIX
              | g => g
              end).

Definition lock_exclusive_on_record (rid : Rid) (tab_fd : Z) : M DbState bool :=
  acquire (LockRecordId tab_fd rid) LockMode.EXLUCSIVE
    (fun q tid req =>
       match lock_mode_ req with
       | LockMode.EXLUCSIVE => Some ActReturn
       | LockMode.SHARED =>
           if Nat.eqb (length (request_queue_ q)) 1
           then Some (ActUpgrade LockMode.EXLUCSIVE GroupLockMode.X)
           else Some (ActThrow DEADLOCK_PREVENTION)
       | _ => None
       end)
    (fun g => negb (is_group g [GroupLockMode.NON_LOCK]))
    (fun _ => GroupLockMode.X).

Definition lock_shared_on_table (tab_fd : Z) : M DbState bool :=
  acquire (LockTableId tab_fd) LockMode.SHARED
    (fun q tid req =>
       match lock_mode_ req with
       | LockMode.SHARED | LockMode.EXLUCSIVE | LockMode.S_IX => Some ActReturn
       | LockMode.INTENTION_SHARED =>
           if is_group (group_lock_mode_ q) [GroupLockMode.IX; GroupLockMode.X; GroupLockMode.SIX]
              && negb (only_current_txn q tid)
           then Some (ActThrow DEADLOCK_PREVENTION)
           else Some (ActUpgrade LockMode.SHARED GroupLockMode.S)
       | LockMode.INTENTION_EXCLUSIVE =>
           if is_group (group_lock_mode_ q) [GroupLockMode.IX; GroupLockMode.X; GroupLockMode.SIX]
              && negb (only_current_txn q tid)
           then Some (ActThrow DEADLOCK_PREVENTION)
           else Some (ActUpgrade LockMode.S_IX GroupLockMode.SIX)
       end)
    (fun g => is_group g [GroupLockMode.IX; GroupLockMode.X; GroupLockMode.SIX])
    (fun g => match g with
              | GroupLockMode.NON_LOCK | GroupLockMode.IS => GroupLockMode.S
              | g => g
              end).

Definition lock_exclusive_on_table (tab_fd : Z) : M DbState bool :=
  acquire (LockTableId tab_fd) LockMode.EXLUCSIVE
    (fun q tid req =>
       match lock_mode_ req with
       | LockMode.EXLUCSIVE => Some ActReturn
       | _ =>
           if Nat.eqb (length (request_queue_ q)) 1
           then Some (ActUpgrade LockMode.EXLUCSIVE GroupLockMode.X)
           else Some (ActThrow DEADLOCK_PREVENTION)
       end)
    (fun g => negb (is_group g [GroupLockMode.NON_LOCK]))
    (fun _ => GroupLockMode.X).

Definition lock_IS_on_table (tab_fd : Z) : M DbState bool :=
  acquire (LockTableId tab_fd) LockMode.INTENTION_SHARED
    (fun q tid req => Some ActReturn)
    (fun g => is_group g [GroupLockMode.X])
    (fun g => match g with
              | GroupLockMode.NON_LOCK => GroupLockMode.IS
              | g => g
              end).

Definition lock_IX_on_table (tab_fd : Z) : M DbState bool :=
  acquire (LockTableId tab_fd) LockMode.INTENTION_EXCLUSIVE
    (fun q tid req =>
       match lock_mode_ req with
       | LockMode.INTENTION_EXCLUSIVE | LockMode.EXLUCSIVE | LockMode.S_IX => Some ActReturn
       | LockMode.INTENTION_SHARED =>
           if is_group (group_lock_mode_ q) [GroupLockMode.S; GroupLockMode.X; GroupLockMode.SIX]
              && negb (only_current_txn q tid)
           then Some (ActThrow DEADLOCK_PREVENTION)
           else Some (ActUpgrade LockMode.INTENTION_EXCLUSIVE
                        (match group_lock_mode_ q with
                         | GroupLockMode.IS | GroupLockMode.NON_LOCK => GroupLockMode.IX
                         | g => g
                         end))
       | LockMode.SHARED =>
           if is_group (group_lock_mode_ q) [GroupLockMode.IX; GroupLockMode.X; GroupLockMode.SIX]
              && negb (only_current_txn q tid)
           then Some (ActThrow DEADLOCK_PREVENTION)
           else Some (ActUpgrade LockMode.S_IX GroupLockMode.SIX)
       end)
    (fun g => is_group g [GroupLockMode.S; GroupLockMode.X; GroupLockMode.SIX])
    (fun g => match g with
              | GroupLockMode.NON_LOCK | GroupLockMode.IS => GroupLockMode.IX
              | g => g
              end).

(** [request_queue_.erase(it)] for the first request of [tid]. *)
Fixpoint erase_first (tid : Z) (rs : list LockRequest) : option (list LockRequest) :=
  match rs with
  | [] => None
  | r :: rs' => if txn_id_ r =? tid then Some rs' else option_map (cons r) (erase_first tid rs')
  end.

(** One iteration of the group-mode recomputation loop of [unlock]. *)
Definition unlock_step (g : GroupLockMode.t) (r : LockRequest) : GroupLockMode.t :=
  if negb (granted_ r) then g else
  match lock_mode_ r with
  | LockMode.EXLUCSIVE => GroupLockMode.X
  | LockMode.S_IX => if is_group g [GroupLockMode.X] then g else GroupLockMode.SIX
  | LockMode.SHARED =>
      match g with
      | GroupLockMode.NON_LOCK | GroupLockMode.IS => GroupLockMode.S
      | GroupLockMode.IX => GroupLockMode.SIX
      | g => g
      end
  | LockMode.INTENTION_EXCLUSIVE =>
      match g with
      | GroupLockMode.NON_LOCK | GroupLockMode.IS => GroupLockMode.IX
      | GroupLockMode.S => GroupLockMode.SIX
      | g => g
      end
  | LockMode.INTENTION_SHARED =>
      match g with
      | GroupLockMode.NON_LOCK => GroupLockMode.IS
      | g => g
      end
  end.

Definition unlock (id : LockDataId) : M DbState bool :=
  fun s =>
    match lock_table s !! id with
    | None => Ok false s
    | Some q =>
        match erase_first (txn_id (txn s)) (request_queue_ q) with
        | None => Ok false s
        | Some rs' =>
            Ok true (mkDb
              (<[id := mkQueue rs' (fold_left unlock_step rs' GroupLockMode.NON_LOCK)]>
                 (lock_table s))
              (set_txn_state TransactionState.SHRINKING (txn s)) (fhs s) (events s))
        end
    end.

(** *** The multi-granularity lattice and compatibility matrix of the spec *)

(** The join of two group modes in the lattice [X >= SIX >= {S, IX} >= IS],
    with [S + IX = SIX] and [NON_LOCK] at the bottom (spec, 4.3). *)
Definition group_join (a b : GroupLockMode.t) : GroupLockMode.t :=
  match a, b with
  | GroupLockMode.NON_LOCK, m | m, GroupLockMode.NON_LOCK => m
  | GroupLockMode.X, _ | _, GroupLockMode.X => GroupLockMode.X
  | GroupLockMode.IS, m | m, GroupLockMode.IS => m
  | GroupLockMode.SIX, _ | _, GroupLockMode.SIX => GroupLockMode.SIX
  | GroupLockMode.S, GroupLockMode.IX | GroupLockMode.IX, GroupLockMode.S => GroupLockMode.SIX
  | GroupLockMode.S, GroupLockMode.S => GroupLockMode.S
  | GroupLockMode.IX, GroupLockMode.IX => GroupLockMode.IX
  end.

Definition mode_group (m : LockMode.t) : GroupLockMode.t :=
  match m with
  | LockMode.SHARED => GroupLockMode.S
  | LockMode.EXLUCSIVE => GroupLockMode.X
  | LockMode.INTENTION_SHARED => GroupLockMode.IS
  | LockMode.INTENTION_EXCLUSIVE => GroupLockMode.IX
  | LockMode.S_IX => GroupLockMode.SIX
  end.

(** The join of the modes of the granted requests of a queue. *)
Definition join_all (rs : list LockRequest) : GroupLockMode.t :=
  fold_right (fun r g => if granted_ r then group_join (mode_group (lock_mode_ r)) g else g)
    GroupLockMode.NON_LOCK rs.

(** The lattice order: [a <= b] iff [a ⊔ b = b]. *)
Definition group_le (a b : GroupLockMode.t) : bool :=
  bool_decide (group_join a b = b).

(** The compatibility matrix of the spec (and of the comment at the top of
    lock_manager.cpp). *)
Definition lock_compatible (a b : LockMode.t) : bool :=
  match a, b with
  | LockMode.EXLUCSIVE, _ | _, LockMode.EXLUCSIVE => false
  | LockMode.INTENTION_SHARED, _ | _, LockMode.INTENTION_SHARED => true
  | LockMode.INTENTION_EXCLUSIVE, LockMode.INTENTION_EXCLUSIVE => true
  | LockMode.SHARED, LockMode.SHARED => true
  | _, _ => false
  end.

(** A requested mode is compatible with a group mode when it is compatible
    with every mode below it: the matrix row read against the group. *)
Definition group_compatible (m : LockMode.t) (g : GroupLockMode.t) : bool :=
  match g with
  | GroupLockMode.NON_LOCK => true
  | GroupLockMode.IS => lock_compatible m LockMode.INTENTION_SHARED
  | GroupLockMode.IX => lock_compatible m LockMode.INTENTION_EXCLUSIVE
  | GroupLockMode.S => lock_compatible m LockMode.SHARED
  | GroupLockMode.SIX => lock_compatible m LockMode.S_IX
  | GroupLockMode.X => lock_compatible m LockMode.EXLUCSIVE
  end.

(** *** The lock-table invariant *)

(** Row locks are only ever taken in S or X mode: the record queues hold
    nothing else (only [lock_shared_on_record] and
    [lock_exclusive_on_record] use record ids). *)
Definition record_modes_ok (id : LockDataId) (q : LockRequestQueue) : Prop :=
  match id with
  | LockRecordId _ _ =>
      Forall (fun r => lock_mode_ r = LockMode.SHARED \/ lock_mode_ r = LockMode.EXLUCSIVE)
        (request_queue_ q)
  | LockTableId _ => True
  end.

Definition queue_inv (id : LockDataId) (q : LockRequestQueue) : Prop :=
  group_lock_mode_ q = join_all (request_queue_ q) /\
  Forall (fun r => granted_ r = true) (request_queue_ q) /\
  NoDup (map txn_id_ (request_queue_ q)) /\
  record_modes_ok id q.

Definition lock_inv (s : DbState) : Prop := map_Forall queue_inv (lock_table s).

(** Every lock-table entry the transaction has a request in is in its
    lock set. *)
Definition lock_set_inv (s : DbState) : Prop :=
  forall id q r, lock_table s !! id = Some q -> r ∈ request_queue_ q ->
    txn_id_ r = txn_id (txn s) -> id ∈ lock_set (txn s).

(** The lock-manager operations, for stating properties of all of them. *)
Inductive LockOp :=
  | OpSharedRecord (rid : Rid) (fd : Z)
  | OpExclusiveRecord (rid : Rid) (fd : Z)
  | OpSharedTable (fd : Z)
  | OpExclusiveTable (fd : Z)
  | OpISTable (fd : Z)
  | OpIXTable (fd : Z)
  | OpUnlock (id : LockDataId).

Definition run_lock_op (op : LockOp) : M DbState bool :=
  match op with
  | OpSharedRecord rid fd => lock_shared_on_record rid fd
  | OpExclusiveRecord rid fd => lock_exclusive_on_record rid fd
  | OpSharedTable fd => lock_shared_on_table fd
  | OpExclusiveTable fd => lock_exclusive_on_table fd
  | OpISTable fd => lock_IS_on_table fd
  | OpIXTable fd => lock_IX_on_table fd
  | OpUnlock id => unlock id
  end.

(** *** Lemmas on the lattice *)

Lemma group_join_comm a b : group_join a b = group_join b a.
Proof. destruct a, b; reflexivity. Qed.

Lemma group_join_assoc a b c :
  group_join a (group_join b c) = group_join (group_join a b) c.
Proof. destruct a, b, c; reflexivity. Qed.

Lemma group_join_left_comm a b c :
  group_join a (group_join b c) = group_join b (group_join a c).
Proof. destruct a, b, c; reflexivity. Qed.

Lemma group_join_non_l a : group_join GroupLockMode.NON_LOCK a = a.
Proof. destruct a; reflexivity. Qed.

Lemma group_join_non_r a : group_join a GroupLockMode.NON_LOCK = a.
Proof. destruct a; reflexivity. Qed.

Lemma join_all_app rs1 rs2 :
  join_all (rs1 ++ rs2) = group_join (join_all rs1) (join_all rs2).
Proof.
  induction rs1 as [|r rs1 IH]; simpl.
  - by rewrite ?group_join_non_l.
  - rewrite IH. destruct (granted_ r); [apply group_join_assoc|reflexivity].
Qed.

Lemma unlock_step_join g r :
  unlock_step g r =
    if granted_ r then group_join g (mode_group (lock_mode_ r)) else g.
Proof. destruct r as [? m []]; [destruct m, g|]; reflexivity. Qed.

Lemma fold_unlock_step rs g :
  fold_left unlock_step rs g = group_join g (join_all rs).
Proof.
  revert g; induction rs as [|r rs IH]; intros g; simpl.
  - by rewrite ?group_join_non_r.
  - rewrite IH, unlock_step_join. destruct (granted_ r); [|reflexivity].
    by rewrite group_join_assoc.
Qed.

Lemma join_all_non rs :
  Forall (fun r => granted_ r = true) rs ->
  join_all rs = GroupLockMode.NON_LOCK -> rs = [].
Proof.
  destruct rs as [|r rs]; [done|]. intros Hg. inversion Hg; subst. simpl.
  match goal with H : granted_ r = true |- _ => rewrite H end.
  destruct (lock_mode_ r), (join_all rs); discriminate.
Qed.

(** *** Lemmas on the request loop *)

Lemma scan_own_some tid dec pre rs pre' r post a :
  scan_own tid dec pre rs = Some (pre', r, post, a) ->
  pre ++ rs = pre' ++ r :: post /\ txn_id_ r = tid /\ dec r = Some a.
Proof.
  revert pre; induction rs as [|x rs IH]; intros pre; simpl; [discriminate|].
  destruct (Z.eqb_spec (txn_id_ x) tid) as [Ht|Ht].
  - destruct (dec x) eqn:Hd.
    + intros [= <- <- <- <-]. done.
    + intros H. apply IH in H as (H1 & H2 & H3). rewrite <- H1.
      rewrite <- app_assoc. done.
  - intros H. apply IH in H as (H1 & H2 & H3). rewrite <- H1.
    rewrite <- app_assoc. done.
Qed.

Lemma scan_own_none tid dec pre rs :
  scan_own tid dec pre rs = None ->
  forall r, r ∈ rs -> txn_id_ r = tid -> dec r = None.
Proof.
  revert pre; induction rs as [|x rs IH]; intros pre Hs r Hr Ht; simpl in Hs.
  - by apply not_elem_of_nil in Hr.
  - apply elem_of_cons in Hr as [<-|Hr].
    + rewrite Ht, Z.eqb_refl in Hs. by destruct (dec r).
    + destruct (txn_id_ x =? tid); [destruct (dec x)|]; [discriminate| |];
        eapply IH; eauto.
Qed.

(** *** Preservation of the invariant, queue by queue *)

Lemma bool_eq_decide (b : bool) (P : Prop) `{Decision P} :
  (b = true <-> P) -> b = bool_decide P.
Proof.
  intros Hb. destruct b; symmetry.
  - apply bool_decide_eq_true_2. by apply Hb.
  - apply bool_decide_eq_false_2. intros HP. apply Hb in HP. discriminate.
Qed.

Lemma empty_queue_inv id : queue_inv id empty_queue.
Proof.
  repeat split; simpl; try constructor. destruct id; simpl; [done|constructor].
Qed.

Lemma lookup_default_inv (lt : gmap LockDataId LockRequestQueue) id :
  map_Forall queue_inv lt -> queue_inv id (default empty_queue (lt !! id)).
Proof.
  intros Hlt. destruct (lt !! id) eqn:E; simpl.
  - by apply Hlt.
  - apply empty_queue_inv.
Qed.

Lemma own_request_unique pre r post :
  NoDup (map txn_id_ (pre ++ r :: post)) ->
  forall x, x ∈ pre ++ post -> txn_id_ x <> txn_id_ r.
Proof.
  rewrite map_app, map_cons. intros Hnd x Hx Heq.
  apply NoDup_app in Hnd as (Hpre & Hdisj & Hpost).
  apply elem_of_app in Hx as [Hx|Hx].
  - apply (Hdisj (txn_id_ x)).
    + by apply list_elem_of_fmap_2.
    + rewrite Heq. apply elem_of_cons. by left.
  - apply NoDup_cons in Hpost as [Hnin _]. apply Hnin. rewrite <- Heq.
    by apply list_elem_of_fmap_2.
Qed.

(** The others' join [O] of a queue split at the caller's request. *)
Definition others_join (pre post : list LockRequest) : GroupLockMode.t :=
  group_join (join_all pre) (join_all post).

Lemma others_join_non pre post :
  Forall (fun r => granted_ r = true) (pre ++ post) ->
  others_join pre post = GroupLockMode.NON_LOCK <-> pre = [] /\ post = [].
Proof.
  unfold others_join. rewrite Forall_app. intros [Hp Hq]. split.
  - intros H. destruct (join_all pre) eqn:E1, (join_all post) eqn:E2; try discriminate.
    split; by apply join_all_non.
  - by intros [-> ->].
Qed.

Lemma queue_split id q pre r post :
  queue_inv id q -> request_queue_ q = pre ++ r :: post ->
  group_lock_mode_ q = group_join (mode_group (lock_mode_ r)) (others_join pre post) /\
  only_current_txn q (txn_id_ r) = bool_decide (others_join pre post = GroupLockMode.NON_LOCK) /\
  Nat.eqb (length (request_queue_ q)) 1 =
    bool_decide (others_join pre post = GroupLockMode.NON_LOCK).
Proof.
  intros (Hg & Hgr & Hnd & _) Hq. rewrite Hq in Hg, Hgr, Hnd.
  assert (Hgr' : Forall (fun r => granted_ r = true) (pre ++ post)).
  { apply Forall_app in Hgr as [H1 H2]. inversion H2; subst. by apply Forall_app. }
  assert (Hr : granted_ r = true).
  { apply Forall_app in Hgr as [_ H2]. by inversion H2. }
  split; [|split].
  - rewrite Hg, join_all_app. simpl. rewrite Hr. unfold others_join.
    apply group_join_left_comm.
  - unfold only_current_txn. rewrite Hq.
    apply bool_eq_decide. rewrite others_join_non by done.
    rewrite forallb_app. simpl. rewrite Z.eqb_refl. simpl.
    rewrite andb_true_iff, !forallb_forall. split.
    + intros [H1 H2]. pose proof (own_request_unique _ _ _ Hnd) as Hu.
      split.
      * destruct pre as [|x pre]; [done|]. exfalso.
        specialize (H1 x (or_introl eq_refl)).
        assert (Hx : x ∈ (x :: pre) ++ post) by (apply elem_of_app; left; apply elem_of_cons; by left).
        specialize (Hu x Hx).
        assert (granted_ x = true) as Hxg by (rewrite Forall_forall in Hgr'; by apply Hgr').
        rewrite Hxg in H1. destruct (Z.eqb_spec (txn_id_ x) (txn_id_ r)); [done|]. discriminate.
      * destruct post as [|x post]; [done|]. exfalso.
        specialize (H2 x (or_introl eq_refl)).
        assert (Hx : x ∈ pre ++ x :: post) by (apply elem_of_app; right; apply elem_of_cons; by left).
        specialize (Hu x Hx).
        assert (granted_ x = true) as Hxg by (rewrite Forall_forall in Hgr'; by apply Hgr').
        rewrite Hxg in H2. destruct (Z.eqb_spec (txn_id_ x) (txn_id_ r)); [done|]. discriminate.
    + intros [-> ->]. done.
  - rewrite Hq. apply bool_eq_decide. rewrite others_join_non by done.
    rewrite Nat.eqb_eq, length_app. simpl.
    split; [|intros [-> ->]; done].
    intros Hl. destruct pre, post; simpl in Hl; try lia. done.
Qed.

Lemma upgrade_inv id pre r post g0 m g :
  queue_inv id (mkQueue (pre ++ r :: post) g0) ->
  g = group_join (mode_group m) (others_join pre post) ->
  (match id with
   | LockRecordId _ _ => m = LockMode.SHARED \/ m = LockMode.EXLUCSIVE
   | LockTableId _ => True end) ->
  queue_inv id (mkQueue (pre ++ set_mode m r :: post) g).
Proof.
  intros (Hg & Hgr & Hnd & Hrec) -> Hm; simpl in *.
  assert (Hr : granted_ r = true).
  { apply Forall_app in Hgr as [_ H2]. by inversion H2. }
  split; [|split; [|split]]; simpl.
  - rewrite join_all_app. simpl. rewrite Hr.
    unfold others_join. apply group_join_left_comm.
  - apply Forall_app in Hgr as [H1 H2]. apply Forall_app. split; [done|].
    inversion H2; subst. constructor; [done|done].
  - rewrite map_app in *. simpl in *. done.
  - destruct id; [done|]. simpl in *.
    apply Forall_app in Hrec as [H1 H2]. apply Forall_app. split; [done|].
    inversion H2; subst. constructor; [exact Hm|done].
Qed.

Lemma append_inv id q tid mode g :
  queue_inv id q ->
  (forall r, r ∈ request_queue_ q -> txn_id_ r <> tid) ->
  g = group_join (mode_group mode) (group_lock_mode_ q) ->
  (match id with
   | LockRecordId _ _ => mode = LockMode.SHARED \/ mode = LockMode.EXLUCSIVE
   | LockTableId _ => True end) ->
  queue_inv id (mkQueue (request_queue_ q ++ [mkLockRequest tid mode true]) g).
Proof.
  intros (Hg & Hgr & Hnd & Hrec) Hno -> Hm; simpl.
  split; [|split; [|split]]; simpl.
  - rewrite join_all_app, Hg. simpl. rewrite group_join_non_r. apply group_join_comm.
  - apply Forall_app. split; [done|]. by constructor.
  - rewrite map_app. apply NoDup_app. split; [done|]. split; [|apply NoDup_singleton].
    intros x Hx Hx2. apply list_elem_of_singleton in Hx2. subst x.
    apply list_elem_of_fmap in Hx as (r & Hr & Hin). by apply (Hno r).
  - destruct id; [done|]. simpl in *. apply Forall_app. split; [done|]. by constructor.
Qed.

Lemma acquire_inv id mode dec conflicts new_group s :
  (forall q r, queue_inv id q -> r ∈ request_queue_ q -> txn_id_ r = txn_id (txn s) ->
     is_Some (dec q (txn_id (txn s)) r)) ->
  (forall q pre r post m g, queue_inv id q -> request_queue_ q = pre ++ r :: post ->
     txn_id_ r = txn_id (txn s) -> dec q (txn_id (txn s)) r = Some (ActUpgrade m g) ->
     queue_inv id (mkQueue (pre ++ set_mode m r :: post) g)) ->
  (forall q, queue_inv id q ->
     (forall r, r ∈ request_queue_ q -> txn_id_ r <> txn_id (txn s)) ->
     conflicts (group_lock_mode_ q) = false ->
     queue_inv id (mkQueue (request_queue_ q ++ [mkLockRequest (txn_id (txn s)) mode true])
                           (new_group (group_lock_mode_ q)))) ->
  lock_inv s -> lock_inv (res_state (acquire id mode dec conflicts new_group s)).
Proof.
  intros Hdec Hup Happ Hinv. unfold acquire.
  destruct (decide _); [done|].
  pose proof (lookup_default_inv _ id Hinv) as Hq.
  set (q := default empty_queue (lock_table s !! id)) in *.
  destruct (scan_own _ _ [] _) as [[[[pre r] post] a]|] eqn:Hscan.
  - apply scan_own_some in Hscan as (Hsplit & Htid & Hd). simpl in Hsplit.
    destruct a; simpl; unfold lock_inv; simpl;
      apply map_Forall_insert_2; try done.
    eapply Hup; eauto.
  - assert (Hno : forall r, r ∈ request_queue_ q -> txn_id_ r <> txn_id (txn s)).
    { intros r Hr Ht. pose proof (scan_own_none _ _ _ _ Hscan r Hr Ht) as Hn.
      destruct (Hdec q r Hq Hr Ht) as [? Hs]. congruence. }
    destruct (conflicts (group_lock_mode_ q)) eqn:Hc; simpl; unfold lock_inv; simpl;
      apply map_Forall_insert_2; try done.
    by apply Happ.
Qed.

(** Discharges the upgrade obligation of [acquire_inv] for one function:
    the group mode the code sets is the join of the new mode with the
    modes of the other transactions. *)
Ltac solve_upgrade :=
  lazymatch goal with
  | Hq : queue_inv ?id ?q, Hsplit : request_queue_ ?q = ?pre ++ ?r :: ?post,
    Ht : txn_id_ ?r = _, Hd : _ = Some (ActUpgrade _ _) |- _ =>
      let Hg := fresh "Hg" in let Hoc := fresh "Hoc" in let Hlen := fresh "Hlen" in
      let Eo := fresh "Eo" in
      destruct (queue_split _ _ _ _ _ Hq Hsplit) as (Hg & Hoc & Hlen);
      cbv beta in Hd; try rewrite <- Ht in Hd; rewrite ?Hoc, ?Hlen, ?Hg in Hd;
      destruct q; simpl in Hsplit; subst;
      destruct (lock_mode_ r); destruct (others_join pre post) eqn:Eo;
      vm_compute in Hd; try discriminate; injection Hd as <- <-;
      (eapply upgrade_inv; [exact Hq | rewrite Eo; reflexivity | simpl; auto])
  end.

Ltac solve_append :=
  let Hq := fresh "Hq" in let Hno := fresh "Hno" in let Hc := fresh "Hc" in
  intros ? Hq Hno Hc; apply append_inv; auto;
  destruct (group_lock_mode_ _); vm_compute in Hc; try discriminate; reflexivity.

Lemma record_mode_of id fd rid q r :
  id = LockRecordId fd rid -> queue_inv id q -> r ∈ request_queue_ q ->
  lock_mode_ r = LockMode.SHARED \/ lock_mode_ r = LockMode.EXLUCSIVE.
Proof.
  intros -> (_ & _ & _ & Hrec) Hr. simpl in Hrec.
  rewrite Forall_forall in Hrec. by apply Hrec.
Qed.

Lemma lock_shared_on_record_inv rid fd s :
  lock_inv s -> lock_inv (res_state (lock_shared_on_record rid fd s)).
Proof.
  apply acquire_inv.
  - intros q r Hq Hr _. cbv beta.
    destruct (record_mode_of _ fd rid _ _ eq_refl Hq Hr) as [-> | ->]; by eexists.
  - intros q pre r post m g Hq Hsplit Ht Hd. cbv beta in Hd.
    destruct (is_mode _ _); discriminate.
  - solve_append.
Qed.

Lemma lock_exclusive_on_record_inv rid fd s :
  lock_inv s -> lock_inv (res_state (lock_exclusive_on_record rid fd s)).
Proof.
  apply acquire_inv.
  - intros q r Hq Hr _. cbv beta.
    destruct (record_mode_of _ fd rid _ _ eq_refl Hq Hr) as [-> | ->];
      [destruct (Nat.eqb _ _)|]; by eexists.
  - intros q pre r post m g Hq Hsplit Ht Hd. solve_upgrade.
  - solve_append.
Qed.

Lemma lock_shared_on_table_inv fd s :
  lock_inv s -> lock_inv (res_state (lock_shared_on_table fd s)).
Proof.
  apply acquire_inv.
  - intros q r Hq Hr _. cbv beta.
    destruct (lock_mode_ r); try destruct (_ && _); by eexists.
  - intros q pre r post m g Hq Hsplit Ht Hd. solve_upgrade.
  - solve_append.
Qed.

Lemma lock_exclusive_on_table_inv fd s :
  lock_inv s -> lock_inv (res_state (lock_exclusive_on_table fd s)).
Proof.
  apply acquire_inv.
  - intros q r Hq Hr _. cbv beta.
    destruct (lock_mode_ r); try destruct (Nat.eqb _ _); by eexists.
  - intros q pre r post m g Hq Hsplit Ht Hd. solve_upgrade.
  - solve_append.
Qed.

Lemma lock_IS_on_table_inv fd s :
  lock_inv s -> lock_inv (res_state (lock_IS_on_table fd s)).
Proof.
  apply acquire_inv.
  - intros q r Hq Hr _. by eexists.
  - intros q pre r post m g Hq Hsplit Ht Hd. discriminate.
  - solve_append.
Qed.

Lemma lock_IX_on_table_inv fd s :
  lock_inv s -> lock_inv (res_state (lock_IX_on_table fd s)).
Proof.
  apply acquire_inv.
  - intros q r Hq Hr _. cbv beta.
    destruct (lock_mode_ r); try destruct (_ && _); by eexists.
  - intros q pre r post m g Hq Hsplit Ht Hd. solve_upgrade.
  - solve_append.
Qed.

Lemma erase_first_sub tid rs rs' :
  erase_first tid rs = Some rs' -> exists pre r post, rs = pre ++ r :: post /\ rs' = pre ++ post.
Proof.
  revert rs'; induction rs as [|x rs IH]; intros rs' H; simpl in H; [discriminate|].
  destruct (txn_id_ x =? tid).
  - injection H as <-. by exists [], x, rs.
  - destruct (erase_first tid rs) as [l|] eqn:E; simpl in H; [|discriminate].
    injection H as <-. destruct (IH l eq_refl) as (pre & r & post & -> & ->).
    by exists (x :: pre), r, post.
Qed.

Lemma unlock_inv id s :
  lock_inv s -> lock_inv (res_state (unlock id s)).
Proof.
  intros Hinv. unfold unlock.
  destruct (lock_table s !! id) as [q|] eqn:Hl; [|done].
  destruct (erase_first _ _) as [rs'|] eqn:He; [|done].
  simpl. unfold lock_inv; simpl. apply map_Forall_insert_2; [|done].
  destruct (Hinv id q Hl) as (Hg & Hgr & Hnd & Hrec).
  destruct (erase_first_sub _ _ _ He) as (pre & r & post & Hq & ->).
  destruct q as [rs g]; simpl in *; subst rs.
  split; [|split; [|split]]; simpl.
  - rewrite fold_unlock_step. apply group_join_non_l.
  - apply Forall_app in Hgr as [H1 H2]. inversion H2; subst. by apply Forall_app.
  - rewrite map_app in *. simpl in Hnd.
    apply NoDup_app in Hnd as (H1 & H2 & H3). apply NoDup_cons in H3 as [_ H3].
    apply NoDup_app; split_and!; auto.
    intros x Hx Hx'. apply (H2 x Hx). apply elem_of_cons. by right.
  - destruct id; [done|]. simpl in *.
    apply Forall_app in Hrec as [H1 H2]. inversion H2; subst. by apply Forall_app.
Qed.

Lemma run_lock_op_inv op s :
  lock_inv s -> lock_inv (res_state (run_lock_op op s)).
Proof.
  destruct op; simpl.
  - apply lock_shared_on_record_inv.
  - apply lock_exclusive_on_record_inv.
  - apply lock_shared_on_table_inv.
  - apply lock_exclusive_on_table_inv.
  - apply lock_IS_on_table_inv.
  - apply lock_IX_on_table_inv.
  - apply unlock_inv.
Qed.

(** A sequence of lock-manager calls, each made by the given transaction. *)
Fixpoint run_lock_ops (ops : list (Transaction * LockOp)) (s : DbState) : DbState :=
  match ops with
  | [] => s
  | (t, op) :: ops' => run_lock_ops ops' (res_state (run_lock_op op (set_txn t s)))
  end.

Lemma run_lock_ops_inv ops s :
  lock_inv s -> lock_inv (run_lock_ops ops s).
Proof.
  revert s; induction ops as [|[t op] ops IH]; intros s Hs; simpl; [done|].
  apply IH, run_lock_op_inv. exact Hs.
Qed.

Definition ex_txn (id : Z) : Transaction :=
  mkTxn id TransactionState.GROWING ∅ [].
Definition ex_db : DbState := mkDb ∅ (ex_txn 1) ∅ [].
Definition ex_lock_ops : list (Transaction * LockOp) :=
  [(ex_txn 1, OpSharedTable 3); (ex_txn 2, OpISTable 3);
   (ex_txn 1, OpIXTable 3); (ex_txn 1, OpUnlock (LockTableId 3))].

(* ------------------------------------------------------------------ *)
(** ** Admission and upgrade *)

(** The queue [lock_table_[id]] reads: an empty one for an absent id. *)
Definition queue_of (s : DbState) (id : LockDataId) : LockRequestQueue :=
  default empty_queue (lock_table s !! id).

(** The lock id and mode each acquisition function requests. *)
Definition acq_target (op : LockOp) : option (LockDataId * LockMode.t) :=
  match op with
  | OpSharedRecord rid fd => Some (LockRecordId fd rid, LockMode.SHARED)
  | OpExclusiveRecord rid fd => Some (LockRecordId fd rid, LockMode.EXLUCSIVE)
  | OpSharedTable fd => Some (LockTableId fd, LockMode.SHARED)
  | OpExclusiveTable fd => Some (LockTableId fd, LockMode.EXLUCSIVE)
  | OpISTable fd => Some (LockTableId fd, LockMode.INTENTION_SHARED)
  | OpIXTable fd => Some (LockTableId fd, LockMode.INTENTION_EXCLUSIVE)
  | OpUnlock _ => None
  end.

(** The group modes a queue of the given id can have under [lock_inv]. *)
Definition group_ok (id : LockDataId) (g : GroupLockMode.t) : Prop :=
  match id with
  | LockRecordId _ _ =>
      g = GroupLockMode.NON_LOCK \/ g = GroupLockMode.S \/ g = GroupLockMode.X
  | LockTableId _ => True
  end.

(** Some granted request among [others] has a mode the matrix says is
    incompatible with [m]. *)
Definition other_incompatible (m : LockMode.t) (others : list LockRequest) : bool :=
  existsb (fun o => granted_ o && negb (lock_compatible m (lock_mode_ o))) others.

(** Strictly below in the lattice. *)
Definition group_lt (a b : GroupLockMode.t) : bool :=
  group_le a b && negb (bool_decide (a = b)).

Lemma db_eta s : mkDb (lock_table s) (txn s) (fhs s) (events s) = s.
Proof. by destruct s. Qed.

Lemma scan_own_none_intro tid dec pre rs :
  (forall r, r ∈ rs -> txn_id_ r <> tid) -> scan_own tid dec pre rs = None.
Proof.
  revert pre; induction rs as [|x rs IH]; intros pre H; simpl; [done|].
  destruct (Z.eqb_spec (txn_id_ x) tid) as [Ht|Ht].
  - exfalso. apply (H x); [apply elem_of_cons; by left | done].
  - apply IH. intros r Hr. apply H. apply elem_of_cons; by right.
Qed.

Lemma scan_own_at tid dec acc pre r post a :
  (forall x, x ∈ pre -> txn_id_ x <> tid) -> txn_id_ r = tid -> dec r = Some a ->
  scan_own tid dec acc (pre ++ r :: post) = Some (acc ++ pre, r, post, a).
Proof.
  revert acc; induction pre as [|x pre IH]; intros acc Hpre Ht Hd; simpl.
  - rewrite Ht, Z.eqb_refl, Hd, app_nil_r. done.
  - destruct (Z.eqb_spec (txn_id_ x) tid) as [Hx|Hx].
    + exfalso. apply (Hpre x); [apply elem_of_cons; by left | done].
    + rewrite IH; [by rewrite <- app_assoc | | done | done].
      intros y Hy. apply Hpre. apply elem_of_cons; by right.
Qed.

Lemma acquire_fresh id mode dec conflicts new_group s :
  txn_state (txn s) <> TransactionState.SHRINKING ->
  (forall r, r ∈ request_queue_ (queue_of s id) -> txn_id_ r <> txn_id (txn s)) ->
  acquire id mode dec conflicts new_group s =
    if conflicts (group_lock_mode_ (queue_of s id))
    then Err DEADLOCK_PREVENTION (set_lock_table (<[id := queue_of s id]> (lock_table s)) s)
    else Ok true (mkDb
      (<[id := mkQueue (request_queue_ (queue_of s id) ++ [mkLockRequest (txn_id (txn s)) mode true])
                       (new_group (group_lock_mode_ (queue_of s id)))]> (lock_table s))
      (add_lock id (txn s)) (fhs s) (events s)).
Proof.
  intros Hns Hno. unfold acquire. rewrite decide_False by done.
  rewrite scan_own_none_intro by done. reflexivity.
Qed.

Lemma acquire_held id mode dec conflicts new_group s q pre r post a :
  txn_state (txn s) <> TransactionState.SHRINKING ->
  lock_table s !! id = Some q -> request_queue_ q = pre ++ r :: post ->
  txn_id_ r = txn_id (txn s) -> (forall x, x ∈ pre -> txn_id_ x <> txn_id (txn s)) ->
  dec q (txn_id (txn s)) r = Some a ->
  acquire id mode dec conflicts new_group s =
    match a with
    | ActReturn => Ok true s
    | ActThrow e => Err e s
    | ActUpgrade m g =>
        Ok true (set_lock_table (<[id := mkQueue (pre ++ set_mode m r :: post) g]> (lock_table s)) s)
    end.
Proof.
  intros Hns Hl Hq Ht Hpre Hd. unfold acquire. rewrite decide_False by done.
  rewrite Hl. cbn [default Datatypes.id]. rewrite Hq, (scan_own_at _ _ [] pre r post a); try done.
  unfold set_lock_table. rewrite (insert_id (lock_table s) id q) by done. rewrite db_eta.
  destruct a; reflexivity.
Qed.

Lemma queue_group_ok id q : queue_inv id q -> group_ok id (group_lock_mode_ q).
Proof.
  intros (Hg & _ & _ & Hrec). destruct id as [fd|fd rid]; simpl in *; [done|].
  rewrite Hg. clear Hg. revert Hrec. generalize (request_queue_ q) as rs.
  induction rs as [|r rs IH]; intros Hrec; simpl; [by left|].
  inversion Hrec as [|? ? Hr Hrs]; subst. specialize (IH Hrs).
  destruct (granted_ r); [|done].
  destruct Hr as [-> | ->]; destruct IH as [-> | [-> | ->]]; simpl; auto.
Qed.

Lemma acq_target_spec op id m :
  acq_target op = Some (id, m) ->
  exists dec c ng, run_lock_op op = acquire id m dec c ng /\
    (forall g, group_ok id g -> c g = negb (group_compatible m g)) /\
    (forall g, c g = false -> ng g = group_join (mode_group m) g) /\
    (forall q t r e, dec q t r = Some (ActThrow e) -> e = DEADLOCK_PREVENTION).
Proof.
  destruct op; simpl; intros H; inversion H; subst; clear H;
    (eexists _, _, _; split; [reflexivity|]);
    (split; [intros g Hg | split; [intros g Hc | intros q t r e Hd]]).
  all: try (destruct Hg as [-> | [-> | ->]]; vm_compute; reflexivity).
  all: try (destruct g; vm_compute; reflexivity).
  all: try (destruct g; vm_compute in Hc; try discriminate; reflexivity).
  all: cbv beta in Hd; destruct (lock_mode_ r);
    repeat match type of Hd with
           | context [if ?b then _ else _] => destruct b
           end; congruence.
Qed.

Lemma acquire_held_outcome op id m s :
  acq_target op = Some (id, m) ->
  txn_state (txn s) <> TransactionState.SHRINKING ->
  (exists r, r ∈ request_queue_ (queue_of s id) /\ txn_id_ r = txn_id (txn s)) ->
  (exists s', run_lock_op op s = Ok true s') \/ run_lock_op op s = Err DEADLOCK_PREVENTION s.
Proof.
  intros Ht Hns (r0 & Hr0 & Ht0).
  destruct (acq_target_spec _ _ _ Ht) as (dec & c & ng & -> & _ & _ & Hthrow).
  unfold queue_of in Hr0. destruct (lock_table s !! id) as [q|] eqn:Hl;
    [|simpl in Hr0; by apply not_elem_of_nil in Hr0].
  assert (Heq : set_lock_table (<[id:=q]> (lock_table s)) s = s).
  { unfold set_lock_table. rewrite insert_id by done. apply db_eta. }
  unfold acquire. rewrite decide_False by done. rewrite Hl. cbn [default Datatypes.id].
  rewrite Heq.
  destruct (scan_own _ _ [] _) as [[[[pre r] post] a]|] eqn:Hs.
  - destruct a as [|e|mm g]; [left; by eexists | right | left; by eexists].
    apply scan_own_some in Hs as (_ & _ & Hd). by rewrite (Hthrow _ _ _ _ Hd).
  - destruct (c _); [by right | left; by eexists].
Qed.

(** A row on which two transactions hold a shared lock. *)
Definition ce6_rid : Rid := {| page_no := 1; slot_no := 0 |}.
Definition ce6_db : DbState :=
  mkDb {[ LockRecordId 3 ce6_rid :=
            mkQueue [mkLockRequest 1 LockMode.SHARED true; mkLockRequest 2 LockMode.SHARED true]
                    GroupLockMode.S ]}
       (ex_txn 1) ∅ [].

Lemma group_compatible_join m a b :
  group_compatible m (group_join a b) = group_compatible m a && group_compatible m b.
Proof. destruct m, a, b; reflexivity. Qed.

Lemma group_compatible_mode m x :
  group_compatible m (mode_group x) = lock_compatible m x.
Proof. destruct m, x; reflexivity. Qed.

Lemma other_incompatible_join m l :
  Forall (fun r => granted_ r = true) l ->
  other_incompatible m l = negb (group_compatible m (join_all l)).
Proof.
  induction l as [|x l IH]; intros Hl; simpl; [destruct m; reflexivity|].
  inversion Hl as [|? ? Hx Hl']; subst. rewrite Hx, IH by done. simpl.
  by rewrite group_compatible_join, group_compatible_mode, negb_andb.
Qed.

Lemma join_all_upgrade m pre r post :
  granted_ r = true ->
  join_all (pre ++ set_mode m r :: post) = group_join (mode_group m) (others_join pre post).
Proof.
  intros Hr. rewrite join_all_app. simpl. unfold set_mode; simpl. rewrite Hr.
  unfold others_join. apply group_join_left_comm.
Qed.

(** A table on which transactions 1 and 2 both hold IS. *)
Definition w7_db : DbState :=
  mkDb {[ LockTableId 3 :=
            mkQueue [mkLockRequest 1 LockMode.INTENTION_SHARED true;
                     mkLockRequest 2 LockMode.INTENTION_SHARED true]
                    GroupLockMode.IS ]}
       (ex_txn 1) ∅ [].

(* ------------------------------------------------------------------ *)
(** ** Heap file (record/rm_file_handle.cpp) *)

(** Modelled from the spec: the slot bitmap helpers ([Bitmap] of
    common/bitmap.h, not in src/). The bitmap is kept as the list of its
    first [num_records_per_page] bits; bit [i] is set iff slot [i] is
    occupied. Reading a bit past the end gives [false], writing one is a
    no-op (stdpp's list insert). *)
Module Bitmap.
Definition is_set (bm : list bool) (pos : Z) : bool := default false (bm !! Z.to_nat pos).
Definition set (bm : list bool) (pos : Z) : list bool := <[Z.to_nat pos := true]> bm.
Definition reset (bm : list bool) (pos : Z) : list bool := <[Z.to_nat pos := false]> bm.
Definition init (n : Z) : list bool := replicate (Z.to_nat n) false.
Fixpoint first_bit_go (bit : bool) (bm : list bool) (k : nat) (i : Z) : Z :=
  match k with
  | O => i
  | S k' => if Bool.eqb (is_set bm i) bit then i else first_bit_go bit bm k' (i + 1)
  end.
(** The first position below [n] whose bit equals [bit], or [n]. *)
Definition first_bit (bit : bool) (bm : list bool) (n : Z) : Z :=
  first_bit_go bit bm (Z.to_nat n) 0.
(** Modelled from the spec ([RmScan::next] calls it): the first position
    after [curr] and below [max_n] whose bit equals [bit], or [max_n]. *)
Definition next_bit (bit : bool) (bm : list bool) (max_n curr : Z) : Z :=
  if max_n <=? curr + 1 then max_n
  else first_bit_go bit bm (Z.to_nat (max_n - (curr + 1))) (curr + 1).
End Bitmap.

Definition set_page (f : RmFile) (page_no : Z) (p : RmPage) : RmFile :=
  mkRmFile (fd_ f) (file_hdr_ f) (<[page_no := p]> (pages f)).
Definition set_hdr (f : RmFile) (h : RmFileHdr) : RmFile :=
  mkRmFile (fd_ f) h (pages f).
Definition set_first_free (h : RmFileHdr) (pno : Z) : RmFileHdr :=
  mkFileHdr (record_size h) (num_records_per_page h) (bitmap_size h) (num_pages h) pno.
Definition set_next_free (p : RmPage) (pno : Z) : RmPage :=
  mkPage (num_records p) pno (bitmap p) (slots p).

(** [sm_manager_->fhs_.at(tab_name)]: an unknown table throws. *)
Definition fh_of (tab : string) : M DbState RmFile :=
  fun s => match fhs s !! tab with Some f => Ok f s | None => Err INTERNAL s end.
Definition fh_store (tab : string) (f : RmFile) : M DbState unit :=
  modify (fun s => set_fhs (<[tab := f]> (fhs s)) s).

(** A [Context] with a lock manager and a transaction, or none. *)
Definition with_lock (ctx : bool) (l : M DbState bool) : M DbState unit :=
  if ctx then (l ;;; ret tt) else ret tt.

Definition fetch_page_handle (f : RmFile) (page_no : Z) : M DbState RmPage :=
  if (page_no <? RM_FIRST_RECORD_PAGE) || (num_pages (file_hdr_ f) <=? page_no)
  then throw PAGE_NOT_EXIST
  else match pages f !! page_no with
       | Some p => ret p
       | None => throw INTERNAL
       end.

Definition get_record (tab : string) (rid : Rid) (ctx : bool) : M DbState (list Byte.byte) :=
  f <- fh_of tab ;;
  with_lock ctx (lock_shared_on_record rid (fd_ f)) ;;;
  p <- fetch_page_handle f (page_no rid) ;;
  if negb (Bitmap.is_set (bitmap p) (slot_no rid)) then throw RECORD_NOT_FOUND
  else ret (default [] (slots p !! Z.to_nat (slot_no rid))).

(** [create_new_page_handle]: modelled from the spec for the buffer pool's
    [new_page], which extends the file, so the new page number is
    [num_pages]. The new page is pushed at the head of the free list. *)
Definition create_new_page_handle (f : RmFile) : RmFile * Z * RmPage :=
  let h := file_hdr_ f in
  let pno := num_pages h in
  let p := mkPage 0 (first_free_page_no h) (Bitmap.init (num_records_per_page h))
                  (replicate (Z.to_nat (num_records_per_page h)) []) in
  (mkRmFile (fd_ f)
     (mkFileHdr (record_size h) (num_records_per_page h) (bitmap_size h) (num_pages h + 1) pno)
     (<[pno := p]> (pages f)),
   pno, p).

Definition create_page_handle (f : RmFile) : M DbState (RmFile * Z * RmPage) :=
  let pno := first_free_page_no (file_hdr_ f) in
  if pno =? RM_NO_PAGE then ret (create_new_page_handle f)
  else match pages f !! pno with
       | Some p => ret (f, pno, p)
       | None => throw INTERNAL
       end.

Definition insert_record (tab : string) (buf : list Byte.byte) : M DbState Rid :=
  f0 <- fh_of tab ;;
  c <- create_page_handle f0 ;;
  let '(f, pno, p) := c in
  let n := num_records_per_page (file_hdr_ f) in
  let slot := Bitmap.first_bit false (bitmap p) n in
  if n <=? slot then fh_store tab f ;;; ret {| page_no := -1; slot_no := -1 |}
  else
    let p1 := mkPage (num_records p + 1) (next_free_page_no p)
                     (Bitmap.set (bitmap p) slot) (<[Z.to_nat slot := buf]> (slots p)) in
    let f1 :=
      if num_records p1 =? n
      then set_page (set_hdr f (set_first_free (file_hdr_ f) (next_free_page_no p1)))
                    pno (set_next_free p1 RM_NO_PAGE)
      else set_page f pno p1 in
    fh_store tab f1 ;;; ret {| page_no := pno; slot_no := slot |}.

(** [insert_record] at a given [Rid] (the overload taking [const Rid&]),
    used by the undo of a delete. *)
Definition insert_record_at (tab : string) (rid : Rid) (buf : list Byte.byte) : M DbState unit :=
  f <- fh_of tab ;;
  p <- fetch_page_handle f (page_no rid) ;;
  let p1 := mkPage (num_records p + 1) (next_free_page_no p)
                   (Bitmap.set (bitmap p) (slot_no rid))
                   (<[Z.to_nat (slot_no rid) := buf]> (slots p)) in
  fh_store tab (set_page f (page_no rid) p1).

Definition delete_record (tab : string) (rid : Rid) (ctx : bool) : M DbState unit :=
  f <- fh_of tab ;;
  with_lock ctx (lock_exclusive_on_record rid (fd_ f)) ;;;
  p <- fetch_page_handle f (page_no rid) ;;
  if negb (Bitmap.is_set (bitmap p) (slot_no rid)) then throw RECORD_NOT_FOUND
  else
    let was_full := num_records p =? num_records_per_page (file_hdr_ f) in
    let p1 := mkPage (num_records p - 1) (next_free_page_no p)
                     (Bitmap.reset (bitmap p) (slot_no rid)) (slots p) in
    if was_full
    then (* release_page_handle *)
      fh_store tab (set_page (set_hdr f (set_first_free (file_hdr_ f) (page_no rid)))
                             (page_no rid)
                             (set_next_free p1 (first_free_page_no (file_hdr_ f))))
    else fh_store tab (set_page f (page_no rid) p1).

Definition update_record (tab : string) (rid : Rid) (buf : list Byte.byte) (ctx : bool)
    : M DbState unit :=
  f <- fh_of tab ;;
  with_lock ctx (lock_exclusive_on_record rid (fd_ f)) ;;;
  p <- fetch_page_handle f (page_no rid) ;;
  if negb (Bitmap.is_set (bitmap p) (slot_no rid)) then throw RECORD_NOT_FOUND
  else fh_store tab (set_page f (page_no rid)
                       (mkPage (num_records p) (next_free_page_no p) (bitmap p)
                               (<[Z.to_nat (slot_no rid) := buf]> (slots p)))).

(** *** The heap/bitmap/free-list invariant of the spec *)

(** The free-page list: the pages reached from [first_free_page_no] through
    [next_free_page_no], or [None] if the chain does not end at
    [RM_NO_PAGE] within [fuel] steps or reaches a missing page. *)
Fixpoint free_walk (ps : gmap Z RmPage) (fuel : nat) (cur : Z) : option (list Z) :=
  if cur =? RM_NO_PAGE then Some []
  else match fuel with
       | O => None
       | S k => match ps !! cur with
                | Some p => l ← free_walk ps k (next_free_page_no p); Some (cur :: l)
                | None => None
                end
       end.

Definition free_list (f : RmFile) : option (list Z) :=
  free_walk (pages f) (Z.to_nat (num_pages (file_hdr_ f))) (first_free_page_no (file_hdr_ f)).

Definition popcount (bm : list bool) : Z := Z.of_nat (length (filter (fun b => b = true) bm)).

(** The data pages [1 .. num_pages - 1]. *)
Definition data_pages (f : RmFile) : list Z :=
  map (fun k => Z.of_nat k + RM_FIRST_RECORD_PAGE)
      (seq 0 (Z.to_nat (num_pages (file_hdr_ f) - RM_FIRST_RECORD_PAGE))).

(** Every data page exists with a bitmap of [num_records_per_page] bits and
    [num_records] equal to its popcount (occupancy is the bit); the free
    list ends, lists only data pages and lists each of them at most once;
    a page with a free slot is in it, a full page is not and has
    [next_free_page_no = RM_NO_PAGE]. *)
Definition heap_inv (f : RmFile) : bool :=
  let n := num_records_per_page (file_hdr_ f) in
  match free_list f with
  | None => false
  | Some l =>
      bool_decide (NoDup l) &&
      forallb (fun pno => bool_decide (pno ∈ data_pages f)) l &&
      forallb (fun pno =>
        match pages f !! pno with
        | None => false
        | Some p =>
            (Z.of_nat (length (bitmap p)) =? n) && (num_records p =? popcount (bitmap p)) &&
            (if num_records p <? n then bool_decide (pno ∈ l)
             else bool_decide (pno ∉ l) && (next_free_page_no p =? RM_NO_PAGE))
        end) (data_pages f)
  end.

Definition heap_file_inv (s : DbState) (tab : string) : bool :=
  match fhs s !! tab with Some f => heap_inv f | None => false end.

(** A heap file with one full page of two records. *)
Definition c3_tab : string := "orders".
Definition c3_rid : Rid := {| page_no := 1; slot_no := 1 |}.
Definition c3_file : RmFile :=
  mkRmFile 5 (mkFileHdr 1 2 1 2 RM_NO_PAGE)
    {[ 1 := mkPage 2 RM_NO_PAGE [true; true] [[Byte.x0a]; [Byte.x0b]] ]}.
Definition c3_db : DbState := mkDb ∅ (ex_txn 1) {[ c3_tab := c3_file ]} [].

(** *** What a successful acquisition leaves behind *)

Lemma group_le_refl g : group_le g g = true.
Proof. destruct g; reflexivity. Qed.

Lemma acquire_grants id mode dec conflicts new_group s b s1 :
  (forall q tid r, dec q tid r = Some ActReturn ->
     group_le (mode_group mode) (mode_group (lock_mode_ r)) = true) ->
  (forall q tid r m g, dec q tid r = Some (ActUpgrade m g) ->
     group_le (mode_group mode) (mode_group m) = true) ->
  lock_inv s -> lock_set_inv s ->
  acquire id mode dec conflicts new_group s = Ok b s1 ->
  fhs s1 = fhs s /\ txn_id (txn s1) = txn_id (txn s) /\
  exists q r, lock_table s1 !! id = Some q /\ r ∈ request_queue_ q /\
    txn_id_ r = txn_id (txn s1) /\ granted_ r = true /\
    group_le (mode_group mode) (mode_group (lock_mode_ r)) = true /\
    id ∈ lock_set (txn s1).
Proof.
  intros Hret Hup Hinv Hls H. unfold acquire in H. cbv zeta in H.
  destruct (decide _) as [_|Hns]; [discriminate|].
  destruct (scan_own _ _ [] _) as [[[[pre r] post] a]|] eqn:Hs.
  - apply scan_own_some in Hs as (Hsplit & Ht & Hd). simpl in Hsplit.
    set (q := default empty_queue (lock_table s !! id)) in *.
    assert (Hin : r ∈ request_queue_ q).
    { rewrite Hsplit. apply elem_of_app. right. apply elem_of_cons. by left. }
    assert (Hlq : lock_table s !! id = Some q).
    { subst q. destruct (lock_table s !! id); [done|].
      simpl in Hin. by apply not_elem_of_nil in Hin. }
    destruct (Hinv id q Hlq) as (_ & Hgr & _ & _).
    rewrite Forall_forall in Hgr. pose proof (Hgr r Hin) as Hgrr.
    pose proof (Hls id q r Hlq Hin Ht) as Hlock.
    destruct a as [|e|m g]; inversion H; subst; simpl.
    + split; [done|split; [done|]]. exists q, r.
      split; [by rewrite lookup_insert_eq|]. split_and!; eauto.
    + split; [done|split; [done|]].
      exists (mkQueue (pre ++ set_mode m r :: post) g), (set_mode m r).
      split; [by rewrite lookup_insert_eq|]. simpl.
      split_and!; eauto.
      apply elem_of_app. right. apply elem_of_cons. by left.
  - destruct (conflicts _); inversion H; subst; simpl.
    split; [done|split; [done|]].
    eexists _, (mkLockRequest (txn_id (txn s)) mode true).
    split; [by rewrite lookup_insert_eq|]. simpl.
    split_and!; [| done | done | apply group_le_refl | set_solver].
    apply elem_of_app. right. by apply list_elem_of_singleton.
Qed.

Ltac solve_grant_obligation :=
  let Hd := fresh "Hd" in
  intros ? ? ?r Hd; cbv beta in Hd; destruct (lock_mode_ r); vm_compute in Hd;
  repeat match type of Hd with
         | context [if ?b then _ else _] => destruct b
         end;
  try discriminate Hd; try (injection Hd as <- <-); vm_compute; reflexivity.

Lemma lock_op_grants op id m s b s1 :
  acq_target op = Some (id, m) -> lock_inv s -> lock_set_inv s ->
  run_lock_op op s = Ok b s1 ->
  fhs s1 = fhs s /\ txn_id (txn s1) = txn_id (txn s) /\
  exists q r, lock_table s1 !! id = Some q /\ r ∈ request_queue_ q /\
    txn_id_ r = txn_id (txn s1) /\ granted_ r = true /\
    group_le (mode_group m) (mode_group (lock_mode_ r)) = true /\
    id ∈ lock_set (txn s1).
Proof.
  destruct op; simpl; intros Ht; inversion Ht; subst; clear Ht;
    apply acquire_grants.
  all: try solve [intros ? ? ? Hd; discriminate Hd].
  all: try solve [intros ? ? ? ? ? Hd; discriminate Hd].
  all: try solve [solve_grant_obligation].
  all: intros ? ? ?r ? ? Hd; cbv beta in Hd; destruct (lock_mode_ r); vm_compute in Hd;
    repeat match type of Hd with
           | context [if ?b then _ else _] => destruct b
           end;
    try discriminate Hd; injection Hd as <- _; vm_compute; reflexivity.
Qed.

Lemma lock_op_err op id m s e s1 :
  acq_target op = Some (id, m) -> run_lock_op op s = Err e s1 ->
  e = LOCK_ON_SHIRINKING \/ e = DEADLOCK_PREVENTION.
Proof.
  intros Ht H. destruct (acq_target_spec _ _ _ Ht) as (dec & c & ng & Hrun & _ & _ & Hthrow).
  rewrite Hrun in H. unfold acquire in H. cbv zeta in H.
  destruct (decide _); [inversion H; by left|].
  destruct (scan_own _ _ [] _) as [[[[pre r] post] a]|] eqn:Hs.
  - apply scan_own_some in Hs as (_ & _ & Hd).
    destruct a; inversion H; subst. right. by apply (Hthrow _ _ _ _ Hd).
  - destruct (c _); inversion H; subst. by right.
Qed.

(** The row accesses that take a row lock when a [Context] is given. *)
Inductive RowAccess :=
  | AccGet
  | AccDelete
  | AccUpdate (buf : list Byte.byte).

Definition run_access (a : RowAccess) (tab : string) (rid : Rid) : M DbState unit :=
  match a with
  | AccGet => get_record tab rid true ;;; ret tt
  | AccDelete => delete_record tab rid true
  | AccUpdate buf => update_record tab rid buf true
  end.

Definition access_mode (a : RowAccess) : LockMode.t :=
  match a with
  | AccGet => LockMode.SHARED
  | _ => LockMode.EXLUCSIVE
  end.

(** A row id on a page past the end of [c3_file]. *)
Definition c9_rid : Rid := {| page_no := 7; slot_no := 0 |}.

(* ------------------------------------------------------------------ *)
(** ** DML executors (executor_insert.h, executor_delete.h, executor_update.h) *)

(** Modelled from the spec: the catalogue of system/sm_meta.h and the
    [Value] of common.h (not in src/): a column has a name, a type, an
    offset and a length in the record; an index lists its columns; a value
    carries its type and the bytes of its [int_val], [float_val] or
    [str_val]. *)
Inductive ColType := TYPE_INT | TYPE_FLOAT | TYPE_STRING.

Global Instance ColType_eq_dec : EqDecision ColType.
Proof. intros a b; unfold Decision; decide equality. Defined.

Record ColMeta := mkCol {
  col_name : string;
  col_type : ColType;
  col_offset : Z;
  col_len : Z }.

Record IndexMeta := mkIndex { index_cols : list ColMeta }.

Record TabMeta := mkTab {
  tab_cols : list ColMeta;
  tab_indexes : list IndexMeta }.

Record Value := mkValue {
  value_type : ColType;
  value_bytes : list Byte.byte }.

Record SetClause := mkSetClause {
  set_lhs : string;
  set_rhs : Value }.

(** [TabMeta::get_col]: an unknown column throws. *)
Definition get_col (tab : TabMeta) (name : string) : M DbState ColMeta :=
  match List.find (fun c => bool_decide (col_name c = name)) (tab_cols tab) with
  | Some c => ret c
  | None => throw INTERNAL
  end.

(** [memcpy(dst + off, src, len)] on a byte list; bytes past the end of
    [dst] are dropped. *)
Fixpoint memcpy (dst : list Byte.byte) (off : nat) (src : list Byte.byte) (len : nat)
    : list Byte.byte :=
  match len, src with
  | S l, b :: src' => memcpy (<[off := b]> dst) (S off) src' l
  | _, _ => dst
  end.

(** [Value::init_raw(len)]: an int or a float is its four bytes, a string
    is padded with zero bytes to [len]. *)
Definition init_raw (v : Value) (len : Z) : list Byte.byte :=
  match value_type v with
  | TYPE_STRING => firstn (Z.to_nat len) (value_bytes v ++ replicate (Z.to_nat len) Byte.x00)
  | _ => value_bytes v
  end.

(** The steps the executors take, recorded in the event log: the write to
    the heap file, the append of the undo entry (only with a transaction in
    the context) and each call to an index handle, by index position. *)
Definition heap_written (rid : Rid) : M DbState unit :=
  modify (log_event (EvHeapWrite rid)).

Definition append_write_record (ctx : bool) (wr : WriteRecord) : M DbState unit :=
  if ctx
  then modify (fun s => log_event (EvUndoAppend (wrid wr))
                          (set_txn (set_write_set (write_set (txn s) ++ [wr]) (txn s)) s))
  else ret tt.

Definition index_call (rid : Rid) (i : nat) : M DbState unit :=
  modify (log_event (EvIndexUpdate rid i)).

(** [for (size_t i = 0; i < v.size(); ++i) body(i, v[i]);] *)
Fixpoint for_each {A} (body : nat -> A -> M DbState unit) (i : nat) (l : list A)
    : M DbState unit :=
  match l with
  | [] => ret tt
  | x :: l' => body i x ;;; for_each body (S i) l'
  end.

(** Step 2 of [InsertExecutor::Next]: the values copied into the record
    buffer, column by column, after the type check. *)
Fixpoint build_record (cols : list ColMeta) (values : list Value) (rec : list Byte.byte)
    : M DbState (list Byte.byte) :=
  match cols, values with
  | c :: cols', v :: values' =>
      if decide (col_type c = value_type v)
      then build_record cols' values'
             (memcpy rec (Z.to_nat (col_offset c)) (init_raw v (col_len c)) (Z.to_nat (col_len c)))
      else throw INCOMPATIBLE_TYPE
  | _, _ => ret rec
  end.

(** [InsertExecutor::Next]; [ctx] tells whether the context has a lock
    manager and a transaction. *)
Definition insert_values (ctx : bool) (tab_name : string) (tab : TabMeta) (values : list Value)
    : M DbState Rid :=
  f <- fh_of tab_name ;;
  with_lock ctx (lock_IX_on_table (fd_ f)) ;;;
  rec <- build_record (tab_cols tab) values
           (replicate (Z.to_nat (record_size (file_hdr_ f))) Byte.x00) ;;
  rid <- insert_record tab_name rec ;;
  heap_written rid ;;;
  append_write_record ctx (mkWriteRecord INSERT_TUPLE tab_name rid []) ;;;
  for_each (fun i _ => index_call rid i) 0 (tab_indexes tab) ;;;
  ret rid.

(** One round of the loop of [DeleteExecutor::Next]. *)
Definition delete_one (ctx : bool) (tab_name : string) (tab : TabMeta) (rid : Rid)
    : M DbState unit :=
  rec <- get_record tab_name rid ctx ;;
  append_write_record ctx (mkWriteRecord DELETE_TUPLE tab_name rid rec) ;;;
  for_each (fun i _ => index_call rid i) 0 (tab_indexes tab) ;;;
  delete_record tab_name rid ctx ;;;
  heap_written rid.

(** [DeleteExecutor::Next]. *)
Definition delete_rids (ctx : bool) (tab_name : string) (tab : TabMeta) (rids : list Rid)
    : M DbState unit :=
  f <- fh_of tab_name ;;
  with_lock ctx (lock_IX_on_table (fd_ f)) ;;;
  for_each (fun _ rid => delete_one ctx tab_name tab rid) 0 rids.

(** The new value of a SET clause written into the record: an int or a
    float as its four bytes, a string zero-filled and then copied up to the
    column length. *)
Definition set_value (c : ColMeta) (v : Value) (rec : list Byte.byte) : list Byte.byte :=
  let off := Z.to_nat (col_offset c) in
  match col_type c with
  | TYPE_STRING =>
      let len := Z.to_nat (col_len c) in
      memcpy (memcpy rec off (replicate len Byte.x00) len) off (value_bytes v)
             (Nat.min len (length (value_bytes v)))
  | _ => memcpy rec off (value_bytes v) 4
  end.

Fixpoint apply_set_clauses (tab : TabMeta) (scs : list SetClause) (rec : list Byte.byte)
    : M DbState (list Byte.byte) :=
  match scs with
  | [] => ret rec
  | sc :: scs' =>
      c <- get_col tab (set_lhs sc) ;;
      if decide (col_type c = value_type (set_rhs sc))
      then apply_set_clauses tab scs' (set_value c (set_rhs sc) rec)
      else throw INCOMPATIBLE_TYPE
  end.

(** [index_affected]: some column of the index is named by a SET clause. *)
Definition index_affected (ix : IndexMeta) (scs : list SetClause) : bool :=
  existsb (fun c => existsb (fun sc => bool_decide (col_name c = set_lhs sc)) scs)
          (index_cols ix).

(** One round of the loop of [UpdateExecutor::Next]: an affected index has
    its old key deleted and its new key inserted. *)
Definition update_one (ctx : bool) (tab_name : string) (tab : TabMeta) (scs : list SetClause)
    (rid : Rid) : M DbState unit :=
  old <- get_record tab_name rid ctx ;;
  append_write_record ctx (mkWriteRecord UPDATE_TUPLE tab_name rid old) ;;;
  new <- apply_set_clauses tab scs old ;;
  for_each (fun i ix => if index_affected ix scs
                        then index_call rid i ;;; index_call rid i
                        else ret tt) 0 (tab_indexes tab) ;;;
  update_record tab_name rid new ctx ;;;
  heap_written rid.

(** [UpdateExecutor::Next]. *)
Definition update_rids (ctx : bool) (tab_name : string) (tab : TabMeta) (scs : list SetClause)
    (rids : list Rid) : M DbState unit :=
  f <- fh_of tab_name ;;
  with_lock ctx (lock_IX_on_table (fd_ f)) ;;;
  for_each (fun _ rid => update_one ctx tab_name tab scs rid) 0 rids.

(** The DML statements of a transaction, run with a context. A statement
    whose executor throws leaves what it did before the throw in place. *)
Inductive DmlOp :=
  | DmlInsert (tab_name : string) (tab : TabMeta) (values : list Value)
  | DmlDelete (tab_name : string) (tab : TabMeta) (rids : list Rid)
  | DmlUpdate (tab_name : string) (tab : TabMeta) (scs : list SetClause) (rids : list Rid).

Definition run_dml (op : DmlOp) : M DbState unit :=
  match op with
  | DmlInsert tn tab vs => insert_values true tn tab vs ;;; ret tt
  | DmlDelete tn tab rids => delete_rids true tn tab rids
  | DmlUpdate tn tab scs rids => update_rids true tn tab scs rids
  end.

Fixpoint run_dmls (ops : list DmlOp) (s : DbState) : DbState :=
  match ops with
  | [] => s
  | op :: ops' => run_dmls ops' (res_state (run_dml op s))
  end.

(* ------------------------------------------------------------------ *)
(** ** Transaction manager (transaction_manager.cpp) *)

(** [TransactionManager::begin] with a null transaction: a new transaction
    in the GROWING state, with empty lock and write sets. *)
Definition begin (tid : Z) : M DbState unit :=
  modify (set_txn (mkTxn tid TransactionState.GROWING ∅ [])).

(** The undo of one write record in [abort]: [fhs_.at(tab_name)], then
    the inverse heap operation, without a context. *)
Definition undo_write (wr : WriteRecord) : M DbState unit :=
  fh_of (wtab_name wr) ;;;
  match wtype wr with
  | INSERT_TUPLE => delete_record (wtab_name wr) (wrid wr) false
  | DELETE_TUPLE => insert_record_at (wtab_name wr) (wrid wr) (wrecord wr)
  | UPDATE_TUPLE => update_record (wtab_name wr) (wrid wr) (wrecord wr) false
  end.

Definition pop_write_record : M DbState unit :=
  modify (fun s => set_txn (set_write_set (removelast (write_set (txn s))) (txn s)) s).

(** The loop [while (!write_set->empty())], which pops the last write
    record and undoes it; [rws] is the write set, last record first (no
    undo touches the write set, so it is read once). *)
Fixpoint rollback (rws : list WriteRecord) : M DbState unit :=
  match rws with
  | [] => ret tt
  | wr :: rws' => pop_write_record ;;; undo_write wr ;;; rollback rws'
  end.

Fixpoint unlock_all (ids : list LockDataId) : M DbState unit :=
  match ids with
  | [] => ret tt
  | id :: ids' => unlock id ;;; unlock_all ids'
  end.

(** [TransactionManager::abort]. *)
Definition abort : M DbState unit :=
  s <- get ;;
  rollback (rev (write_set (txn s))) ;;;
  s1 <- get ;;
  unlock_all (elements (lock_set (txn s1))) ;;;
  modify (fun s2 => set_txn (mkTxn (txn_id (txn s2)) TransactionState.ABORTED ∅ []) s2).

(** [TransactionManager::commit]: the write set is emptied, each lock of
    the lock set is released, the lock set is cleared and the transaction
    is COMMITTED. *)
Definition commit : M DbState unit :=
  modify (fun s => set_txn (set_write_set [] (txn s)) s) ;;;
  s1 <- get ;;
  unlock_all (elements (lock_set (txn s1))) ;;;
  modify (fun s2 => set_txn (mkTxn (txn_id (txn s2)) TransactionState.COMMITTED ∅ []) s2).

(** *** The live records of the heap files *)

(** The record in slot [k] of page [pno]: present when the page is a data
    page of the file and bit [k] of its bitmap is set. *)
Definition data_page (f : RmFile) (pno : Z) : bool :=
  (RM_FIRST_RECORD_PAGE <=? pno) && (pno <? num_pages (file_hdr_ f)).

Definition page_live (p : RmPage) (k : nat) : option (list Byte.byte) :=
  match bitmap p !! k with Some true => slots p !! k | _ => None end.

Definition slot_live (f : RmFile) (pno : Z) (k : nat) : option (list Byte.byte) :=
  if data_page f pno then
    match pages f !! pno with
    | Some p => page_live p k
    | None => None
    end
  else None.

Definition live (s : DbState) (tab : string) (pno : Z) (k : nat) : option (list Byte.byte) :=
  match fhs s !! tab with Some f => slot_live f pno k | None => None end.

(** Every data page present has a bitmap and a slot array of
    [num_records_per_page] entries. *)
Definition file_wf (f : RmFile) : Prop :=
  forall pno p, RM_FIRST_RECORD_PAGE <= pno < num_pages (file_hdr_ f) ->
    pages f !! pno = Some p ->
    length (bitmap p) = Z.to_nat (num_records_per_page (file_hdr_ f)) /\
    length (slots p) = Z.to_nat (num_records_per_page (file_hdr_ f)).

Definition db_wf (s : DbState) : Prop := map_Forall (fun _ f => file_wf f) (fhs s).

(** The live records an undo entry puts back: none for an insert, the
    saved record for a delete or an update. *)
Definition undo_effect (wr : WriteRecord) (L : string -> Z -> nat -> option (list Byte.byte))
    : string -> Z -> nat -> option (list Byte.byte) :=
  fun tab pno k =>
    if decide ((tab, pno, k) = (wtab_name wr, page_no (wrid wr), Z.to_nat (slot_no (wrid wr))))
    then match wtype wr with INSERT_TUPLE => None | _ => Some (wrecord wr) end
    else L tab pno k.

(** The live records after undoing [ws], last record first. *)
Definition undone (ws : list WriteRecord) (L : string -> Z -> nat -> option (list Byte.byte))
    : string -> Z -> nat -> option (list Byte.byte) :=
  fold_right undo_effect L ws.

(** ** Example: an insert into an empty table, then abort *)

Definition c1_tab_name : string := "accounts".
Definition c1_col : ColMeta := mkCol "id" TYPE_INT 0 4.
Definition c1_tab : TabMeta := mkTab [c1_col] [mkIndex [c1_col]].
Definition c1_file : RmFile := mkRmFile 3 (mkFileHdr 4 2 1 1 RM_NO_PAGE) ∅.
Definition c1_db : DbState := mkDb ∅ (ex_txn 1) {[ c1_tab_name := c1_file ]} [].
Definition c1_value : Value := mkValue TYPE_INT [Byte.x07; Byte.x00; Byte.x00; Byte.x00].
Definition c1_ops : list DmlOp := [DmlInsert c1_tab_name c1_tab [c1_value]].
Definition c1_run : Result DbState unit :=
  abort (run_dmls c1_ops (res_state (begin 1 c1_db))).

(** *** The executors' event traces *)

(** [m] leaves the event log and the write set as they are. *)
Definition quiet {A} (m : M DbState A) : Prop :=
  forall s, events (res_state (m s)) = events s /\
            write_set (txn (res_state (m s))) = write_set (txn s).

(** [m], when it returns, has appended [tr] to the event log. *)
Definition emits {A} (m : M DbState A) (tr : list ExecEvent) : Prop :=
  forall s a s', m s = Ok a s' -> events s' = events s ++ tr.

Lemma bind_ok {St A B} (m : M St A) (k : A -> M St B) s b s' :
  bind m k s = Ok b s' -> exists a s1, m s = Ok a s1 /\ k a s1 = Ok b s'.
Proof. unfold bind. destruct (m s); intros H; [eauto | discriminate]. Qed.

Lemma quiet_bind {A B} (m : M DbState A) (k : A -> M DbState B) :
  quiet m -> (forall a, quiet (k a)) -> quiet (bind m k).
Proof.
  intros Hm Hk s. unfold bind. specialize (Hm s).
  destruct (m s) as [a s1|e s1]; simpl in *; [|done].
  destruct (Hk a s1) as [-> ->]. done.
Qed.

Lemma quiet_ret {A} (a : A) : quiet (ret a).
Proof. done. Qed.
Lemma quiet_throw {A} e : quiet (throw (A:=A) e).
Proof. done. Qed.
Lemma quiet_fh_of tab : quiet (fh_of tab).
Proof. intros s. unfold fh_of. by destruct (fhs s !! tab). Qed.
Lemma quiet_fh_store tab f : quiet (fh_store tab f).
Proof. done. Qed.

Lemma quiet_acquire id mode dec conflicts new_group :
  quiet (acquire id mode dec conflicts new_group).
Proof.
  intros s. unfold acquire. cbv zeta.
  destruct (decide _); [done|].
  destruct (scan_own _ _ [] _) as [[[[? ?] ?] [|?|? ?]]|]; [done..|].
  by destruct (conflicts _).
Qed.

Lemma quiet_with_lock ctx (l : M DbState bool) : quiet l -> quiet (with_lock ctx l).
Proof. intros Hl. destruct ctx; [apply quiet_bind; [done|intros; apply quiet_ret]|done]. Qed.

Lemma quiet_unlock id : quiet (unlock id).
Proof.
  intros s. unfold unlock.
  destruct (lock_table s !! id); [|done]. by destruct (erase_first _ _).
Qed.

Ltac quiet_tac :=
  repeat match goal with
  | |- quiet (bind _ _) => apply quiet_bind; [|intros]
  | |- quiet (ret _) => apply quiet_ret
  | |- quiet (throw _) => apply quiet_throw
  | |- quiet (fh_of _) => apply quiet_fh_of
  | |- quiet (fh_store _ _) => apply quiet_fh_store
  | |- quiet (with_lock _ _) => apply quiet_with_lock
  | |- quiet (acquire _ _ _ _ _) => apply quiet_acquire
  | |- quiet (lock_shared_on_record _ _) => apply quiet_acquire
  | |- quiet (lock_exclusive_on_record _ _) => apply quiet_acquire
  | |- quiet (fetch_page_handle _ _) => unfold fetch_page_handle
  | |- quiet (create_page_handle _) => unfold create_page_handle
  | |- quiet (if _ then _ else _) => case_match
  | |- quiet (match _ with _ => _ end) => case_match
  | |- quiet _ => progress cbv zeta
  end.

Lemma quiet_get_record tab rid ctx : quiet (get_record tab rid ctx).
Proof. unfold get_record. quiet_tac. Qed.
Lemma quiet_insert_record tab buf : quiet (insert_record tab buf).
Proof. unfold insert_record. quiet_tac. Qed.
Lemma quiet_insert_record_at tab rid buf : quiet (insert_record_at tab rid buf).
Proof. unfold insert_record_at. quiet_tac. Qed.
Lemma quiet_delete_record tab rid ctx : quiet (delete_record tab rid ctx).
Proof. unfold delete_record. quiet_tac. Qed.
Lemma quiet_update_record tab rid buf ctx : quiet (update_record tab rid buf ctx).
Proof. unfold update_record. quiet_tac. Qed.
Lemma quiet_lock_IX_on_table fd : quiet (lock_IX_on_table fd).
Proof. apply quiet_acquire. Qed.
Lemma quiet_get_col tab name : quiet (get_col tab name).
Proof. unfold get_col. quiet_tac. Qed.
Lemma quiet_build_record cols values rec : quiet (build_record cols values rec).
Proof.
  revert values rec. induction cols as [|c cols IH]; intros [|v values] rec; simpl; quiet_tac.
  apply IH.
Qed.
Lemma quiet_apply_set_clauses tab scs rec : quiet (apply_set_clauses tab scs rec).
Proof.
  revert rec. induction scs as [|sc scs IH]; intros rec; simpl; quiet_tac.
  - apply quiet_get_col.
  - apply IH.
Qed.

Lemma emits_quiet {A} (m : M DbState A) : quiet m -> emits m [].
Proof.
  intros Hm s a s' H. specialize (Hm s). rewrite H in Hm. simpl in Hm.
  rewrite app_nil_r. by destruct Hm.
Qed.

Lemma emits_bind {A B} (m : M DbState A) (k : A -> M DbState B) t1 t2 :
  emits m t1 -> (forall a, emits (k a) t2) -> emits (bind m k) (t1 ++ t2).
Proof.
  intros Hm Hk s b s' H. apply bind_ok in H as (a & s1 & H1 & H2).
  rewrite (Hk _ _ _ _ H2), (Hm _ _ _ H1). by rewrite app_assoc.
Qed.

Lemma emits_ext {A} (m : M DbState A) t t' : emits m t -> t = t' -> emits m t'.
Proof. by intros ? <-. Qed.

Lemma emits_ret {A} (a : A) : emits (ret a) [].
Proof. apply emits_quiet, quiet_ret. Qed.

Lemma emits_heap_written rid : emits (heap_written rid) [EvHeapWrite rid].
Proof. intros s a s' H. by inversion H. Qed.

Lemma emits_append_write_record wr : emits (append_write_record true wr) [EvUndoAppend (wrid wr)].
Proof. intros s a s' H. by inversion H. Qed.

Lemma emits_index_call rid i : emits (index_call rid i) [EvIndexUpdate rid i].
Proof. intros s a s' H. by inversion H. Qed.

(** The index calls of the executors, spelled out. *)
Definition index_events (rid : Rid) (i : nat) (n : nat) : list ExecEvent :=
  map (EvIndexUpdate rid) (seq i n).

Fixpoint affected_events (rid : Rid) (scs : list SetClause) (i : nat) (ixs : list IndexMeta)
    : list ExecEvent :=
  match ixs with
  | [] => []
  | ix :: ixs' =>
      (if index_affected ix scs then [EvIndexUpdate rid i; EvIndexUpdate rid i] else [])
      ++ affected_events rid scs (S i) ixs'
  end.

Lemma emits_index_loop {A} rid (l : list A) i :
  emits (for_each (fun i _ => index_call rid i) i l) (index_events rid i (length l)).
Proof.
  revert i. induction l as [|x l IH]; intros i; simpl.
  - apply emits_ret.
  - eapply emits_ext; [apply emits_bind; [apply emits_index_call | intros; apply IH]|].
    done.
Qed.

Lemma emits_affected_loop rid scs ixs i :
  emits (for_each (fun i ix => if index_affected ix scs
                               then index_call rid i ;;; index_call rid i
                               else ret tt) i ixs)
        (affected_events rid scs i ixs).
Proof.
  revert i. induction ixs as [|ix ixs IH]; intros i; simpl.
  - apply emits_ret.
  - apply emits_bind; [|intros; apply IH].
    destruct (index_affected ix scs).
    + eapply emits_ext; [apply emits_bind; [apply emits_index_call | intros; apply emits_index_call]|].
      done.
    + apply emits_ret.
Qed.

Lemma emits_for_each_rids (body : Rid -> M DbState unit) (tr : Rid -> list ExecEvent) rids i :
  (forall rid, emits (body rid) (tr rid)) ->
  emits (for_each (fun _ rid => body rid) i rids) (concat (map tr rids)).
Proof.
  intros Hb. revert i. induction rids as [|rid rids IH]; intros i; simpl.
  - apply emits_ret.
  - apply emits_bind; [apply Hb | intros; apply IH].
Qed.

(** What the executors append to the event log, statement by statement;
    [ins_rid] is the rid an insert gets. *)
Definition dml_trace (op : DmlOp) (ins_rid : Rid) : list ExecEvent :=
  match op with
  | DmlInsert _ tab _ =>
      [EvHeapWrite ins_rid; EvUndoAppend ins_rid]
      ++ index_events ins_rid 0 (length (tab_indexes tab))
  | DmlDelete _ tab rids =>
      concat (map (fun rid => [EvUndoAppend rid]
                              ++ index_events rid 0 (length (tab_indexes tab))
                              ++ [EvHeapWrite rid]) rids)
  | DmlUpdate _ tab scs rids =>
      concat (map (fun rid => [EvUndoAppend rid]
                              ++ affected_events rid scs 0 (tab_indexes tab)
                              ++ [EvHeapWrite rid]) rids)
  end.

(** The state after the insert of [c1_ops], and the row it inserted. *)
Definition c2_rid : Rid := {| page_no := 1; slot_no := 0 |}.
Definition c2_db : DbState := run_dmls c1_ops (res_state (begin 1 c1_db)).
Definition c2_delete : DmlOp := DmlDelete c1_tab_name c1_tab [c2_rid].

Lemma emits_delete_rids tn tab rids :
  emits (delete_rids true tn tab rids)
    (concat (map (fun rid => [EvUndoAppend rid]
                             ++ index_events rid 0 (length (tab_indexes tab))
                             ++ [EvHeapWrite rid]) rids)).
Proof.
  unfold delete_rids. eapply emits_ext.
  { apply emits_bind; [apply emits_quiet, quiet_fh_of|intros f].
    apply emits_bind; [apply emits_quiet, quiet_with_lock, quiet_lock_IX_on_table|intros].
    apply (emits_for_each_rids _ (fun rid => [EvUndoAppend rid]
             ++ index_events rid 0 (length (tab_indexes tab)) ++ [EvHeapWrite rid])).
    intros rid. unfold delete_one. eapply emits_ext.
    { apply emits_bind; [apply emits_quiet, quiet_get_record|intros rec].
      apply (emits_bind _ _ [EvUndoAppend rid]); [apply emits_append_write_record|intros].
      apply emits_bind; [apply emits_index_loop|intros].
      apply emits_bind; [apply emits_quiet, quiet_delete_record|intros].
      apply emits_heap_written. }
    reflexivity. }
  reflexivity.
Qed.

Lemma emits_update_rids tn tab scs rids :
  emits (update_rids true tn tab scs rids)
    (concat (map (fun rid => [EvUndoAppend rid]
                             ++ affected_events rid scs 0 (tab_indexes tab)
                             ++ [EvHeapWrite rid]) rids)).
Proof.
  unfold update_rids. eapply emits_ext.
  { apply emits_bind; [apply emits_quiet, quiet_fh_of|intros f].
    apply emits_bind; [apply emits_quiet, quiet_with_lock, quiet_lock_IX_on_table|intros].
    apply (emits_for_each_rids _ (fun rid => [EvUndoAppend rid]
             ++ affected_events rid scs 0 (tab_indexes tab) ++ [EvHeapWrite rid])).
    intros rid. unfold update_one. eapply emits_ext.
    { apply emits_bind; [apply emits_quiet, quiet_get_record|intros old].
      apply (emits_bind _ _ [EvUndoAppend rid]); [apply emits_append_write_record|intros].
      apply emits_bind; [apply emits_quiet, quiet_apply_set_clauses|intros new].
      apply emits_bind; [apply emits_affected_loop|intros].
      apply emits_bind; [apply emits_quiet, quiet_update_record|intros].
      apply emits_heap_written. }
    reflexivity. }
  reflexivity.
Qed.

(* ------------------------------------------------------------------ *)
(** ** Rollback restores the live records *)

Definition nrpp (f : RmFile) : Z := num_records_per_page (file_hdr_ f).

Definition same_shape (s s' : DbState) : Prop :=
  forall tab, nrpp <$> fhs s' !! tab = nrpp <$> fhs s !! tab.

Lemma acquire_fhs id mode dec conflicts new_group s :
  fhs (res_state (acquire id mode dec conflicts new_group s)) = fhs s.
Proof.
  unfold acquire. cbv zeta.
  destruct (decide _); [done|].
  destruct (scan_own _ _ [] _) as [[[[? ?] ?] [|?|? ?]]|]; [done..|].
  by destruct (conflicts _).
Qed.

Definition fhs_kept {A} (m : M DbState A) : Prop := forall s, fhs (res_state (m s)) = fhs s.

Lemma fhs_kept_acquire id mode dec conflicts new_group :
  fhs_kept (acquire id mode dec conflicts new_group).
Proof. intros s. apply acquire_fhs. Qed.

Lemma fhs_kept_with_lock ctx (l : M DbState bool) : fhs_kept l -> fhs_kept (with_lock ctx l).
Proof.
  intros Hl s. destruct ctx; simpl; [|done]. unfold bind.
  specialize (Hl s). destruct (l s); done.
Qed.

Ltac with_lock_fhs Hw :=
  match goal with
  | |- context [with_lock ?c ?l ?s] =>
      pose proof (fhs_kept_with_lock c l (fhs_kept_acquire _ _ _ _ _) s) as Hw
  end.

Lemma live_fhs s s' : fhs s' = fhs s -> forall t x y, live s' t x y = live s t x y.
Proof. intros H t x y. unfold live. by rewrite H. Qed.

Lemma live_store s s' tab f : fhs s' = <[tab := f]> (fhs s) ->
  forall t x y, live s' t x y = if decide (t = tab) then slot_live f x y else live s t x y.
Proof.
  intros H t x y. unfold live. rewrite H.
  destruct (decide (t = tab)) as [->|Hne].
  - by rewrite lookup_insert_eq.
  - by rewrite lookup_insert_ne by congruence.
Qed.

Lemma slot_live_set fd h ps pno p1 x y :
  slot_live (mkRmFile fd h (<[pno := p1]> ps)) x y =
  if decide (x = pno) then (if data_page (mkRmFile fd h ps) x then page_live p1 y else None)
  else slot_live (mkRmFile fd h ps) x y.
Proof.
  unfold slot_live, data_page. simpl.
  destruct (decide (x = pno)) as [->|Hne].
  - by rewrite lookup_insert_eq.
  - by rewrite lookup_insert_ne by congruence.
Qed.

Definition rid_slot (rid : Rid) : nat := Z.to_nat (slot_no rid).

(** A successful page operation: the file of [tab] had data page [pno]
    holding [p], and now has the same header size and page count, with page
    [pno] replaced by [p1]. *)
Definition page_op (s s' : DbState) (tab : string) (pno : Z) (p p1 : RmPage) : Prop :=
  exists f f', fhs s !! tab = Some f /\ data_page f pno = true /\ pages f !! pno = Some p /\
    fhs s' = <[tab := f']> (fhs s) /\
    num_pages (file_hdr_ f') = num_pages (file_hdr_ f) /\ nrpp f' = nrpp f /\
    pages f' = <[pno := p1]> (pages f).

Lemma fetch_ok f pno s p s' : fetch_page_handle f pno s = Ok p s' ->
  s' = s /\ data_page f pno = true /\ pages f !! pno = Some p.
Proof.
  unfold fetch_page_handle, data_page, RM_FIRST_RECORD_PAGE.
  destruct ((pno <? 1) || _) eqn:Hr; [discriminate|].
  destruct (pages f !! pno) eqn:Hp; intros H; inversion H; subst.
  apply orb_false_iff in Hr as [H1 H2]. split_and!; auto.
  apply andb_true_iff; split; [apply Z.leb_le; apply Z.ltb_ge in H1|apply Z.ltb_lt; apply Z.leb_gt in H2]; lia.
Qed.

Lemma fetch_err f pno s e s' : fetch_page_handle f pno s = Err e s' -> s' = s.
Proof.
  unfold fetch_page_handle. destruct (_ || _); [by inversion 1|].
  destruct (pages f !! pno); by inversion 1.
Qed.

Lemma delete_record_spec tab rid ctx s :
  match delete_record tab rid ctx s with
  | Err _ s' => fhs s' = fhs s
  | Ok _ s' => exists p a b, Bitmap.is_set (bitmap p) (slot_no rid) = true /\
      page_op s s' tab (page_no rid) p (mkPage a b (Bitmap.reset (bitmap p) (slot_no rid)) (slots p))
  end.
Proof.
  unfold delete_record, bind, fh_of.
  destruct (fhs s !! tab) as [f|] eqn:Hf; [|done].
  with_lock_fhs Hw.
  destruct (with_lock _ _ s) as [[] s1|e s1] eqn:Hl; simpl in Hw; [|done].
  destruct (fetch_page_handle f (page_no rid) s1) as [p s2|e s2] eqn:Hfe.
  2: { apply fetch_err in Hfe. by subst. }
  apply fetch_ok in Hfe as (-> & Hd & Hp).
  destruct (Bitmap.is_set _ _) eqn:Hb; simpl; [|done].
  destruct (_ =? _); simpl.
  - eexists p, _, _. split; [done|].
    eexists f, _. rewrite Hw. split_and!; try done.
  - eexists p, _, _. split; [done|].
    eexists f, _. rewrite Hw. split_and!; try done.
Qed.

Lemma update_record_spec tab rid buf ctx s :
  match update_record tab rid buf ctx s with
  | Err _ s' => fhs s' = fhs s
  | Ok _ s' => exists p a b, Bitmap.is_set (bitmap p) (slot_no rid) = true /\
      page_op s s' tab (page_no rid) p (mkPage a b (bitmap p) (<[rid_slot rid := buf]> (slots p)))
  end.
Proof.
  unfold update_record, bind, fh_of.
  destruct (fhs s !! tab) as [f|] eqn:Hf; [|done].
  with_lock_fhs Hw.
  destruct (with_lock _ _ s) as [[] s1|e s1] eqn:Hl; simpl in Hw; [|done].
  destruct (fetch_page_handle f (page_no rid) s1) as [p s2|e s2] eqn:Hfe.
  2: { apply fetch_err in Hfe. by subst. }
  apply fetch_ok in Hfe as (-> & Hd & Hp).
  destruct (Bitmap.is_set _ _) eqn:Hb; simpl; [|done].
  eexists p, _, _. split; [done|].
  eexists f, _. rewrite Hw. split_and!; try done.
Qed.

Lemma insert_record_at_spec tab rid buf s :
  match insert_record_at tab rid buf s with
  | Err _ s' => fhs s' = fhs s
  | Ok _ s' => exists p a b,
      page_op s s' tab (page_no rid) p
        (mkPage a b (Bitmap.set (bitmap p) (slot_no rid)) (<[rid_slot rid := buf]> (slots p)))
  end.
Proof.
  unfold insert_record_at, bind, fh_of.
  destruct (fhs s !! tab) as [f|] eqn:Hf; [|done].
  destruct (fetch_page_handle f (page_no rid) s) as [p s2|e s2] eqn:Hfe.
  2: { apply fetch_err in Hfe. by subst. }
  apply fetch_ok in Hfe as (-> & Hd & Hp). simpl.
  eexists p, _, _. eexists f, _. split_and!; try done.
Qed.

Lemma get_record_spec tab rid ctx s :
  match get_record tab rid ctx s with
  | Err _ s' => fhs s' = fhs s
  | Ok d s' => fhs s' = fhs s /\ exists f p, fhs s !! tab = Some f /\ data_page f (page_no rid) = true /\
      pages f !! page_no rid = Some p /\ Bitmap.is_set (bitmap p) (slot_no rid) = true /\
      d = default [] (slots p !! rid_slot rid)
  end.
Proof.
  unfold get_record, bind, fh_of.
  destruct (fhs s !! tab) as [f|] eqn:Hf; [|done].
  with_lock_fhs Hw.
  destruct (with_lock _ _ s) as [[] s1|e s1] eqn:Hl; simpl in Hw; [|done].
  destruct (fetch_page_handle f (page_no rid) s1) as [p s2|e s2] eqn:Hfe.
  2: { apply fetch_err in Hfe. by subst. }
  apply fetch_ok in Hfe as (-> & Hd & Hp).
  destruct (Bitmap.is_set _ _) eqn:Hb; simpl; [|done].
  split; [done|]. eexists f, p. split_and!; try done.
Qed.

(** *** Live records under page operations *)

Definition local_change (tab : string) (pno : Z) (k : nat) (s s' : DbState) : Prop :=
  forall t x y, (t, x, y) <> (tab, pno, k) -> live s' t x y = live s t x y.

Lemma slot_live_store f f2 pno p2 x y :
  num_pages (file_hdr_ f2) = num_pages (file_hdr_ f) -> pages f2 = <[pno := p2]> (pages f) ->
  slot_live f2 x y =
  if decide (x = pno) then (if data_page f x then page_live p2 y else None) else slot_live f x y.
Proof.
  intros Hn Hp. unfold slot_live, data_page. rewrite Hn, Hp.
  destruct (decide (x = pno)) as [->|Hne].
  - by rewrite lookup_insert_eq.
  - by rewrite lookup_insert_ne by congruence.
Qed.

Lemma page_op_live s s' tab pno p p1 : page_op s s' tab pno p p1 ->
  forall t x y, live s' t x y =
    if decide ((t, x) = (tab, pno)) then page_live p1 y else live s t x y.
Proof.
  intros (f & f' & Hf & Hd & Hp & Hs & Hn & Hr & Hpg) t x y.
  rewrite (live_store s s' tab f' Hs).
  destruct (decide (t = tab)) as [->|Hne].
  - rewrite (slot_live_store f f' pno p1 x y Hn Hpg). unfold live. rewrite Hf.
    destruct (decide (x = pno)) as [->|Hx].
    + rewrite Hd. by rewrite decide_True.
    + by rewrite decide_False by congruence.
  - by rewrite decide_False by congruence.
Qed.

Lemma page_op_shape s s' tab pno p p1 : page_op s s' tab pno p p1 -> same_shape s s'.
Proof.
  intros (f & f' & Hf & Hd & Hp & Hs & Hn & Hr & Hpg) t. rewrite Hs.
  destruct (decide (t = tab)) as [->|Hne].
  - by rewrite lookup_insert_eq, Hf; simpl; rewrite Hr.
  - by rewrite lookup_insert_ne by congruence.
Qed.

Lemma file_wf_store f f2 pno p2 :
  file_wf f -> num_pages (file_hdr_ f2) = num_pages (file_hdr_ f) -> nrpp f2 = nrpp f ->
  pages f2 = <[pno := p2]> (pages f) ->
  (data_page f pno = true ->
     length (bitmap p2) = Z.to_nat (nrpp f) /\ length (slots p2) = Z.to_nat (nrpp f)) ->
  file_wf f2.
Proof.
  intros Hwf Hn Hr Hpg Hl x q Hx Hq. unfold nrpp in *. rewrite Hr. rewrite Hn in Hx.
  rewrite Hpg in Hq. destruct (decide (x = pno)) as [->|Hne].
  - rewrite lookup_insert_eq in Hq. inversion Hq; subst. apply Hl.
    unfold data_page. apply andb_true_iff; split; [apply Z.leb_le|apply Z.ltb_lt]; lia.
  - rewrite lookup_insert_ne in Hq by congruence. by apply (Hwf x q).
Qed.

Lemma page_op_wf s s' tab pno p p1 : page_op s s' tab pno p p1 ->
  length (bitmap p1) = length (bitmap p) -> length (slots p1) = length (slots p) ->
  db_wf s -> db_wf s'.
Proof.
  intros (f & f' & Hf & Hd & Hp & Hs & Hn & Hr & Hpg) Hb Hsl Hwf.
  unfold db_wf. rewrite Hs. apply map_Forall_insert_2; [|done].
  pose proof (Hwf tab f Hf) as Hff. simpl in Hff.
  apply (file_wf_store f f' pno p1 Hff Hn Hr Hpg). intros Hd'.
  rewrite Hb, Hsl. apply (Hff pno p); [|done].
  unfold data_page in Hd. apply andb_true_iff in Hd as [H1 H2].
  apply Z.leb_le in H1. apply Z.ltb_lt in H2. lia.
Qed.

Lemma page_op_wf_page s s' tab pno p p1 : page_op s s' tab pno p p1 -> db_wf s ->
  exists f, fhs s !! tab = Some f /\
    length (bitmap p) = Z.to_nat (nrpp f) /\ length (slots p) = Z.to_nat (nrpp f).
Proof.
  intros (f & f' & Hf & Hd & Hp & Hs & Hn & Hr & Hpg) Hwf. exists f. split; [done|].
  apply (Hwf tab f Hf pno p); [|done].
  unfold data_page in Hd. apply andb_true_iff in Hd as [H1 H2].
  apply Z.leb_le in H1. apply Z.ltb_lt in H2. lia.
Qed.

(** *** Page-level facts *)

Lemma page_live_clear p k : Bitmap.is_set (bitmap p) (Z.of_nat k) = false -> page_live p k = None.
Proof.
  unfold page_live, Bitmap.is_set. rewrite Nat2Z.id.
  destruct (bitmap p !! k) as [[]|]; simpl; congruence.
Qed.

Lemma page_live_agree p p1 k y :
  y <> k -> bitmap p1 !! y = bitmap p !! y -> slots p1 !! y = slots p !! y ->
  page_live p1 y = page_live p y.
Proof. intros _ Hb Hs. unfold page_live. by rewrite Hb, Hs. Qed.

Lemma page_live_reset a b bm sl pos :
  page_live (mkPage a b (Bitmap.reset bm pos) sl) (Z.to_nat pos) = None.
Proof.
  unfold page_live, Bitmap.reset. simpl.
  destruct (<[Z.to_nat pos := false]> bm !! Z.to_nat pos) as [b'|] eqn:E; [|done].
  apply list_lookup_insert_Some in E as [(_ & <- & _)|(? & _)]; [done|congruence].
Qed.

Lemma page_live_write a b bm sl k buf :
  bm !! k = Some true -> length sl = length bm ->
  page_live (mkPage a b bm (<[k := buf]> sl)) k = Some buf.
Proof.
  intros Hb Hl. unfold page_live. simpl. rewrite Hb.
  apply list_lookup_insert_eq. apply lookup_lt_Some in Hb. lia.
Qed.

Lemma page_live_set_write a b bm sl k buf :
  (k < length bm)%nat -> length sl = length bm ->
  page_live (mkPage a b (<[k := true]> bm) (<[k := buf]> sl)) k = Some buf.
Proof.
  intros Hk Hl. unfold page_live. simpl. rewrite list_lookup_insert_eq by done.
  apply list_lookup_insert_eq. lia.
Qed.

Lemma is_set_lookup bm pos : Bitmap.is_set bm pos = true -> bm !! Z.to_nat pos = Some true.
Proof. unfold Bitmap.is_set. destruct (bm !! Z.to_nat pos) as [[]|]; simpl; congruence. Qed.

Lemma first_bit_go_spec bit bm k i :
  i <= Bitmap.first_bit_go bit bm k i /\
  (Bitmap.first_bit_go bit bm k i < i + Z.of_nat k ->
   Bitmap.is_set bm (Bitmap.first_bit_go bit bm k i) = bit).
Proof.
  revert i. induction k as [|k IH]; intros i; simpl.
  - split; [lia|]. lia.
  - destruct (Bool.eqb (Bitmap.is_set bm i) bit) eqn:E.
    + apply Bool.eqb_prop in E. split; [lia|done].
    + destruct (IH (i + 1)) as [H1 H2]. split; [lia|]. intros Hlt. apply H2. lia.
Qed.

Lemma first_bit_clear bm n :
  Bitmap.first_bit false bm n < n ->
  0 <= Bitmap.first_bit false bm n /\ Bitmap.is_set bm (Bitmap.first_bit false bm n) = false.
Proof.
  unfold Bitmap.first_bit. intros Hlt.
  destruct (first_bit_go_spec false bm (Z.to_nat n) 0) as [H1 H2].
  split; [done|]. apply H2. lia.
Qed.

Lemma slot_live_fresh f0 x y :
  slot_live (fst (fst (create_new_page_handle f0))) x y = slot_live f0 x y.
Proof.
  unfold create_new_page_handle, slot_live, data_page. cbn [fst snd file_hdr_ pages num_pages].
  destruct (decide (x = num_pages (file_hdr_ f0))) as [->|Hne].
  - rewrite (lookup_insert_eq (pages f0)). replace ((num_pages (file_hdr_ f0) <? num_pages (file_hdr_ f0))) with false
      by (symmetry; apply Z.ltb_ge; lia).
    rewrite andb_false_r. destruct (_ && _); [|done].
    unfold page_live, Bitmap.init. simpl.
    destruct (replicate _ false !! y) as [[]|] eqn:E; [|done..].
    apply lookup_replicate in E as [E _]. discriminate.
  - rewrite lookup_insert_ne by congruence.
    replace (x <? num_pages (file_hdr_ f0) + 1) with (x <? num_pages (file_hdr_ f0)); [done|].
    destruct (Z.ltb_spec x (num_pages (file_hdr_ f0))), (Z.ltb_spec x (num_pages (file_hdr_ f0) + 1));
      try done; lia.
Qed.

Lemma create_page_handle_spec f0 s :
  match create_page_handle f0 s with
  | Ok (f, pno, p) s' => s' = s /\ pages f !! pno = Some p /\
      (forall x y, slot_live f x y = slot_live f0 x y) /\ nrpp f = nrpp f0 /\
      (file_wf f0 -> file_wf f)
  | Err _ s' => s' = s
  end.
Proof.
  unfold create_page_handle. cbv zeta.
  destruct (_ =? RM_NO_PAGE); simpl.
  - split_and!; [done| |apply slot_live_fresh|done|].
    + unfold create_new_page_handle. simpl. apply lookup_insert_eq.
    + intros Hwf x q Hx Hq. unfold create_new_page_handle in *. simpl in *.
      destruct (decide (x = num_pages (file_hdr_ f0))) as [->|Hne].
      * rewrite lookup_insert_eq in Hq. inversion Hq; subst. simpl.
        unfold Bitmap.init. by rewrite !length_replicate.
      * rewrite lookup_insert_ne in Hq by congruence. apply (Hwf x q); [lia|done].
  - destruct (pages f0 !! _) eqn:Hp; simpl; [|done]. split_and!; auto.
Qed.

Lemma insert_record_spec tab buf s :
  match insert_record tab buf s with
  | Err _ s' => s' = s
  | Ok rid s' => write_set (txn s') = write_set (txn s) /\
      live s tab (page_no rid) (rid_slot rid) = None /\ same_shape s s' /\
      (db_wf s -> db_wf s') /\ local_change tab (page_no rid) (rid_slot rid) s s'
  end.
Proof.
  unfold insert_record, bind, fh_of.
  destruct (fhs s !! tab) as [f0|] eqn:Hf0; [|done].
  pose proof (create_page_handle_spec f0 s) as Hc.
  destruct (create_page_handle f0 s) as [[[f pno] p] s1|e s1]; [|done].
  destruct Hc as (-> & Hp & Hsl & Hr & Hwff). cbv zeta.
  destruct (num_records_per_page (file_hdr_ f) <=? _) eqn:Hn; simpl.
  - (* no free slot: only the page allocation is stored *)
    split; [done|]. split.
    { unfold live. rewrite Hf0. unfold slot_live, data_page, RM_FIRST_RECORD_PAGE. done. }
    split; [|split].
    + intros t. cbn [set_fhs fhs]. destruct (decide (t = tab)) as [->|Hne].
      * by rewrite lookup_insert_eq, Hf0; simpl; rewrite Hr.
      * by rewrite lookup_insert_ne by congruence.
    + intros Hwf. unfold db_wf. simpl. apply map_Forall_insert_2; [|done].
      apply Hwff. exact (Hwf tab f0 Hf0).
    + intros t x y _. rewrite (live_store s (set_fhs (<[tab:=f]> (fhs s)) s) tab f eq_refl).
      destruct (decide (t = tab)) as [->|]; [|done]. unfold live. by rewrite Hf0, Hsl.
  - apply Z.leb_gt in Hn.
    set (slot := Bitmap.first_bit false (bitmap p) (num_records_per_page (file_hdr_ f))) in *.
    destruct (first_bit_clear _ _ Hn) as [Hs0 Hclr]. fold slot in Hs0, Hclr.
    match goal with |- context [<[tab := ?F]> (fhs s)] => set (f2 := F) end.
    assert (Hprop : num_pages (file_hdr_ f2) = num_pages (file_hdr_ f) /\ nrpp f2 = nrpp f /\
      exists a b, pages f2 = <[pno := mkPage a b (Bitmap.set (bitmap p) slot)
                                         (<[Z.to_nat slot := buf]> (slots p))]> (pages f)).
    { subst f2. destruct (_ =? _); simpl; split_and!; eauto. }
    clearbody f2. destruct Hprop as (Hn2 & Hr2 & a & b & Hpg2).
    assert (Hlive0 : slot_live f pno (Z.to_nat slot) = None).
    { unfold slot_live. rewrite Hp. destruct (data_page f pno); [|done].
      apply page_live_clear. by rewrite Z2Nat.id. }
    split; [done|]. split.
    { unfold live, rid_slot. rewrite Hf0. simpl. by rewrite <- Hsl. }
    split; [|split].
    + intros t. cbn [set_fhs fhs]. destruct (decide (t = tab)) as [->|Hne].
      * by rewrite lookup_insert_eq, Hf0; simpl; rewrite Hr2, Hr.
      * by rewrite lookup_insert_ne by congruence.
    + intros Hwf. unfold db_wf. apply map_Forall_insert_2; [|done].
      pose proof (Hwff (Hwf tab f0 Hf0)) as Hwf1.
      apply (file_wf_store f f2 pno _ Hwf1 Hn2 Hr2 Hpg2). intros Hd. simpl.
      unfold Bitmap.set. rewrite !length_insert.
      apply (Hwf1 pno p); [|done].
      unfold data_page in Hd. apply andb_true_iff in Hd as [H1 H2].
      apply Z.leb_le in H1. apply Z.ltb_lt in H2. lia.
    + intros t x y Hne. rewrite (live_store s (set_fhs (<[tab:=f2]> (fhs s)) s) tab f2 eq_refl).
      destruct (decide (t = tab)) as [->|]; [|done].
      unfold live. rewrite Hf0, <- Hsl.
      rewrite (slot_live_store f f2 pno _ x y Hn2 Hpg2).
      destruct (decide (x = pno)) as [->|]; [|done].
      assert (Hy : y <> Z.to_nat slot) by (intros ->; apply Hne; reflexivity).
      unfold slot_live. rewrite Hp. destruct (data_page f pno); [|done].
      apply page_live_agree with (k := Z.to_nat slot); [done| |]; simpl;
        [unfold Bitmap.set|]; by rewrite list_lookup_insert_ne by (unfold rid_slot; congruence).
Qed.

(** *** Undo *)

Definition del_ok (s : DbState) (wr : WriteRecord) : Prop :=
  wtype wr = DELETE_TUPLE ->
  exists f, fhs s !! wtab_name wr = Some f /\ (rid_slot (wrid wr) < Z.to_nat (nrpp f))%nat.

Lemma del_ok_shape s s' wr : same_shape s s' -> del_ok s wr -> del_ok s' wr.
Proof.
  intros Hsh Hd Ht. destruct (Hd Ht) as (f & Hf & Hk).
  specialize (Hsh (wtab_name wr)). rewrite Hf in Hsh. simpl in Hsh.
  destruct (fhs s' !! wtab_name wr) as [f'|]; [|discriminate].
  inversion Hsh. exists f'. split; [done|]. congruence.
Qed.

Lemma same_shape_refl s : same_shape s s.
Proof. done. Qed.
Lemma same_shape_trans s1 s2 s3 : same_shape s1 s2 -> same_shape s2 s3 -> same_shape s1 s3.
Proof. intros H1 H2 t. by rewrite H2, H1. Qed.
Lemma same_shape_fhs s s' : fhs s' = fhs s -> same_shape s s'.
Proof. intros H t. by rewrite H. Qed.
Lemma db_wf_fhs s s' : fhs s' = fhs s -> db_wf s -> db_wf s'.
Proof. unfold db_wf. by intros ->. Qed.

Lemma undone_ext ws L L' : (forall t x y, L t x y = L' t x y) ->
  forall t x y, undone ws L t x y = undone ws L' t x y.
Proof.
  induction ws as [|wr ws IH]; intros H t x y; simpl; [apply H|].
  unfold undo_effect. destruct (decide _); [done|]. by apply IH.
Qed.

Lemma undone_snoc ws wr L t x y : undone (ws ++ [wr]) L t x y = undone ws (undo_effect wr L) t x y.
Proof. unfold undone. by rewrite fold_right_app. Qed.

Lemma page_op_before s s' tab pno p p1 : page_op s s' tab pno p p1 ->
  forall y, live s tab pno y = page_live p y.
Proof.
  intros (f & f' & Hf & Hd & Hp & _) y. unfold live, slot_live. by rewrite Hf, Hd, Hp.
Qed.

Lemma undo_write_effect wr s u s' :
  db_wf s -> del_ok s wr -> undo_write wr s = Ok u s' ->
  db_wf s' /\ same_shape s s' /\
  forall t x y, live s' t x y = undo_effect wr (live s) t x y.
Proof.
  intros Hwf Hdel H. unfold undo_write in H.
  apply bind_ok in H as (f & s1 & Hf & H).
  unfold fh_of in Hf. destruct (fhs s !! wtab_name wr) eqn:Hfs; inversion Hf; subst s1 f; clear Hf.
  unfold undo_effect, rid_slot.
  destruct (wtype wr) eqn:Ht.
  - pose proof (delete_record_spec (wtab_name wr) (wrid wr) false s) as Hs. rewrite H in Hs.
    destruct Hs as (p & a & b & Hb & Hop).
    split; [apply (page_op_wf _ _ _ _ _ _ Hop); simpl; unfold Bitmap.reset; by rewrite ?length_insert|].
    split; [by apply (page_op_shape _ _ _ _ _ _ Hop)|].
    intros t x y. rewrite (page_op_live _ _ _ _ _ _ Hop).
    destruct (decide ((t, x) = (wtab_name wr, page_no (wrid wr)))) as [Htx|Htx].
    + inversion Htx; subst t x. destruct (decide (y = Z.to_nat (slot_no (wrid wr)))) as [->|Hy].
      * rewrite decide_True by done. apply page_live_reset.
      * rewrite decide_False by congruence. rewrite (page_op_before _ _ _ _ _ _ Hop).
        apply (page_live_agree _ _ (Z.to_nat (slot_no (wrid wr)))); [done| |done].
        simpl. unfold Bitmap.reset. by rewrite list_lookup_insert_ne by (unfold rid_slot; congruence).
    + rewrite decide_False by congruence. done.
  - pose proof (insert_record_at_spec (wtab_name wr) (wrid wr) (wrecord wr) s) as Hs. rewrite H in Hs.
    destruct Hs as (p & a & b & Hop).
    split; [apply (page_op_wf _ _ _ _ _ _ Hop); simpl; unfold Bitmap.set; by rewrite ?length_insert|].
    split; [by apply (page_op_shape _ _ _ _ _ _ Hop)|].
    destruct (page_op_wf_page _ _ _ _ _ _ Hop Hwf) as (f & Hf & Hlb & Hls).
    destruct (Hdel Ht) as (f' & Hf' & Hk). rewrite Hf in Hf'. inversion Hf'; subst f'.
    intros t x y. rewrite (page_op_live _ _ _ _ _ _ Hop).
    destruct (decide ((t, x) = (wtab_name wr, page_no (wrid wr)))) as [Htx|Htx].
    + inversion Htx; subst t x. destruct (decide (y = Z.to_nat (slot_no (wrid wr)))) as [->|Hy].
      * rewrite decide_True by done. unfold Bitmap.set.
        apply page_live_set_write; unfold rid_slot in Hk; lia.
      * rewrite decide_False by congruence. rewrite (page_op_before _ _ _ _ _ _ Hop).
        apply (page_live_agree _ _ (Z.to_nat (slot_no (wrid wr)))); [done| |]; simpl;
          [unfold Bitmap.set|]; by rewrite list_lookup_insert_ne by (unfold rid_slot; congruence).
    + rewrite decide_False by congruence. done.
  - pose proof (update_record_spec (wtab_name wr) (wrid wr) (wrecord wr) false s) as Hs. rewrite H in Hs.
    destruct Hs as (p & a & b & Hb & Hop).
    split; [apply (page_op_wf _ _ _ _ _ _ Hop); simpl; by rewrite ?length_insert|].
    split; [by apply (page_op_shape _ _ _ _ _ _ Hop)|].
    destruct (page_op_wf_page _ _ _ _ _ _ Hop Hwf) as (f & Hf & Hlb & Hls).
    intros t x y. rewrite (page_op_live _ _ _ _ _ _ Hop).
    destruct (decide ((t, x) = (wtab_name wr, page_no (wrid wr)))) as [Htx|Htx].
    + inversion Htx; subst t x. destruct (decide (y = Z.to_nat (slot_no (wrid wr)))) as [->|Hy].
      * rewrite decide_True by done. apply page_live_write; [by apply is_set_lookup|lia].
      * rewrite decide_False by congruence. rewrite (page_op_before _ _ _ _ _ _ Hop).
        apply (page_live_agree _ _ (Z.to_nat (slot_no (wrid wr)))); [done|done|]; simpl.
        by rewrite list_lookup_insert_ne by (unfold rid_slot; congruence).
    + rewrite decide_False by congruence. done.
Qed.

Lemma del_ok_fhs s s' wr : fhs s' = fhs s -> del_ok s wr -> del_ok s' wr.
Proof. intros H. apply del_ok_shape, same_shape_fhs, H. Qed.

Lemma rollback_sound ws : forall s u s',
  db_wf s -> Forall (del_ok s) ws -> rollback (rev ws) s = Ok u s' ->
  db_wf s' /\ same_shape s s' /\ forall t x y, live s' t x y = undone ws (live s) t x y.
Proof.
  induction ws as [|wr ws IH] using rev_ind; intros s u s' Hwf Hdel H.
  - simpl in H. inversion H; subst. done.
  - rewrite rev_app_distr in H. simpl in H.
    apply bind_ok in H as (u1 & s1 & Hp & H). unfold pop_write_record, modify in Hp.
    inversion Hp; subst u1 s1; clear Hp.
    apply bind_ok in H as (u2 & s2 & Hu & H).
    apply Forall_app in Hdel as [Hdel Hwr]. apply Forall_inv in Hwr.
    set (s1 := set_txn (set_write_set (removelast (write_set (txn s))) (txn s)) s) in Hu.
    assert (Hs1 : fhs s1 = fhs s) by done.
    destruct (undo_write_effect wr s1 _ _ (db_wf_fhs s _ Hs1 Hwf)
                (del_ok_fhs s _ wr Hs1 Hwr) Hu) as (Hwf2 & Hsh2 & Hl2).
    assert (Hsh2' : same_shape s s2) by (intros t; rewrite (Hsh2 t); done).
    destruct (IH s2 u s' Hwf2) as (Hwf' & Hsh' & Hl').
    { eapply Forall_impl; [exact Hdel|]. intros. by eapply del_ok_shape. }
    { exact H. }
    split; [done|]. split; [by eapply same_shape_trans|].
    intros t x y. rewrite Hl', undone_snoc. apply undone_ext. exact Hl2.
Qed.

(** *** The rollback invariant of a running transaction *)

Definition LiveMap := string -> Z -> nat -> option (list Byte.byte).

(** Undoing the write set of the transaction from the current live records
    gives [L0]; the saved deletes fit their pages; the files are well formed. *)
Definition c1_inv (L0 : LiveMap) (s : DbState) : Prop :=
  db_wf s /\ Forall (del_ok s) (write_set (txn s)) /\
  forall t x y, undone (write_set (txn s)) (live s) t x y = L0 t x y.

Definition inert {A} (m : M DbState A) : Prop :=
  forall s, fhs (res_state (m s)) = fhs s /\ write_set (txn (res_state (m s))) = write_set (txn s).

Definition pres {A} (L0 : LiveMap) (m : M DbState A) : Prop :=
  forall s, c1_inv L0 s -> c1_inv L0 (res_state (m s)).

Lemma inv_fhs L0 s s' : fhs s' = fhs s -> write_set (txn s') = write_set (txn s) ->
  c1_inv L0 s -> c1_inv L0 s'.
Proof.
  intros Hf Hw (Hwf & Hd & Hu). split_and!.
  - by eapply db_wf_fhs.
  - rewrite Hw. eapply Forall_impl; [exact Hd|]. intros. by eapply del_ok_fhs.
  - intros t x y. rewrite Hw, <- Hu. apply undone_ext. by apply live_fhs.
Qed.

Lemma inert_bind {A B} (m : M DbState A) (k : A -> M DbState B) :
  inert m -> (forall a, inert (k a)) -> inert (bind m k).
Proof.
  intros Hm Hk s. unfold bind. specialize (Hm s).
  destruct (m s) as [a s1|e s1]; simpl in *; [|done].
  destruct (Hk a s1) as [H1 H2]. rewrite H1, H2. tauto.
Qed.

Lemma inert_ret {A} (a : A) : inert (ret a).
Proof. done. Qed.
Lemma inert_throw {A} e : inert (throw (A:=A) e).
Proof. done. Qed.
Lemma inert_fh_of tab : inert (fh_of tab).
Proof. intros s. unfold fh_of. by destruct (fhs s !! tab). Qed.
Lemma inert_log ev : inert (modify (log_event ev)).
Proof. done. Qed.
Lemma inert_with_lock_IX ctx fd : inert (with_lock ctx (lock_IX_on_table fd)).
Proof.
  intros s. split.
  - apply (fhs_kept_with_lock _ _ (fhs_kept_acquire _ _ _ _ _)).
  - apply (quiet_with_lock _ _ (quiet_lock_IX_on_table fd)).
Qed.
Lemma inert_for_each {A} (body : nat -> A -> M DbState unit) :
  (forall i x, inert (body i x)) -> forall l i, inert (for_each body i l).
Proof.
  intros Hb l. induction l; intros i; simpl; [apply inert_ret|].
  apply inert_bind; [apply Hb|intros; apply IHl].
Qed.
Lemma inert_build_record cols : forall values rec, inert (build_record cols values rec).
Proof.
  induction cols as [|c cols IH]; intros [|v values] rec; simpl; try apply inert_ret.
  destruct (decide _); [apply IH|apply inert_throw].
Qed.
Lemma inert_get_col tab name : inert (get_col tab name).
Proof. unfold get_col. destruct (List.find _ _); [apply inert_ret|apply inert_throw]. Qed.
Lemma inert_apply_set_clauses tab scs : forall rec, inert (apply_set_clauses tab scs rec).
Proof.
  induction scs as [|sc scs IH]; intros rec; simpl; [apply inert_ret|].
  apply inert_bind; [apply inert_get_col|]. intros c.
  destruct (decide _); [apply IH|apply inert_throw].
Qed.

Lemma pres_inert {A} L0 (m : M DbState A) : inert m -> pres L0 m.
Proof. intros Hm s. destruct (Hm s) as [H1 H2]. by apply inv_fhs. Qed.

Lemma pres_bind {A B} L0 (m : M DbState A) (k : A -> M DbState B) :
  pres L0 m -> (forall a, pres L0 (k a)) -> pres L0 (bind m k).
Proof.
  intros Hm Hk s H. unfold bind. specialize (Hm s H).
  destruct (m s); simpl in *; [by apply Hk|done].
Qed.

Lemma pres_for_each {A} L0 (body : nat -> A -> M DbState unit) :
  (forall i x, pres L0 (body i x)) -> forall l i, pres L0 (for_each body i l).
Proof.
  intros Hb l. induction l; intros i; simpl; [apply pres_inert, inert_ret|].
  apply pres_bind; [apply Hb|intros; apply IHl].
Qed.

(** The record an undo entry saves is what its slot holds when the entry is
    appended: nothing for an insert (its slot was free before it). *)
Definition saved (wr : WriteRecord) : option (list Byte.byte) :=
  match wtype wr with INSERT_TUPLE => None | _ => Some (wrecord wr) end.

Lemma inv_append L0 s s' wr :
  c1_inv L0 s -> write_set (txn s') = write_set (txn s) ++ [wr] ->
  db_wf s' -> same_shape s s' -> del_ok s' wr ->
  local_change (wtab_name wr) (page_no (wrid wr)) (rid_slot (wrid wr)) s s' ->
  live s (wtab_name wr) (page_no (wrid wr)) (rid_slot (wrid wr)) = saved wr ->
  c1_inv L0 s'.
Proof.
  intros (Hwf & Hd & Hu) Hw Hwf' Hsh Hdw Hloc Hkey. split_and!; [done| |].
  - rewrite Hw. apply Forall_app. split; [|by constructor].
    eapply Forall_impl; [exact Hd|]. intros. by eapply del_ok_shape.
  - intros t x y. rewrite Hw, undone_snoc, <- Hu. apply undone_ext. intros t' x' y'.
    unfold undo_effect.
    destruct (decide _) as [E|E].
    + injection E as -> -> ->. symmetry. exact Hkey.
    + apply Hloc. exact E.
Qed.

Lemma inv_local L0 s s' ws wr :
  c1_inv L0 s -> write_set (txn s) = ws ++ [wr] -> write_set (txn s') = write_set (txn s) ->
  db_wf s' -> same_shape s s' ->
  local_change (wtab_name wr) (page_no (wrid wr)) (rid_slot (wrid wr)) s s' ->
  c1_inv L0 s'.
Proof.
  intros (Hwf & Hd & Hu) Hws Hw Hwf' Hsh Hloc. split_and!; [done| |].
  - rewrite Hw. eapply Forall_impl; [exact Hd|]. intros. by eapply del_ok_shape.
  - intros t x y. rewrite Hw, <- Hu, Hws, !undone_snoc. apply undone_ext. intros t' x' y'.
    unfold undo_effect. destruct (decide _) as [E|E]; [done|]. apply Hloc. exact E.
Qed.

Lemma page_op_local s s' tab pno p p1 k :
  page_op s s' tab pno p p1 ->
  (forall y, y <> k -> bitmap p1 !! y = bitmap p !! y /\ slots p1 !! y = slots p !! y) ->
  local_change tab pno k s s'.
Proof.
  intros Hop Hag t x y Hne. rewrite (page_op_live _ _ _ _ _ _ Hop).
  destruct (decide _) as [E|E]; [|done].
  injection E as -> ->. rewrite (page_op_before _ _ _ _ _ _ Hop).
  assert (y <> k) by congruence. destruct (Hag y) as [H1 H2]; [done|].
  by apply (page_live_agree _ _ k).
Qed.

Lemma get_record_live tab rid ctx s d s' :
  db_wf s -> get_record tab rid ctx s = Ok d s' ->
  fhs s' = fhs s /\ live s tab (page_no rid) (rid_slot rid) = Some d /\
  exists f, fhs s !! tab = Some f /\ (rid_slot rid < Z.to_nat (nrpp f))%nat.
Proof.
  intros Hwf H. pose proof (get_record_spec tab rid ctx s) as Hg. rewrite H in Hg.
  destruct Hg as (Hf & f & p & Htab & Hd & Hp & Hb & ->). split; [done|].
  assert (Hl : length (bitmap p) = Z.to_nat (nrpp f) /\ length (slots p) = Z.to_nat (nrpp f)).
  { apply (Hwf tab f Htab (page_no rid) p). { unfold RM_FIRST_RECORD_PAGE; unfold data_page in Hd. apply andb_true_iff in Hd as [H1 H2].
      apply Z.leb_le in H1. apply Z.ltb_lt in H2. unfold RM_FIRST_RECORD_PAGE in *. lia. } exact Hp. }
  apply is_set_lookup in Hb. pose proof (lookup_lt_Some _ _ _ Hb) as Hk.
  destruct (lookup_lt_is_Some_2 (slots p) (rid_slot rid)) as [d Hs]; [unfold rid_slot; lia|].
  split.
  - unfold live, slot_live. rewrite Htab, Hd, Hp. unfold page_live. unfold rid_slot in *.
    by rewrite Hb, Hs.
  - exists f. split; [done|]. unfold rid_slot. lia.
Qed.

(** Steps that change the live records at most at one slot. *)
Definition keeps {A} (tab : string) (pno : Z) (k : nat) (m : M DbState A) : Prop :=
  forall s, (db_wf s -> db_wf (res_state (m s))) /\ same_shape s (res_state (m s)) /\
    write_set (txn (res_state (m s))) = write_set (txn s) /\
    local_change tab pno k s (res_state (m s)).

Lemma keeps_fhs tab pno k s s' :
  fhs s' = fhs s -> write_set (txn s') = write_set (txn s) ->
  (db_wf s -> db_wf s') /\ same_shape s s' /\ write_set (txn s') = write_set (txn s) /\
  local_change tab pno k s s'.
Proof.
  intros H1 H2. split_and!.
  - by apply db_wf_fhs.
  - by apply same_shape_fhs.
  - done.
  - intros t x y _. by apply live_fhs.
Qed.

Lemma keeps_inert {A} tab pno k (m : M DbState A) : inert m -> keeps tab pno k m.
Proof.
  intros Hm s. destruct (Hm s) as [H1 H2]. by apply keeps_fhs.
Qed.

Lemma keeps_bind {A B} tab pno k (m : M DbState A) (f : A -> M DbState B) :
  keeps tab pno k m -> (forall a, keeps tab pno k (f a)) -> keeps tab pno k (bind m f).
Proof.
  intros Hm Hf s. unfold bind. destruct (Hm s) as (Hw1 & Hs1 & Hws1 & Hl1).
  destruct (m s) as [a s1|e s1]; simpl in *; [|done].
  destruct (Hf a s1) as (Hw2 & Hs2 & Hws2 & Hl2). split_and!.
  - tauto.
  - by eapply same_shape_trans.
  - congruence.
  - intros t x y Hne. rewrite Hl2, Hl1; done.
Qed.

Lemma keeps_delete_record tab rid ctx :
  keeps tab (page_no rid) (rid_slot rid) (delete_record tab rid ctx).
Proof.
  intros s. pose proof (delete_record_spec tab rid ctx s) as Hs.
  pose proof (quiet_delete_record tab rid ctx s) as [_ Hq].
  destruct (delete_record tab rid ctx s) as [u s'|e s']; simpl in *.
  - destruct Hs as (p & a & b & _ & Hop). split_and!.
    + apply (page_op_wf _ _ _ _ _ _ Hop); simpl; unfold Bitmap.reset; by rewrite ?length_insert.
    + by apply (page_op_shape _ _ _ _ _ _ Hop).
    + done.
    + apply (page_op_local _ _ _ _ _ _ _ Hop). intros y Hy. simpl. unfold Bitmap.reset.
      rewrite list_lookup_insert_ne by (unfold rid_slot in Hy; congruence). done.
  - by apply keeps_fhs.
Qed.

Lemma keeps_update_record tab rid buf ctx :
  keeps tab (page_no rid) (rid_slot rid) (update_record tab rid buf ctx).
Proof.
  intros s. pose proof (update_record_spec tab rid buf ctx s) as Hs.
  pose proof (quiet_update_record tab rid buf ctx s) as [_ Hq].
  destruct (update_record tab rid buf ctx s) as [u s'|e s']; simpl in *.
  - destruct Hs as (p & a & b & _ & Hop). split_and!.
    + apply (page_op_wf _ _ _ _ _ _ Hop); simpl; by rewrite ?length_insert.
    + by apply (page_op_shape _ _ _ _ _ _ Hop).
    + done.
    + apply (page_op_local _ _ _ _ _ _ _ Hop). intros y Hy. simpl.
      rewrite list_lookup_insert_ne by congruence. done.
  - by apply keeps_fhs.
Qed.

Lemma pres_keeps L0 ws wr (m : M DbState unit) s :
  c1_inv L0 s -> write_set (txn s) = ws ++ [wr] ->
  keeps (wtab_name wr) (page_no (wrid wr)) (rid_slot (wrid wr)) m ->
  c1_inv L0 (res_state (m s)).
Proof.
  intros Hi Hws Hk. destruct (Hk s) as (Hw & Hs & Hq & Hl).
  eapply inv_local; eauto. apply Hw, Hi.
Qed.

Lemma inv_get_record L0 tab rid ctx s :
  c1_inv L0 s ->
  match get_record tab rid ctx s with
  | Ok d s1 => c1_inv L0 s1 /\ live s1 tab (page_no rid) (rid_slot rid) = Some d /\
      exists f, fhs s1 !! tab = Some f /\ (rid_slot rid < Z.to_nat (nrpp f))%nat
  | Err _ s1 => c1_inv L0 s1
  end.
Proof.
  intros Hi. pose proof (get_record_spec tab rid ctx s) as Hg.
  pose proof (quiet_get_record tab rid ctx s) as [_ Hq].
  destruct (get_record tab rid ctx s) as [d s1|e s1] eqn:H; simpl in Hq.
  - destruct (get_record_live tab rid ctx s d s1) as (Hf & Hl & Hk); [apply Hi|done|].
    split_and!; [by eapply inv_fhs| |].
    + rewrite <- Hl. by apply live_fhs.
    + by rewrite Hf.
  - by eapply inv_fhs.
Qed.

(** Appending the undo entry of a delete or an update of a record that is
    live with the saved bytes. *)
Lemma inv_append_saved L0 s wt tab rid d :
  c1_inv L0 s -> wt <> INSERT_TUPLE ->
  live s tab (page_no rid) (rid_slot rid) = Some d ->
  (exists f, fhs s !! tab = Some f /\ (rid_slot rid < Z.to_nat (nrpp f))%nat) ->
  c1_inv L0 (res_state (append_write_record true (mkWriteRecord wt tab rid d) s)).
Proof.
  intros Hi Ht Hl Hk. simpl. eapply inv_append; [exact Hi|done|..].
  - apply (db_wf_fhs s); [done|apply Hi].
  - by apply same_shape_fhs.
  - intros _. exact Hk.
  - intros t x y _. by apply live_fhs.
  - simpl. rewrite Hl. unfold saved. simpl. by destruct wt.
Qed.

Lemma pres_delete_one L0 tab_name tab rid : pres L0 (delete_one true tab_name tab rid).
Proof.
  intros s Hi. unfold delete_one.
  pose proof (inv_get_record L0 tab_name rid true s Hi) as Hg.
  unfold bind at 1. destruct (get_record tab_name rid true s) as [d s1|e s1]; [|exact Hg].
  destruct Hg as (Hi1 & Hl & Hk).
  pose proof (inv_append_saved L0 s1 DELETE_TUPLE tab_name rid d Hi1 ltac:(done) Hl Hk) as Hi2.
  unfold bind at 1. cbn [append_write_record modify res_state] in *.
  eapply (pres_keeps L0 _ (mkWriteRecord DELETE_TUPLE tab_name rid d)); [exact Hi2|done|].
  simpl. apply keeps_bind; [apply keeps_inert, inert_for_each; intros; apply inert_log|intros _].
  apply keeps_bind; [apply keeps_delete_record|intros _]. apply keeps_inert, inert_log.
Qed.


Lemma pres_update_one L0 tab_name tab scs rid : pres L0 (update_one true tab_name tab scs rid).
Proof.
  intros s Hi. unfold update_one.
  pose proof (inv_get_record L0 tab_name rid true s Hi) as Hg.
  unfold bind at 1. destruct (get_record tab_name rid true s) as [d s1|e s1]; [|exact Hg].
  destruct Hg as (Hi1 & Hl & Hk).
  pose proof (inv_append_saved L0 s1 UPDATE_TUPLE tab_name rid d Hi1 ltac:(done) Hl Hk) as Hi2.
  unfold bind at 1. cbn [append_write_record modify res_state] in *.
  eapply (pres_keeps L0 _ (mkWriteRecord UPDATE_TUPLE tab_name rid d)); [exact Hi2|done|].
  simpl. apply keeps_bind; [apply keeps_inert, inert_apply_set_clauses|intros new].
  apply keeps_bind.
  { apply keeps_inert, inert_for_each. intros i ix.
    destruct (index_affected ix scs); [apply inert_bind; intros; apply inert_log|apply inert_ret]. }
  intros _. apply keeps_bind; [apply keeps_update_record|intros _]. apply keeps_inert, inert_log.
Qed.

Lemma pres_insert_record L0 tab_name tab rec :
  pres L0 (rid <- insert_record tab_name rec ;;
           heap_written rid ;;;
           append_write_record true (mkWriteRecord INSERT_TUPLE tab_name rid []) ;;;
           for_each (fun i _ => index_call rid i) 0 (tab_indexes tab) ;;;
           ret rid).
Proof.
  intros s Hi. pose proof (insert_record_spec tab_name rec s) as Hs.
  unfold bind at 1. destruct (insert_record tab_name rec s) as [rid s1|e s1]; [|by subst].
  destruct Hs as (Hws & Hnone & Hsh & Hwf & Hloc).
  set (wr := mkWriteRecord INSERT_TUPLE tab_name rid []).
  set (s3 := log_event (EvUndoAppend rid)
               (set_txn (set_write_set (write_set (txn (log_event (EvHeapWrite rid) s1)) ++ [wr])
                  (txn (log_event (EvHeapWrite rid) s1))) (log_event (EvHeapWrite rid) s1))).
  assert (Hi3 : c1_inv L0 s3).
  { eapply inv_append; [exact Hi|..].
    - simpl. by rewrite Hws.
    - apply (db_wf_fhs s1); [done|apply Hwf, Hi].
    - intros t. apply (Hsh t).
    - intros H. discriminate H.
    - intros t x y Hne. rewrite <- (Hloc t x y Hne). by apply live_fhs.
    - exact Hnone. }
  change (c1_inv L0 (res_state ((for_each (fun i _ => index_call rid i) 0 (tab_indexes tab) ;;;
                                 ret rid) s3))).
  apply pres_inert; [|exact Hi3].
  apply inert_bind; [apply inert_for_each; intros; apply inert_log|intros; apply inert_ret].
Qed.

Lemma pres_run_dml L0 op : pres L0 (run_dml op).
Proof.
  destruct op as [tn tab vs|tn tab rids|tn tab scs rids]; simpl.
  - apply pres_bind; [|intros; apply pres_inert, inert_ret].
    unfold insert_values.
    apply pres_bind; [apply pres_inert, inert_fh_of|intros f].
    apply pres_bind; [apply pres_inert, inert_with_lock_IX|intros _].
    apply pres_bind; [apply pres_inert, inert_build_record|intros rec].
    apply pres_insert_record.
  - unfold delete_rids.
    apply pres_bind; [apply pres_inert, inert_fh_of|intros f].
    apply pres_bind; [apply pres_inert, inert_with_lock_IX|intros _].
    apply pres_for_each. intros. apply pres_delete_one.
  - unfold update_rids.
    apply pres_bind; [apply pres_inert, inert_fh_of|intros f].
    apply pres_bind; [apply pres_inert, inert_with_lock_IX|intros _].
    apply pres_for_each. intros. apply pres_update_one.
Qed.

Lemma inv_run_dmls L0 ops : forall s, c1_inv L0 s -> c1_inv L0 (run_dmls ops s).
Proof.
  induction ops as [|op ops IH]; intros s Hi; simpl; [done|].
  apply IH, pres_run_dml, Hi.
Qed.

Definition events_kept {A} (m : M DbState A) : Prop :=
  forall s, events (res_state (m s)) = events s.

Lemma events_kept_bind {A B} (m : M DbState A) (k : A -> M DbState B) :
  events_kept m -> (forall a, events_kept (k a)) -> events_kept (bind m k).
Proof.
  intros Hm Hk s. unfold bind. specialize (Hm s).
  destruct (m s); simpl in *; [by rewrite Hk|done].
Qed.

Lemma events_kept_quiet {A} (m : M DbState A) : quiet m -> events_kept m.
Proof. intros Hm s. apply Hm. Qed.

Lemma events_kept_rollback ws : events_kept (rollback ws).
Proof.
  induction ws as [|wr ws IH]; simpl; [done|].
  apply events_kept_bind; [done|intros _].
  apply events_kept_bind; [|intros _; exact IH].
  apply events_kept_quiet. unfold undo_write. apply quiet_bind; [apply quiet_fh_of|intros _].
  destruct (wtype wr); [apply quiet_delete_record|apply quiet_insert_record_at|apply quiet_update_record].
Qed.

Lemma events_kept_unlock_all ids : events_kept (unlock_all ids).
Proof.
  induction ids as [|id ids IH]; simpl; [done|].
  apply events_kept_bind; [apply events_kept_quiet, quiet_unlock|intros _; exact IH].
Qed.

Lemma fhs_kept_bind {A B} (m : M DbState A) (k : A -> M DbState B) :
  fhs_kept m -> (forall a, fhs_kept (k a)) -> fhs_kept (bind m k).
Proof.
  intros Hm Hk s. unfold bind. specialize (Hm s).
  destruct (m s); simpl in *; [by rewrite Hk|done].
Qed.

Lemma fhs_kept_unlock_all ids : fhs_kept (unlock_all ids).
Proof.
  induction ids as [|id ids IH]; simpl; [done|].
  apply fhs_kept_bind; [|intros _; exact IH].
  intros s. unfold unlock. destruct (lock_table s !! id); [|done].
  by destruct (erase_first _ _).
Qed.

Lemma inv_begin s0 tid : db_wf s0 -> c1_inv (live s0) (res_state (begin tid s0)).
Proof. intros Hwf. split_and!; [exact Hwf|constructor|done]. Qed.

Lemma abort_sound L0 s s' :
  c1_inv L0 s -> abort s = Ok tt s' ->
  (forall t x y, live s' t x y = L0 t x y) /\ events s' = events s.
Proof.
  intros (Hwf & Hd & Hu) H. unfold abort, get in H.
  pose proof (events_kept_rollback (rev (write_set (txn s))) s) as He1.
  unfold bind at 1 in H. simpl in H. unfold bind at 1 in H.
  destruct (rollback (rev (write_set (txn s))) s) as [u s2|e s2] eqn:Hr; [|discriminate].
  simpl in He1.
  destruct (rollback_sound _ _ _ _ Hwf Hd Hr) as (_ & _ & Hl).
  unfold bind at 1 in H. simpl in H. unfold bind at 1 in H.
  pose proof (fhs_kept_unlock_all (elements (lock_set (txn s2))) s2) as Hf3.
  pose proof (events_kept_unlock_all (elements (lock_set (txn s2))) s2) as He3.
  destruct (unlock_all _ s2) as [u3 s3|e s3]; [|discriminate].
  unfold modify in H. inversion H; subst s'. simpl in Hf3, He3. split.
  - intros t x y. rewrite <- Hu, <- Hl. by apply live_fhs.
  - simpl. congruence.
Qed.


(* ------------------------------------------------------------------ *)
(** ** B+tree index (index/ix_index_handle.cpp) *)

Module Ix.

Definition IX_NO_PAGE : Z := -1.
Definition IX_LEAF_HEADER_PAGE : Z := 1.

(** Modelled from the spec: [ix_compare] (ix_defs.h is not in the
    sources), on keys made of one INT column: -1, 0 or 1 as [a] is below,
    equal to or above [b]. *)
Definition ix_compare (a b : Z) : Z :=
  match Z.compare a b with Lt => -1 | Eq => 0 | Gt => 1 end.

(** A node page: its header ([is_leaf], [parent], [prev_leaf],
    [next_leaf]; [num_key] is the length of [keys]) and its parallel key
    and rid arrays. *)
Record IxNode := mkNode {
  is_leaf : bool;
  parent : Z;
  keys : list Z;
  rids : list Rid;
  prev_leaf : Z;
  next_leaf : Z }.

(** Modelled from the spec: the index file header ([BTreeFileHdr]), with
    the node capacity that [get_max_size] returns (ix_index_handle.h is not
    in the sources). *)
Record IxFileHdr := mkIxHdr {
  root_page_ : Z;
  first_leaf_ : Z;
  last_leaf_ : Z;
  num_pages_ : Z;
  max_size : Z }.

Record IxState := mkIx {
  file_hdr : IxFileHdr;
  nodes : gmap Z IxNode }.

Definition get_size (n : IxNode) : Z := Z.of_nat (length (keys n)).
Definition get_key (n : IxNode) (i : Z) : Z := default 0 (keys n !! Z.to_nat i).
Definition get_rid (n : IxNode) (i : Z) : Rid :=
  default {| page_no := IX_NO_PAGE; slot_no := IX_NO_PAGE |} (rids n !! Z.to_nat i).

Definition set_keys_rids (n : IxNode) (ks : list Z) (rs : list Rid) : IxNode :=
  mkNode (is_leaf n) (parent n) ks rs (prev_leaf n) (next_leaf n).
Definition set_parent (p : Z) (n : IxNode) : IxNode :=
  mkNode (is_leaf n) p (keys n) (rids n) (prev_leaf n) (next_leaf n).
Definition set_prev_leaf (p : Z) (n : IxNode) : IxNode :=
  mkNode (is_leaf n) (parent n) (keys n) (rids n) p (next_leaf n).
Definition set_next_leaf (p : Z) (n : IxNode) : IxNode :=
  mkNode (is_leaf n) (parent n) (keys n) (rids n) (prev_leaf n) p.

(** [IxNodeHandle::lower_bound]: the binary search over [[left, right)];
    each round shrinks the interval, so [num_key + 1] rounds suffice. *)
Fixpoint lower_bound_go (fuel : nat) (n : IxNode) (target left right : Z) : Z :=
  match fuel with
  | O => left
  | S fuel' =>
      if left <? right then
        let mid := left + (right - left) / 2 in
        if ix_compare (get_key n mid) target <? 0
        then lower_bound_go fuel' n target (mid + 1) right
        else lower_bound_go fuel' n target left mid
      else left
  end.

Definition lower_bound (n : IxNode) (target : Z) : Z :=
  lower_bound_go (S (length (keys n))) n target 0 (get_size n).

(** [IxNodeHandle::upper_bound]: the search starts at 1. *)
Fixpoint upper_bound_go (fuel : nat) (n : IxNode) (target left right : Z) : Z :=
  match fuel with
  | O => left
  | S fuel' =>
      if left <? right then
        let mid := left + (right - left) / 2 in
        if ix_compare (get_key n mid) target <=? 0
        then upper_bound_go fuel' n target (mid + 1) right
        else upper_bound_go fuel' n target left mid
      else left
  end.

Definition upper_bound (n : IxNode) (target : Z) : Z :=
  upper_bound_go (S (length (keys n))) n target 1 (get_size n).

(** [IxNodeHandle::leaf_lookup]: the rid stored with [key], if any. *)
Definition leaf_lookup (n : IxNode) (key : Z) : option Rid :=
  let pos := lower_bound n key in
  if pos <? get_size n then
    if ix_compare (get_key n pos) key =? 0 then Some (get_rid n pos) else None
  else None.

Definition internal_lookup (n : IxNode) (key : Z) : Z :=
  page_no (get_rid n (upper_bound n key - 1)).

(** [IxNodeHandle::insert_pairs]: the pairs [(ks, rs)] inserted at [pos]. *)
Definition insert_pairs (n : IxNode) (pos : Z) (ks : list Z) (rs : list Rid) : IxNode :=
  set_keys_rids n
    (take (Z.to_nat pos) (keys n) ++ ks ++ drop (Z.to_nat pos) (keys n))
    (take (Z.to_nat pos) (rids n) ++ rs ++ drop (Z.to_nat pos) (rids n)).

(** [IxNodeHandle::insert]: the node after the insert and its new size; a
    key already at the [lower_bound] position is not inserted. *)
Definition node_insert (n : IxNode) (key : Z) (value : Rid) : IxNode * Z :=
  let pos := lower_bound n key in
  if (pos <? get_size n) && (ix_compare (get_key n pos) key =? 0)
  then (n, get_size n)
  else let n' := insert_pairs n pos [key] [value] in (n', get_size n').

Definition erase_pair (n : IxNode) (pos : Z) : IxNode :=
  set_keys_rids n
    (take (Z.to_nat pos) (keys n) ++ drop (S (Z.to_nat pos)) (keys n))
    (take (Z.to_nat pos) (rids n) ++ drop (S (Z.to_nat pos)) (rids n)).

(** [IxNodeHandle::remove]. *)
Definition node_remove (n : IxNode) (key : Z) : IxNode * Z :=
  let pos := lower_bound n key in
  if (pos <? get_size n) && (ix_compare (get_key n pos) key =? 0)
  then let n' := erase_pair n pos in (n', get_size n')
  else (n, get_size n).

(** Modelled from the spec: [IxNodeHandle::find_child] (ix_index_handle.h
    is not in the sources), the position of the child [child] among the
    values of [n]; a child that is not there fails its assertion. *)
Definition find_child (n : IxNode) (child : Z) : M IxState Z :=
  match list_find (fun r => page_no r = child) (rids n) with
  | Some (i, _) => ret (Z.of_nat i)
  | None => throw INTERNAL
  end.

(** The buffer pool: a node page is read and written in place. *)
Definition fetch_node (pno : Z) : M IxState IxNode :=
  fun s => match nodes s !! pno with Some n => Ok n s | None => Err INTERNAL s end.

Definition write_node (pno : Z) (n : IxNode) : M IxState unit :=
  modify (fun s => mkIx (file_hdr s) (<[pno := n]> (nodes s))).

Definition update_node (pno : Z) (f : IxNode -> IxNode) : M IxState unit :=
  n <- fetch_node pno ;; write_node pno (f n).

Definition get_hdr : M IxState IxFileHdr := fun s => Ok (file_hdr s) s.

Definition set_hdr (h : IxFileHdr) : M IxState unit :=
  modify (fun s => mkIx h (nodes s)).

(** [IxIndexHandle::create_node]. Modelled from the spec: the buffer pool
    gives the new page the number [num_pages] had before the increment,
    zero-filled. *)
Definition create_node : M IxState Z :=
  h <- get_hdr ;;
  let pno := num_pages_ h in
  set_hdr (mkIxHdr (root_page_ h) (first_leaf_ h) (last_leaf_ h) (num_pages_ h + 1) (max_size h)) ;;;
  write_node pno (mkNode false 0 [] [] 0 0) ;;;
  ret pno.

(** [IxIndexHandle::find_leaf_page]: the descent from the root through
    [internal_lookup]; a descent longer than the number of nodes revisits a
    node and never ends. *)
Fixpoint find_leaf_go (key : Z) (fuel : nat) (pno : Z) : M IxState Z :=
  n <- fetch_node pno ;;
  if is_leaf n then ret pno
  else match fuel with
       | O => throw INTERNAL
       | S fuel' => find_leaf_go key fuel' (internal_lookup n key)
       end.

Definition find_leaf_page (key : Z) : M IxState Z :=
  s <- get ;; find_leaf_go key (map_size (nodes s)) (root_page_ (file_hdr s)).

(** [IxIndexHandle::get_value]: the rid stored with [key], if found. *)
Definition get_value (key : Z) : M IxState (option Rid) :=
  pno <- find_leaf_page key ;;
  n <- fetch_node pno ;;
  ret (leaf_lookup n key).

(** [IxIndexHandle::maintain_parent]. *)
Fixpoint maintain_parent_go (fuel : nat) (curr : Z) : M IxState unit :=
  c <- fetch_node curr ;;
  if parent c =? IX_NO_PAGE then ret tt
  else match fuel with
       | O => throw INTERNAL
       | S fuel' =>
           p <- fetch_node (parent c) ;;
           rank <- find_child p curr ;;
           if get_key p rank =? get_key c 0 then ret tt
           else write_node (parent c)
                  (set_keys_rids p (<[Z.to_nat rank := get_key c 0]> (keys p)) (rids p)) ;;;
                maintain_parent_go fuel' (parent c)
       end.

Definition maintain_parent (pno : Z) : M IxState unit :=
  s <- get ;; maintain_parent_go (map_size (nodes s)) pno.

(** [IxIndexHandle::maintain_child]. *)
Definition maintain_child (pno : Z) (child_idx : Z) : M IxState unit :=
  n <- fetch_node pno ;;
  if is_leaf n then ret tt
  else update_node (page_no (get_rid n child_idx)) (set_parent pno).

Fixpoint for_range (body : Z -> M IxState unit) (i : Z) (k : nat) : M IxState unit :=
  match k with
  | O => ret tt
  | S k' => body i ;;; for_range body (i + 1) k'
  end.

(** [IxIndexHandle::split]: the keys from [get_size / 2] on move into a new
    right node; a new leaf is linked after [pno] in the leaf chain. *)
Definition split (pno : Z) : M IxState Z :=
  new_pno <- create_node ;;
  node <- fetch_node pno ;;
  nn <- fetch_node new_pno ;;
  let split_pos := get_size node / 2 in
  let nn1 := insert_pairs
               (mkNode (is_leaf node) (parent node) [] [] (prev_leaf nn) (next_leaf nn)) 0
               (drop (Z.to_nat split_pos) (keys node)) (drop (Z.to_nat split_pos) (rids node)) in
  let node1 := set_keys_rids node (take (Z.to_nat split_pos) (keys node))
                 (take (Z.to_nat split_pos) (rids node)) in
  write_node new_pno nn1 ;;;
  write_node pno node1 ;;;
  (if is_leaf nn1 then
     let next_leaf_no := next_leaf node1 in
     update_node new_pno (set_prev_leaf pno) ;;;
     update_node new_pno (set_next_leaf next_leaf_no) ;;;
     update_node pno (set_next_leaf new_pno) ;;;
     update_node next_leaf_no (set_prev_leaf new_pno) ;;;
     h <- get_hdr ;;
     (if last_leaf_ h =? pno
      then set_hdr (mkIxHdr (root_page_ h) (first_leaf_ h) new_pno (num_pages_ h) (max_size h))
      else ret tt)
   else
     for_range (maintain_child new_pno) 0 (length (keys nn1))) ;;;
  ret new_pno.

(** [IxIndexHandle::insert_into_parent]; the recursion climbs one level
    per call, so the number of nodes bounds it. *)
Fixpoint insert_into_parent (fuel : nat) (old_pno key new_pno : Z) : M IxState unit :=
  old <- fetch_node old_pno ;;
  if parent old =? IX_NO_PAGE then
    root_pno <- create_node ;;
    r <- fetch_node root_pno ;;
    let r1 := mkNode false IX_NO_PAGE [] [] (prev_leaf r) (next_leaf r) in
    let r2 := insert_pairs r1 0 [get_key old 0] [{| page_no := old_pno; slot_no := 0 |}] in
    let r3 := insert_pairs r2 1 [key] [{| page_no := new_pno; slot_no := 0 |}] in
    write_node root_pno r3 ;;;
    update_node old_pno (set_parent root_pno) ;;;
    update_node new_pno (set_parent root_pno) ;;;
    h <- get_hdr ;;
    set_hdr (mkIxHdr root_pno (first_leaf_ h) (last_leaf_ h) (num_pages_ h) (max_size h))
  else
    match fuel with
    | O => throw INTERNAL
    | S fuel' =>
        let ppno := parent old in
        p <- fetch_node ppno ;;
        old_idx <- find_child p old_pno ;;
        write_node ppno (insert_pairs p (old_idx + 1) [key] [{| page_no := new_pno; slot_no := 0 |}]) ;;;
        update_node new_pno (set_parent ppno) ;;;
        p2 <- fetch_node ppno ;;
        h <- get_hdr ;;
        if get_size p2 =? max_size h then
          new_parent <- split ppno ;;
          np <- fetch_node new_parent ;;
          insert_into_parent fuel' ppno (get_key np 0) new_parent
        else ret tt
    end.

(** [IxIndexHandle::insert_entry]: returns the page of the leaf the key
    went to, also when the key was already there. *)
Definition insert_entry (key : Z) (value : Rid) : M IxState Z :=
  leaf_pno <- find_leaf_page key ;;
  leaf <- fetch_node leaf_pno ;;
  let old_size := get_size leaf in
  let '(leaf', new_size) := node_insert leaf key value in
  if new_size =? old_size then ret leaf_pno
  else
    write_node leaf_pno leaf' ;;;
    maintain_parent leaf_pno ;;;
    l <- fetch_node leaf_pno ;;
    h <- get_hdr ;;
    (if get_size l =? max_size h then
       new_leaf <- split leaf_pno ;;
       nl <- fetch_node new_leaf ;;
       s <- get ;;
       insert_into_parent (map_size (nodes s)) leaf_pno (get_key nl 0) new_leaf
     else ret tt) ;;;
    ret leaf_pno.

Section Delete.

(** The rebalancing after a removal ([coalesce_or_redistribute]) is left
    abstract: the properties below hold for any of its implementations. *)
Variable coalesce_or_redistribute : Z -> M IxState bool.

(** [IxIndexHandle::delete_entry]: false when the key is not in its leaf. *)
Definition delete_entry (key : Z) : M IxState bool :=
  leaf_pno <- find_leaf_page key ;;
  leaf <- fetch_node leaf_pno ;;
  let old_size := get_size leaf in
  let '(leaf', new_size) := node_remove leaf key in
  if new_size =? old_size then ret false
  else
    write_node leaf_pno leaf' ;;;
    (if 0 <? new_size then maintain_parent leaf_pno else ret tt) ;;;
    coalesce_or_redistribute leaf_pno ;;;
    ret true.

End Delete.

(** ** Example: a new index of capacity 4 *)

(** A newly created index: the leaf-list sentinel on page 1 and an empty
    root leaf on page 2, linked to each other. *)
Definition ix_empty (max : Z) : IxState :=
  mkIx (mkIxHdr 2 2 2 3 max)
    (<[IX_LEAF_HEADER_PAGE := mkNode true IX_NO_PAGE [] [] 2 2]>
       {[ 2 := mkNode true IX_NO_PAGE [] [] IX_LEAF_HEADER_PAGE IX_LEAF_HEADER_PAGE ]}).

Fixpoint insert_keys (ks : list Z) : M IxState unit :=
  match ks with
  | [] => ret tt
  | k :: ks' => insert_entry k {| page_no := 1; slot_no := k |} ;;; insert_keys ks'
  end.

(** Facts about the index operations. *)

(** Steps that only rewrite [parent] fields of existing nodes. *)
Definition parents_only (s s' : IxState) : Prop :=
  file_hdr s' = file_hdr s /\
  forall p n, nodes s !! p = Some n -> exists q, nodes s' !! p = Some (set_parent q n).

Lemma set_parent_twice q q' n : set_parent q (set_parent q' n) = set_parent q n.
Proof. done. Qed.

Lemma parents_only_refl s : parents_only s s.
Proof. split; [done|]. intros p n Hn. exists (parent n). rewrite Hn. by destruct n. Qed.

Lemma parents_only_trans s1 s2 s3 : parents_only s1 s2 -> parents_only s2 s3 -> parents_only s1 s3.
Proof.
  intros [H1 L1] [H2 L2]. split; [congruence|]. intros p n Hn.
  destruct (L1 p n Hn) as [q Hq]. destruct (L2 p _ Hq) as [q' Hq']. exists q'. done.
Qed.

Lemma maintain_child_parents pno i s u s' :
  maintain_child pno i s = Ok u s' -> parents_only s s'.
Proof.
  unfold maintain_child, update_node, fetch_node, write_node, bind, modify, ret.
  destruct (nodes s !! pno) as [n|] eqn:Hn; [|discriminate].
  destruct (is_leaf n); [intros [= _ <-]; apply parents_only_refl|].
  destruct (nodes s !! page_no (get_rid n i)) as [c|] eqn:Hc; [|discriminate].
  intros [= _ <-]. split; [done|]. simpl. intros p m Hm.
  destruct (decide (p = page_no (get_rid n i))) as [->|Hne].
  - rewrite lookup_insert_eq. rewrite Hc in Hm. injection Hm as <-. by exists pno.
  - rewrite lookup_insert_ne by congruence. rewrite Hm. exists (parent m). by destruct m.
Qed.

Lemma for_range_parents pno k : forall i s u s',
  for_range (maintain_child pno) i k s = Ok u s' -> parents_only s s'.
Proof.
  induction k as [|k IH]; intros i s u s' H; simpl in H.
  - injection H as _ <-. apply parents_only_refl.
  - unfold bind in H. destruct (maintain_child pno i s) as [u1 s1|] eqn:Hm; [|discriminate].
    eapply parents_only_trans; [eapply maintain_child_parents, Hm|]. eapply IH, H.
Qed.

Lemma fetch_node_ok p s n s' : fetch_node p s = Ok n s' -> s' = s /\ nodes s !! p = Some n.
Proof. unfold fetch_node. destruct (nodes s !! p); by intros [= -> ->]. Qed.

Lemma write_node_ok p n s u s' : write_node p n s = Ok u s' -> s' = mkIx (file_hdr s) (<[p := n]> (nodes s)).
Proof. by intros [= _ <-]. Qed.

Lemma update_node_ok p f s u s' : update_node p f s = Ok u s' ->
  exists n, nodes s !! p = Some n /\ s' = mkIx (file_hdr s) (<[p := f n]> (nodes s)).
Proof.
  unfold update_node. intros H. apply bind_ok in H as (n & s1 & H1 & H2).
  apply fetch_node_ok in H1 as [-> H1]. apply write_node_ok in H2. eauto.
Qed.

Lemma get_hdr_ok s h s' : get_hdr s = Ok h s' -> s' = s /\ h = file_hdr s.
Proof. by intros [= -> ->]. Qed.

Lemma set_hdr_ok h s u s' : set_hdr h s = Ok u s' -> s' = mkIx h (nodes s).
Proof. by intros [= _ <-]. Qed.

Lemma ret_ok {A} (a : A) s b s' : ret (St:=IxState) a s = Ok b s' -> b = a /\ s' = s.
Proof. by intros [= -> ->]. Qed.

Definition zero_node : IxNode := mkNode false 0 [] [] 0 0.

Lemma create_node_ok s p s' : create_node s = Ok p s' ->
  p = num_pages_ (file_hdr s) /\
  s' = mkIx (mkIxHdr (root_page_ (file_hdr s)) (first_leaf_ (file_hdr s)) (last_leaf_ (file_hdr s))
              (num_pages_ (file_hdr s) + 1) (max_size (file_hdr s)))
            (<[num_pages_ (file_hdr s) := zero_node]> (nodes s)).
Proof. by intros [= <- <-]. Qed.

Ltac ix_step H :=
  let a := fresh "a" in let s1 := fresh "s" in let H1 := fresh "H" in
  apply bind_ok in H as (a & s1 & H1 & H);
  first
    [ apply fetch_node_ok in H1 as [-> H1]
    | apply write_node_ok in H1; subst s1
    | apply update_node_ok in H1 as (? & ? & ->)
    | apply get_hdr_ok in H1 as [-> ->]
    | apply set_hdr_ok in H1; subst s1
    | apply create_node_ok in H1 as [-> ->]
    | idtac ].

Lemma split_spec pno s node new_pno s' :
  nodes s !! pno = Some node ->
  nodes s !! num_pages_ (file_hdr s) = None ->
  (is_leaf node = true -> next_leaf node <> pno /\ next_leaf node <> num_pages_ (file_hdr s)) ->
  split pno s = Ok new_pno s' ->
  let sp := Z.to_nat (get_size node / 2) in
  new_pno = num_pages_ (file_hdr s) /\
  exists n1 n2, nodes s' !! pno = Some n1 /\ nodes s' !! new_pno = Some n2 /\
    keys n1 = take sp (keys node) /\ rids n1 = take sp (rids node) /\
    keys n2 = drop sp (keys node) /\ rids n2 = drop sp (rids node) /\
    is_leaf n2 = is_leaf node /\
    (is_leaf node = true ->
       prev_leaf n2 = pno /\ next_leaf n2 = next_leaf node /\ next_leaf n1 = new_pno /\
       (exists n3, nodes s' !! next_leaf node = Some n3 /\ prev_leaf n3 = new_pno) /\
       last_leaf_ (file_hdr s') =
         (if last_leaf_ (file_hdr s) =? pno then new_pno else last_leaf_ (file_hdr s))).
Proof.
  intros Hn Hfresh Hnext H sp.
  assert (HP : pno <> num_pages_ (file_hdr s)) by (intros ->; congruence).
  unfold split in H.
  ix_step H. ix_step H. ix_step H. ix_step H. ix_step H.
  simpl in H0, H1. rewrite lookup_insert_ne in H0 by congruence. rewrite Hn in H0. injection H0 as <-.
  rewrite lookup_insert_eq in H1. injection H1 as <-.
  set (P := num_pages_ (file_hdr s)) in *.
  apply bind_ok in H as (u & s2 & H & Hr). apply ret_ok in Hr as [-> ->].
  split; [done|].
  destruct (is_leaf node) eqn:Hl.
  - destruct (Hnext eq_refl) as [Hn1 Hn2].
    ix_step H. ix_step H. ix_step H. ix_step H. ix_step H.
    simpl in *. simplify_map_eq.
    destruct (last_leaf_ (file_hdr s) =? pno) eqn:Hlast;
      [apply set_hdr_ok in H | apply ret_ok in H as [_ H]]; subst s2; simpl;
    (eexists _, _; split; [simplify_map_eq; reflexivity|];
     split; [simplify_map_eq; reflexivity|]);
    simpl; rewrite ?app_nil_r; split_and!; try done;
    intros _; split_and!; try done; (eexists; split; [simplify_map_eq; reflexivity|done]).
  - simpl in H. apply for_range_parents in H as [_ Hpar].
    simpl in Hpar.
    destruct (Hpar pno _ ltac:(simplify_map_eq; reflexivity)) as [q1 Hq1].
    destruct (Hpar P _ ltac:(simplify_map_eq; reflexivity)) as [q2 Hq2].
    eexists _, _. split; [exact Hq1|]. split; [exact Hq2|].
    simpl. rewrite ?app_nil_r. split_and!; done.
Qed.

Lemma find_leaf_go_pure key fuel : forall pno s a s',
  find_leaf_go key fuel pno s = Ok a s' -> s' = s.
Proof.
  induction fuel as [|fuel IH]; intros pno s a s' H; simpl in H;
    apply bind_ok in H as (n & s1 & H1 & H); apply fetch_node_ok in H1 as [-> _];
    destruct (is_leaf n); try (by injection H as _ <-); try discriminate.
  eapply IH, H.
Qed.

Lemma find_leaf_page_pure key s a s' : find_leaf_page key s = Ok a s' -> s' = s.
Proof. unfold find_leaf_page, bind, get. apply find_leaf_go_pure. Qed.

Lemma get_value_inv key s r s' : get_value key s = Ok r s' ->
  s' = s /\ exists pno n, find_leaf_page key s = Ok pno s /\ nodes s !! pno = Some n /\
    leaf_lookup n key = r.
Proof.
  unfold get_value. intros H.
  apply bind_ok in H as (pno & s1 & H1 & H). pose proof (find_leaf_page_pure _ _ _ _ H1); subst s1.
  apply bind_ok in H as (n & s2 & H2 & H). apply fetch_node_ok in H2 as [-> H2].
  apply ret_ok in H as [-> ->]. eauto 7.
Qed.

Lemma node_insert_found n key v r : leaf_lookup n key = Some r -> node_insert n key v = (n, get_size n).
Proof.
  unfold leaf_lookup, node_insert. destruct (lower_bound n key <? get_size n); [|discriminate].
  destruct (ix_compare _ key =? 0); [done|discriminate].
Qed.

Lemma node_remove_missing n key : leaf_lookup n key = None -> node_remove n key = (n, get_size n).
Proof.
  unfold leaf_lookup, node_remove. destruct (lower_bound n key <? get_size n); [|done].
  destruct (ix_compare _ key =? 0); [discriminate|done].
Qed.

(** Example trees. *)

Definition c8_tree : IxState := res_state (insert_keys [10] (ix_empty 4)).
Definition c8_rid : Rid := {| page_no := 1; slot_no := 99 |}.

Definition leaf_view (n : IxNode) : list Z * Z * Z * Z := (keys n, parent n, prev_leaf n, next_leaf n).

Definition c4_rids (ks : list Z) : list Rid := map (fun k => {| page_no := 1; slot_no := k |}) ks.
Definition c4_node : IxNode := mkNode true IX_NO_PAGE [10; 20; 30; 40] (c4_rids [10; 20; 30; 40])
                                  IX_LEAF_HEADER_PAGE IX_LEAF_HEADER_PAGE.
Definition c4_full : IxState :=
  mkIx (mkIxHdr 2 2 2 3 4)
    (<[IX_LEAF_HEADER_PAGE := mkNode true IX_NO_PAGE [] [] 2 2]> {[ 2 := c4_node ]}).

End Ix.

(* ------------------------------------------------------------------ *)
(** ** Nested loop join (execution/executor_nestedloop_join.h) *)

Module NestedLoopJoin.

(** A child executor over a finite input, as a scan cursor: [beginTuple] goes to the
    first record, [nextTuple] to the following one, [is_end] holds past the last one and
    [Next] returns the current record. *)
Record Child (Rec : Type) := mkChild { recs : list Rec; cur : nat }.
Arguments mkChild {Rec} _ _.
Arguments recs {Rec} _.
Arguments cur {Rec} _.

Definition child_beginTuple {Rec} (c : Child Rec) : Child Rec := mkChild (recs c) 0.
Definition child_nextTuple {Rec} (c : Child Rec) : Child Rec := mkChild (recs c) (S (cur c)).
Definition child_is_end {Rec} (c : Child Rec) : bool := Nat.leb (length (recs c)) (cur c).
Definition child_Next {Rec} (c : Child Rec) : option Rec := nth_error (recs c) (cur c).

(** The executor's state: its two children and the [isend] flag. *)
Record NLJ (Rec : Type) := mkNLJ { left_ : Child Rec; right_ : Child Rec; isend : bool }.
Arguments mkNLJ {Rec} _ _ _.
Arguments left_ {Rec} _.
Arguments right_ {Rec} _.
Arguments isend {Rec} _.

(** One activation of [nextTuple] either returns ([Stop]) or ends in the self-call
    [nextTuple()] on the state reached ([Recurse]). *)
Inductive step (Rec : Type) := Stop (s : NLJ Rec) | Recurse (s : NLJ Rec).
Arguments Stop {Rec} _.
Arguments Recurse {Rec} _.

Section NestedLoopJoin.

Context {Rec Cond : Type}.
Variable check_join_condition : Rec -> Rec -> Cond -> bool.
Variable fed_conds_ : list Cond.

Definition check_join_conditions (left_rec right_rec : Rec) : bool :=
  forallb (check_join_condition left_rec right_rec) fed_conds_.

(** [check_join_conditions(left_->Next(), right_->Next())]; [Next] is only called on
    positioned children, the [None] case does not arise there. *)
Definition check_current (s : NLJ Rec) : bool :=
  match child_Next (left_ s), child_Next (right_ s) with
  | Some l, Some r => check_join_conditions l r
  | _, _ => false
  end.

(** The body of [nextTuple]. The [while (right_->is_end())] loop runs its body at most
    once: the body returns, or calls [right_->beginTuple()] and continues only when
    [right_] is then not at its end. *)
Definition next_step (s : NLJ Rec) : step Rec :=
  let r := child_nextTuple (right_ s) in
  let found :=
    if child_is_end r then
      let l := child_nextTuple (left_ s) in
      if child_is_end l then inl (mkNLJ l r true)
      else
        let r' := child_beginTuple r in
        if child_is_end r' then inl (mkNLJ l r' true)
        else inr (mkNLJ l r' (isend s))
    else inr (mkNLJ (left_ s) r (isend s)) in
  match found with
  | inl s' => Stop s'
  | inr s' => if check_current s' then Stop s' else Recurse s'
  end.

Fixpoint nextTuple_fuel (fuel : nat) (s : NLJ Rec) : option (NLJ Rec) :=
  match fuel with
  | O => None
  | S f =>
      match next_step s with
      | Stop s' => Some s'
      | Recurse s' => nextTuple_fuel f s'
      end
  end.

Definition beginTuple_fuel (fuel : nat) (s : NLJ Rec) : option (NLJ Rec) :=
  let l := child_beginTuple (left_ s) in
  if child_is_end l then Some (mkNLJ l (right_ s) true)
  else
    let r := child_beginTuple (right_ s) in
    if child_is_end r then Some (mkNLJ l r true)
    else
      let s1 := mkNLJ l r (isend s) in
      if check_current s1 then Some s1 else nextTuple_fuel fuel s1.

(** The pair at positions [i] of the left input and [j] of the right input. *)
Definition check_at (L R : list Rec) (i j : nat) : bool :=
  match nth_error L i, nth_error R j with
  | Some l, Some r => check_join_conditions l r
  | _, _ => false
  end.

Definition positioned (s : NLJ Rec) : Prop :=
  (cur (left_ s) < length (recs (left_ s)))%nat /\ (cur (right_ s) < length (recs (right_ s)))%nat.

(** Pairs after the current one, in outer-left, inner-right order. *)
Definition pairs_left (s : NLJ Rec) : nat :=
  (length (recs (left_ s)) * length (recs (right_ s))
   - S (cur (left_ s) * length (recs (right_ s)) + cur (right_ s)))%nat.

Definition lex_lt (p q : nat * nat) : Prop :=
  (p.1 < q.1)%nat \/ (p.1 = q.1 /\ p.2 < q.2)%nat.

Definition pos (s : NLJ Rec) : nat * nat := (cur (left_ s), cur (right_ s)).


Definition succ_pos (nR : nat) (p : nat * nat) : nat * nat :=
  if Nat.ltb (S p.2) nR then (p.1, S p.2) else (S p.1, 0%nat).

(** No pair strictly between [p] and [q] satisfies the join conditions. *)
Definition none_between (L R : list Rec) (p q : nat * nat) : Prop :=
  forall a b, (a < length L)%nat -> (b < length R)%nat ->
    lex_lt p (a, b) -> lex_lt (a, b) q -> check_at L R a b = false.

Lemma check_current_at s :
  check_current s = check_at (recs (left_ s)) (recs (right_ s)) (cur (left_ s)) (cur (right_ s)).
Proof. reflexivity. Qed.

Lemma next_step_spec s :
  positioned s ->
  let L := recs (left_ s) in let R := recs (right_ s) in
  match next_step s with
  | Stop s' =>
      recs (left_ s') = L /\ recs (right_ s') = R /\
      ((isend s' = true /\ succ_pos (length R) (pos s) = (length L, 0%nat)) \/
       (positioned s' /\ isend s' = isend s /\ pos s' = succ_pos (length R) (pos s) /\
        check_current s' = true))
  | Recurse s' =>
      recs (left_ s') = L /\ recs (right_ s') = R /\
      positioned s' /\ isend s' = isend s /\ pos s' = succ_pos (length R) (pos s) /\
      check_current s' = false
  end.
Proof.
  destruct s as [[L i] [R j] e]. unfold positioned, pos; simpl. intros [Hi Hj].
  unfold next_step, succ_pos, child_is_end, child_nextTuple, child_beginTuple; simpl.
  destruct (Nat.leb (length R) (S j)) eqn:Er.
  - apply Nat.leb_le in Er. assert (Hr : S j = length R) by lia.
    assert (Hlt : Nat.ltb (S j) (length R) = false) by (apply Nat.ltb_ge; lia). rewrite Hlt.
    destruct (Nat.leb (length L) (S i)) eqn:El.
    + apply Nat.leb_le in El. split_and!; try reflexivity. left. split; [reflexivity|].
      f_equal; lia.
    + apply Nat.leb_gt in El.
      destruct (Nat.leb (length R) 0) eqn:E0; [apply Nat.leb_le in E0; lia|apply Nat.leb_gt in E0].
      destruct (check_current _) eqn:Ec; unfold positioned, pos; simpl;
      split_and!; try reflexivity; try assumption; try lia;
      right; split_and!; simpl; try reflexivity; try assumption; lia.
  - apply Nat.leb_gt in Er.
    assert (Hlt : Nat.ltb (S j) (length R) = true) by (apply Nat.ltb_lt; lia). rewrite Hlt.
    destruct (check_current _) eqn:Ec; unfold positioned, pos; simpl;
      split_and!; try reflexivity; try assumption; try lia;
      right; split_and!; simpl; try reflexivity; try assumption; lia.
Qed.

Lemma lex_lt_succ nR p : (p.2 < nR)%nat -> lex_lt p (succ_pos nR p).
Proof.
  destruct p as [i j]. unfold succ_pos, lex_lt; simpl. intros Hj.
  destruct (Nat.ltb (S j) nR) eqn:E; simpl; lia.
Qed.

Lemma lex_lt_split nR p a b :
  (p.2 < nR)%nat -> (b < nR)%nat -> lex_lt p (a, b) ->
  (a, b) = succ_pos nR p \/ lex_lt (succ_pos nR p) (a, b).
Proof.
  destruct p as [i j]. unfold succ_pos, lex_lt; simpl. intros Hj Hb H.
  destruct (Nat.ltb (S j) nR) eqn:E; [apply Nat.ltb_lt in E | apply Nat.ltb_ge in E]; simpl.
  - destruct (Nat.eq_dec a i); [|lia]. subst.
    destruct (Nat.eq_dec b (S j)); [left; congruence | right; lia].
  - destruct (Nat.eq_dec a (S i)); [|lia]. subst.
    destruct (Nat.eq_dec b 0%nat); [left; congruence | right; lia].
Qed.

Lemma lex_lt_trans p q r : lex_lt p q -> lex_lt q r -> lex_lt p r.
Proof. unfold lex_lt. lia. Qed.

Lemma next_step_decreases s s' :
  positioned s -> next_step s = Recurse s' ->
  positioned s' /\ (pairs_left s' < pairs_left s)%nat.
Proof.
  intros Hp Hs. pose proof (next_step_spec s Hp) as H. rewrite Hs in H.
  destruct H as (HL & HR & Hp' & _ & Hpos & _). split; [exact Hp'|].
  destruct s as [[L i] [R j] e], s' as [[L' i'] [R' j'] e'].
  unfold positioned, pos, pairs_left, succ_pos in *; simpl in *. subst L' R'.
  destruct Hp as [Hi Hj]. destruct Hp' as [Hi' Hj'].
  destruct (Nat.ltb (S j) (length R)) eqn:E; injection Hpos as -> ->; nia.
Qed.

Lemma nextTuple_spec fuel : forall s,
  positioned s -> (pairs_left s < fuel)%nat ->
  let L := recs (left_ s) in let R := recs (right_ s) in
  exists s', nextTuple_fuel fuel s = Some s' /\
    recs (left_ s') = L /\ recs (right_ s') = R /\
    ((isend s' = true /\ none_between L R (pos s) (length L, 0%nat)) \/
     (positioned s' /\ isend s' = isend s /\ lex_lt (pos s) (pos s') /\
      check_at L R (cur (left_ s')) (cur (right_ s')) = true /\ none_between L R (pos s) (pos s'))).
Proof.
  induction fuel as [|fuel IH]; intros s Hp Hf; [lia|]. simpl.
  pose proof (next_step_spec s Hp) as Hst.
  destruct (next_step s) as [s'|s'] eqn:Es.
  - destruct Hst as (HL & HR & [[He Hsucc] | (Hp' & He & Hpos & Hc)]); exists s'; split_and!; auto.
    + left. split; [exact He|]. intros a b Ha Hb Hlt Hgt.
      destruct Hp as [_ Hj]. destruct (lex_lt_split _ (pos s) a b Hj Hb Hlt) as [Heq|Hlt'].
      * rewrite Hsucc in Heq. injection Heq as -> ->. lia.
      * rewrite Hsucc in Hlt'. unfold lex_lt in Hlt'; simpl in Hlt'. lia.
    + right. split_and!; auto.
      * rewrite Hpos. apply lex_lt_succ. apply Hp.
      * rewrite <- HL, <- HR, <- check_current_at. exact Hc.
      * intros a b Ha Hb Hlt Hgt. destruct Hp as [_ Hj].
        destruct (lex_lt_split _ (pos s) a b Hj Hb Hlt) as [Heq|Hlt']; rewrite <- Hpos in *.
        -- rewrite Heq in Hgt. unfold lex_lt in Hgt. lia.
        -- unfold lex_lt in Hlt', Hgt. lia.
  - destruct Hst as (HL & HR & Hp' & He & Hpos & Hc).
    destruct (next_step_decreases s s' Hp Es) as [_ Hlt].
    destruct (IH s' Hp' ltac:(lia)) as (s'' & Hrun & HL' & HR' & Hres).
    exists s''. rewrite HL', HR', HL, HR. split_and!; auto.
    rewrite HL, HR in Hres.
    assert (Hstep : lex_lt (pos s) (pos s')) by (rewrite Hpos; apply lex_lt_succ, Hp).
    assert (Hc' : check_at (recs (left_ s)) (recs (right_ s)) (pos s').1 (pos s').2 = false)
      by (rewrite <- HL, <- HR; exact Hc).
    assert (Hnb : forall q, none_between (recs (left_ s)) (recs (right_ s)) (pos s') q ->
                            none_between (recs (left_ s)) (recs (right_ s)) (pos s) q).
    { intros q Hq a b Ha Hb H1 H2. destruct Hp as [_ Hj].
      destruct (lex_lt_split _ (pos s) a b Hj Hb H1) as [Heq|H1'].
      - rewrite <- Hpos in Heq. pose proof (f_equal fst Heq) as Ea. pose proof (f_equal snd Heq) as Eb.
        simpl in Ea, Eb. rewrite Ea, Eb. exact Hc'.
      - rewrite <- Hpos in H1'. apply Hq; auto. }
    destruct Hres as [[He' Hn] | (Hp'' & He' & Hl & Hc'' & Hn)].
    + left. split; auto.
    + right. split_and!; auto. * congruence. * eapply lex_lt_trans; eauto.
Qed.

Lemma beginTuple_spec s :
  let L := recs (left_ s) in let R := recs (right_ s) in
  exists s', beginTuple_fuel (length L * length R) s = Some s' /\
    recs (left_ s') = L /\ recs (right_ s') = R /\
    ((isend s' = true /\ none_between L R (0%nat, 0%nat) (length L, 0%nat) /\
      (forall b, (b < length R)%nat -> check_at L R 0 b = false)) \/
     (positioned s' /\ isend s' = isend s /\
      check_at L R (cur (left_ s')) (cur (right_ s')) = true /\
      (forall a b, (a < length L)%nat -> (b < length R)%nat -> lex_lt (a, b) (pos s') ->
         check_at L R a b = false))).
Proof.
  destruct s as [[L i] [R j] e]. simpl.
  unfold beginTuple_fuel, child_beginTuple, child_is_end; simpl.
  destruct (Nat.leb (length L) 0) eqn:EL.
  { apply Nat.leb_le in EL. eexists. split_and!; try reflexivity. left. split_and!; try reflexivity.
    - intros a b Ha. lia.
    - intros b Hb. unfold check_at. destruct L; [reflexivity|simpl in EL; lia]. }
  apply Nat.leb_gt in EL.
  destruct (Nat.leb (length R) 0) eqn:ER.
  { apply Nat.leb_le in ER. eexists. split_and!; try reflexivity. left. split_and!; try reflexivity.
    - intros a b Ha Hb. lia.
    - intros b Hb. lia. }
  apply Nat.leb_gt in ER.
  set (s1 := {| left_ := {| recs := L; cur := 0 |}; right_ := {| recs := R; cur := 0 |}; isend := e |}).
  assert (Hp1 : positioned s1) by (unfold positioned; simpl; lia).
  destruct (check_current s1) eqn:Ec.
  { eexists. split_and!; try reflexivity. right. split_and!; try reflexivity; try assumption.
    intros a b _ _ Hlt. unfold lex_lt, pos in Hlt; simpl in Hlt. lia. }
  assert (Hc1 : check_at L R 0 0 = false) by exact Ec.
  assert (Hf : (pairs_left s1 < length L * length R)%nat) by (unfold pairs_left; simpl; nia).
  destruct (nextTuple_spec _ s1 Hp1 Hf) as (s' & Hrun & HL & HR & Hres).
  exists s'. simpl in HL, HR. split_and!; try assumption.
  assert (Hfirst : forall a b, (a < length L)%nat -> (b < length R)%nat -> lex_lt (pos s1) (a, b) \/ (a, b) = (0%nat, 0%nat)).
  { intros a b Ha Hb. unfold lex_lt, pos; simpl.
    destruct (Nat.eq_dec a 0%nat); [destruct (Nat.eq_dec b 0%nat)|]; subst; auto; left; lia. }
  destruct Hres as [[He Hn] | (Hp' & He & Hl & Hc & Hn)].
  - left. split_and!; [exact He| |].
    + intros a b Ha Hb _ Hgt. destruct (Hfirst a b Ha Hb) as [H1|H1].
      * apply Hn; auto.
      * injection H1 as -> ->. exact Hc1.
    + intros b Hb. destruct (Hfirst 0%nat b ltac:(lia) Hb) as [H1|H1].
      * apply Hn; auto. unfold lex_lt; simpl; lia.
      * injection H1 as ->. exact Hc1.
  - right. split_and!; try assumption.
    intros a b Ha Hb Hgt. destruct (Hfirst a b Ha Hb) as [H1|H1].
    + apply Hn; auto.
    + injection H1 as -> ->. exact Hc1.
Qed.

Lemma next_step_keeps_isend s :
  isend s = true ->
  match next_step s with Stop s' | Recurse s' => isend s' = true end.
Proof.
  intros He. unfold next_step.
  destruct (child_is_end (child_nextTuple (right_ s))); simpl;
    [destruct (child_is_end (child_nextTuple (left_ s))); simpl;
      [|destruct (child_is_end (child_beginTuple (child_nextTuple (right_ s)))); simpl]|];
    try reflexivity;
    match goal with |- context [if ?c then _ else _] => destruct c end; exact He.
Qed.

Lemma nextTuple_keeps_isend fuel : forall s s',
  isend s = true -> nextTuple_fuel fuel s = Some s' -> isend s' = true.
Proof.
  induction fuel as [|fuel IH]; intros s s' He H; [discriminate|]. simpl in H.
  pose proof (next_step_keeps_isend s He) as Hk.
  destruct (next_step s) as [t|t]; [injection H as <-; exact Hk | exact (IH t s' Hk H)].
Qed.

End NestedLoopJoin.

(** Example inputs: records are integers, one join condition, equality. *)
Definition c10_check (l r : Z) (_ : unit) : bool := Z.eqb l r.
Definition c10_conds : list unit := [tt].
Definition c10_start : NLJ Z :=
  mkNLJ (mkChild [1; 2; 3] 0) (mkChild [2; 3] 0) false.

End NestedLoopJoin.


(** *** Reading and writing single records *)

(** The header facts [insert_record] relies on: page 0 is the file header, so
    [num_pages] is at least [RM_FIRST_RECORD_PAGE], and the free list is empty
    or starts at a data page. *)
Definition free_head_ok (f : RmFile) : bool :=
  (RM_FIRST_RECORD_PAGE <=? num_pages (file_hdr_ f)) &&
  ((first_free_page_no (file_hdr_ f) =? RM_NO_PAGE) || data_page f (first_free_page_no (file_hdr_ f))).

Lemma data_page_range f pno :
  data_page f pno = true <-> RM_FIRST_RECORD_PAGE <= pno < num_pages (file_hdr_ f).
Proof.
  unfold data_page. rewrite andb_true_iff, Z.leb_le, Z.ltb_lt. lia.
Qed.

Lemma wf_page_lengths s tab f pno p :
  db_wf s -> fhs s !! tab = Some f -> data_page f pno = true -> pages f !! pno = Some p ->
  length (bitmap p) = Z.to_nat (nrpp f) /\ length (slots p) = Z.to_nat (nrpp f).
Proof.
  intros Hwf Hf Hd Hp. apply data_page_range in Hd.
  exact (Hwf tab f Hf pno p Hd Hp).
Qed.

Lemma get_record_live_fwd tab rid ctx s d s' :
  db_wf s -> get_record tab rid ctx s = Ok d s' ->
  live s tab (page_no rid) (rid_slot rid) = Some d.
Proof.
  intros Hwf H. pose proof (get_record_spec tab rid ctx s) as Hs. rewrite H in Hs.
  destruct Hs as (_ & f & p & Hf & Hd & Hp & Hb & ->).
  destruct (wf_page_lengths s tab f (page_no rid) p Hwf Hf Hd Hp) as [Hlb Hls].
  apply is_set_lookup in Hb.
  unfold live, slot_live, page_live, rid_slot. rewrite Hf, Hd, Hp, Hb.
  assert (Hk : (Z.to_nat (slot_no rid) < length (slots p))%nat)
    by (apply lookup_lt_Some in Hb; lia).
  destruct (lookup_lt_is_Some_2 _ _ Hk) as [x Hx]. by rewrite Hx.
Qed.

Lemma get_record_live_bwd tab rid s d :
  live s tab (page_no rid) (rid_slot rid) = Some d ->
  get_record tab rid false s = Ok d s.
Proof.
  unfold live, slot_live, page_live, rid_slot.
  destruct (fhs s !! tab) as [f|] eqn:Hf; [|discriminate].
  destruct (data_page f (page_no rid)) eqn:Hd; [|discriminate].
  destruct (pages f !! page_no rid) as [p|] eqn:Hp; [|discriminate].
  destruct (bitmap p !! Z.to_nat (slot_no rid)) as [[]|] eqn:Hb; try discriminate.
  intros Hsl.
  unfold get_record, bind, fh_of, with_lock, ret. rewrite Hf.
  unfold fetch_page_handle. apply data_page_range in Hd. unfold RM_FIRST_RECORD_PAGE in Hd.
  replace ((page_no rid <? RM_FIRST_RECORD_PAGE) || (num_pages (file_hdr_ f) <=? page_no rid))
    with false by (unfold RM_FIRST_RECORD_PAGE; symmetry; apply orb_false_iff;
                   split; [apply Z.ltb_ge|apply Z.leb_gt]; lia).
  rewrite Hp. simpl. unfold Bitmap.is_set. rewrite Hb. simpl. by rewrite Hsl.
Qed.

Lemma is_set_reset bm pos : Bitmap.is_set (Bitmap.reset bm pos) pos = false.
Proof.
  unfold Bitmap.is_set, Bitmap.reset.
  destruct (decide (Z.to_nat pos < length bm)%nat).
  - by rewrite list_lookup_insert_eq.
  - rewrite lookup_ge_None_2; [done|]. rewrite length_insert. lia.
Qed.

Lemma page_op_after s s' tab pno p p1 : page_op s s' tab pno p p1 ->
  exists f', fhs s' !! tab = Some f' /\ data_page f' pno = true /\ pages f' !! pno = Some p1.
Proof.
  intros (f & f' & Hf & Hd & Hp & Hs & Hn & Hr & Hpg). exists f'.
  rewrite Hs, lookup_insert_eq. split_and!; [done| |].
  - unfold data_page in *. by rewrite Hn.
  - rewrite Hpg. apply lookup_insert_eq.
Qed.

Lemma insert_record_live tab buf s rid s' :
  db_wf s -> (forall f, fhs s !! tab = Some f -> free_head_ok f = true) ->
  insert_record tab buf s = Ok rid s' -> page_no rid <> RM_NO_PAGE ->
  live s' tab (page_no rid) (rid_slot rid) = Some buf.
Proof.
  intros Hwf Hok. unfold insert_record, bind, fh_of.
  destruct (fhs s !! tab) as [f0|] eqn:Hf0; [|discriminate].
  specialize (Hok f0 eq_refl). unfold free_head_ok in Hok.
  apply andb_true_iff in Hok as [Hnp Hhead]. apply Z.leb_le in Hnp.
  (* [create_page_handle] is kept folded *)
  (* the page handed out, with its page number and the file it lives in *)
  destruct (create_page_handle f0 s) as [[[f pno] p] s1|e s1] eqn:Hc; [|intros H; discriminate H].
  assert (s1 = s) as -> by (pose proof (create_page_handle_spec f0 s) as X; rewrite Hc in X; exact (proj1 X)).
  assert (Hpage : pages f !! pno = Some p /\ data_page f pno = true /\ nrpp f = nrpp f0 /\
            length (bitmap p) = Z.to_nat (nrpp f) /\ length (slots p) = Z.to_nat (nrpp f)).
  { unfold create_page_handle in Hc. cbv zeta in Hc.
    destruct (first_free_page_no (file_hdr_ f0) =? RM_NO_PAGE) eqn:Hfree.
    - unfold ret, create_new_page_handle in Hc. injection Hc as E1 E2 E3. subst f pno p.
      unfold data_page, nrpp; simpl.
      split_and!.
      + apply lookup_insert_eq.
      + apply andb_true_iff. split; [apply Z.leb_le|apply Z.ltb_lt]; lia.
      + done.
      + unfold Bitmap.init. by rewrite length_replicate.
      + by rewrite length_replicate.
    - rewrite orb_false_l in Hhead.
      destruct (pages f0 !! first_free_page_no (file_hdr_ f0)) as [p0|] eqn:Hp0; [|discriminate].
      unfold ret in Hc. injection Hc as E1 E2 E3. subst f pno p. split_and!; try done.
      + exact (proj1 (wf_page_lengths s tab f0 _ p0 Hwf Hf0 Hhead Hp0)).
      + exact (proj2 (wf_page_lengths s tab f0 _ p0 Hwf Hf0 Hhead Hp0)). }
  destruct Hpage as (Hp & Hd & _ & Hlb & Hls).
  destruct (num_records_per_page (file_hdr_ f) <=? _) eqn:Hn; simpl.
  - intros H. injection H as <- <-. simpl. unfold RM_NO_PAGE. congruence.
  - apply Z.leb_gt in Hn.
    set (slot := Bitmap.first_bit false (bitmap p) (num_records_per_page (file_hdr_ f))) in *.
    destruct (first_bit_clear _ _ Hn) as [Hs0 _]. fold slot in Hs0.
    match goal with |- context [<[tab := ?F]> (fhs s)] => set (f2 := F) end.
    assert (Hprop : num_pages (file_hdr_ f2) = num_pages (file_hdr_ f) /\
      exists a b, pages f2 = <[pno := mkPage a b (Bitmap.set (bitmap p) slot)
                                         (<[Z.to_nat slot := buf]> (slots p))]> (pages f)).
    { subst f2. destruct (num_records p + 1 =? num_records_per_page (file_hdr_ f)); simpl;
      (split; [reflexivity | do 2 eexists; reflexivity]). }
    clearbody f2. destruct Hprop as (Hn2 & a & b & Hpg2).
    intros H _. injection H as <- <-. simpl.
    unfold live. simpl. rewrite lookup_insert_eq.
    unfold slot_live. replace (data_page f2 pno) with true
      by (symmetry; unfold data_page in *; by rewrite Hn2).
    rewrite Hpg2, lookup_insert_eq. unfold rid_slot; simpl. unfold Bitmap.set.
    apply page_live_set_write; [|lia].
    unfold nrpp in Hlb. lia.
Qed.

(** Example: an empty table with two slots per page. *)
Definition hx_tab : string := "items".
Definition hx_file : RmFile := mkRmFile 7 (mkFileHdr 1 2 1 1 RM_NO_PAGE) ∅.
Definition hx_db : DbState := mkDb ∅ (ex_txn 1) {[ hx_tab := hx_file ]} [].

Lemma fetch_data f pno p s :
  data_page f pno = true -> pages f !! pno = Some p -> fetch_page_handle f pno s = Ok p s.
Proof.
  intros Hd Hp. apply data_page_range in Hd. unfold fetch_page_handle, RM_FIRST_RECORD_PAGE in *.
  replace ((pno <? 1) || (num_pages (file_hdr_ f) <=? pno)) with false
    by (symmetry; apply orb_false_iff; split; [apply Z.ltb_ge|apply Z.leb_gt]; lia).
  by rewrite Hp.
Qed.

Lemma c3_db_wf : db_wf c3_db.
Proof.
  unfold db_wf, c3_db. simpl. apply map_Forall_singleton.
  intros pno p Hr Hp. unfold RM_FIRST_RECORD_PAGE in Hr; simpl in *. assert (pno = 1) as -> by lia.
  rewrite lookup_singleton_eq in Hp. by injection Hp as <-.
Qed.
Definition hx_rid : Rid := {| page_no := 1; slot_no := 0 |}.


(** ** Record scan (record/rm_scan.cpp) *)

Module RmScan.

Record RmScan := mkRmScan { file_handle_ : option RmFile; rid_ : Rid }.

Definition end_rid : Rid := {| page_no := RM_NO_PAGE; slot_no := RM_NO_PAGE |}.

(** The [while] loop of [RmScan::next], from the source's locals [page_no]
    ([pno]) and [slot_no] ([sno]). [k]
    bounds the pages left, so the [O] case is not reached while the loop
    condition holds (see [next_loop_spec]). *)
Fixpoint next_loop (f : RmFile) (k : nat) (pno sno : Z) : M DbState Rid :=
  if (RM_FIRST_RECORD_PAGE <=? pno) && (pno <? num_pages (file_hdr_ f)) then
    match k with
    | O => ret end_rid
    | S k' =>
        ph <- fetch_page_handle f pno ;;
        let next_slot := Bitmap.next_bit true (bitmap ph)
                           (num_records_per_page (file_hdr_ f)) sno in
        if next_slot <? num_records_per_page (file_hdr_ f)
        then ret {| page_no := pno; slot_no := next_slot |}
        else next_loop f k' (pno + 1) (-1)
    end
  else ret end_rid.

Definition next (sc : RmScan) : M DbState RmScan :=
  match file_handle_ sc with
  | None => ret (mkRmScan None end_rid)
  | Some f =>
      r <- next_loop f (Z.to_nat (num_pages (file_hdr_ f) - page_no (rid_ sc)))
                     (page_no (rid_ sc)) (slot_no (rid_ sc)) ;;
      ret (mkRmScan (Some f) r)
  end.

(** The constructor: [rid_ = {RM_FIRST_RECORD_PAGE, -1}], then [next()]. *)
Definition new (fh : option RmFile) : M DbState RmScan :=
  next (mkRmScan fh {| page_no := RM_FIRST_RECORD_PAGE; slot_no := -1 |}).

Definition is_end (sc : RmScan) : bool := page_no (rid_ sc) =? RM_NO_PAGE.

Definition rid (sc : RmScan) : Rid := rid_ sc.

(** The scan as its users drive it: [while (!is_end()) { use rid(); next(); }],
    collecting the rids, for at most [fuel] rounds. *)
Fixpoint collect (fuel : nat) (sc : RmScan) : M DbState (list Rid) :=
  match fuel with
  | O => ret []
  | S n =>
      if is_end sc then ret []
      else sc' <- next sc ;; l <- collect n sc' ;; ret (rid sc :: l)
  end.

Definition scan_all (fh : option RmFile) (fuel : nat) : M DbState (list Rid) :=
  sc <- new fh ;; collect fuel sc.

(** The positions at or after [i], below [i + k], whose bit is set. *)
Fixpoint set_bits (bm : list bool) (k : nat) (i : Z) : list Z :=
  match k with
  | O => []
  | S k' => if Bitmap.is_set bm i then i :: set_bits bm k' (i + 1) else set_bits bm k' (i + 1)
  end.

Definition page_bits (f : RmFile) (pno : Z) : list bool :=
  match pages f !! pno with Some p => bitmap p | None => [] end.

(** The occupied rids of page [pno] from slot [from] on, and of the [k]
    pages from [pno] on. *)
Definition page_rids (f : RmFile) (pno from : Z) : list Rid :=
  map (fun i => {| page_no := pno; slot_no := i |})
      (set_bits (page_bits f pno) (Z.to_nat (nrpp f - from)) from).

Fixpoint pages_rids (f : RmFile) (k : nat) (pno : Z) : list Rid :=
  match k with
  | O => []
  | S k' => page_rids f pno 0 ++ pages_rids f k' (pno + 1)
  end.

(** The occupied rids after position [(p, sl)], in (page, slot) order. *)
Definition rest (f : RmFile) (p sl : Z) : list Rid :=
  if (RM_FIRST_RECORD_PAGE <=? p) && (p <? num_pages (file_hdr_ f))
  then page_rids f p (sl + 1) ++ pages_rids f (Z.to_nat (num_pages (file_hdr_ f) - (p + 1))) (p + 1)
  else [].

Definition rid_lt (a b : Rid) : Prop :=
  page_no a < page_no b \/ (page_no a = page_no b /\ slot_no a < slot_no b).

Definition pages_present (f : RmFile) : Prop :=
  forall pno, data_page f pno = true -> is_Some (pages f !! pno).

Lemma first_bit_go_true bm k i :
  Bitmap.first_bit_go true bm k i = hd (i + Z.of_nat k) (set_bits bm k i).
Proof.
  revert i. induction k as [|k IH]; intros i; simpl; [lia|].
  destruct (Bitmap.is_set bm i); simpl; [done|].
  rewrite IH. f_equal. lia.
Qed.

Lemma set_bits_in bm k i j :
  In j (set_bits bm k i) <-> i <= j < i + Z.of_nat k /\ Bitmap.is_set bm j = true.
Proof.
  revert i. induction k as [|k IH]; intros i; simpl; [split; [done|lia]|].
  destruct (Bitmap.is_set bm i) eqn:E; simpl; rewrite ?IH.
  - split.
    + intros [<-|H]; [split; [lia|done]|]. split; [lia|apply H].
    + intros [H1 H2]. destruct (decide (i = j)) as [->|Hne]; [by left|right].
      split; [lia|done].
  - split.
    + intros [H1 H2]. split; [lia|done].
    + intros [H1 H2]. split; [|done].
      destruct (decide (i = j)) as [->|Hne]; [congruence|lia].
Qed.

Lemma set_bits_cons bm k i j t :
  set_bits bm k i = j :: t -> set_bits bm (Z.to_nat (i + Z.of_nat k - (j + 1))) (j + 1) = t.
Proof.
  revert i. induction k as [|k IH]; intros i; simpl; [discriminate|].
  destruct (Bitmap.is_set bm i).
  - intros H. injection H as <- <-. f_equal. lia.
  - intros H. rewrite <- (IH (i + 1) H). f_equal. lia.
Qed.

Lemma set_bits_length bm k i : (length (set_bits bm k i) <= k)%nat.
Proof.
  revert i. induction k as [|k IH]; intros i; simpl; [lia|].
  destruct (Bitmap.is_set bm i); simpl; specialize (IH (i + 1)); lia.
Qed.

Lemma next_bit_true bm n curr :
  Bitmap.next_bit true bm n curr = hd n (set_bits bm (Z.to_nat (n - (curr + 1))) (curr + 1)).
Proof.
  unfold Bitmap.next_bit. destruct (Z.leb_spec n (curr + 1)).
  - by replace (Z.to_nat (n - (curr + 1))) with 0%nat by lia.
  - rewrite first_bit_go_true. f_equal. lia.
Qed.

Lemma pages_rids_rest f p : RM_FIRST_RECORD_PAGE <= p ->
  pages_rids f (Z.to_nat (num_pages (file_hdr_ f) - p)) p = rest f p (-1).
Proof.
  intros Hp. unfold rest. destruct (Z.ltb_spec p (num_pages (file_hdr_ f))).
  - replace (RM_FIRST_RECORD_PAGE <=? p) with true by (symmetry; apply Z.leb_le; lia).
    replace (Z.to_nat (num_pages (file_hdr_ f) - p))
      with (S (Z.to_nat (num_pages (file_hdr_ f) - (p + 1)))) by lia.
    simpl. do 2 f_equal; lia.
  - rewrite andb_false_r. by replace (Z.to_nat (num_pages (file_hdr_ f) - p)) with 0%nat by lia.
Qed.

Lemma next_loop_spec f s : pages_present f ->
  forall k p sl, RM_FIRST_RECORD_PAGE <= p -> -1 <= sl ->
  (Z.to_nat (num_pages (file_hdr_ f) - p) <= k)%nat ->
  next_loop f k p sl s = Ok (hd end_rid (rest f p sl)) s.
Proof.
  intros Hpr k. induction k as [|k IH]; intros p sl Hp Hsl Hk.
  - simpl. unfold rest. destruct (_ && _) eqn:E; [|done].
    apply andb_true_iff in E as [_ E]. apply Z.ltb_lt in E. lia.
  - simpl. unfold rest. destruct (_ && _) eqn:E; [|done].
    destruct (Hpr p E) as [pg Hpg].
    unfold bind. rewrite (fetch_data _ _ _ _ E Hpg). cbv beta iota.
    rewrite next_bit_true. unfold page_rids, page_bits. rewrite Hpg. unfold nrpp.
    destruct (set_bits (bitmap pg) _ (sl + 1)) as [|j t] eqn:Hs; simpl.
    + rewrite Z.ltb_irrefl. rewrite IH by lia.
      by rewrite <- pages_rids_rest by lia.
    + assert (Hj : In j (set_bits (bitmap pg) (Z.to_nat (num_records_per_page (file_hdr_ f) - (sl + 1))) (sl + 1)))
        by (rewrite Hs; by left).
      apply set_bits_in in Hj as [Hj _].
      replace (j <? num_records_per_page (file_hdr_ f)) with true by (symmetry; apply Z.ltb_lt; lia).
      reflexivity.
Qed.

Lemma rid_eq_iff (x : Rid) pno i :
  {| page_no := pno; slot_no := i |} = x <-> page_no x = pno /\ slot_no x = i.
Proof. destruct x as [a b]; simpl. split; [intros H; by injection H as -> ->|by intros [-> ->]]. Qed.

Lemma page_rids_in f pno from x :
  In x (page_rids f pno from) <->
  page_no x = pno /\ from <= slot_no x < nrpp f /\ Bitmap.is_set (page_bits f pno) (slot_no x) = true.
Proof.
  unfold page_rids. rewrite in_map_iff. split.
  - intros (i & Hx & Hi). apply rid_eq_iff in Hx as [<- <-].
    apply set_bits_in in Hi as [Hi Hb]. split_and!; [done|lia|lia|done].
  - intros (Hp & Hr & Hb). exists (slot_no x). split; [by apply rid_eq_iff|].
    apply set_bits_in. split; [lia|done].
Qed.

Lemma pages_rids_in f k q x :
  In x (pages_rids f k q) <->
  q <= page_no x < q + Z.of_nat k /\ 0 <= slot_no x < nrpp f /\
  Bitmap.is_set (page_bits f (page_no x)) (slot_no x) = true.
Proof.
  revert q. induction k as [|k IH]; intros q; simpl; [split; [done|lia]|].
  rewrite in_app_iff, IH, page_rids_in. split.
  - intros [(-> & H1 & H2)|(H1 & H2 & H3)]; split_and!; try done; lia.
  - intros (H1 & H2 & H3). destruct (decide (page_no x = q)) as [E|Hne].
    + left. subst q. split_and!; try done; lia.
    + right. split_and!; try done; lia.
Qed.

Lemma pages_rids_length f k q : (length (pages_rids f k q) <= k * Z.to_nat (nrpp f))%nat.
Proof.
  revert q. induction k as [|k IH]; intros q; simpl; [lia|].
  rewrite length_app. unfold page_rids. rewrite length_map.
  pose proof (set_bits_length (page_bits f q) (Z.to_nat (nrpp f - 0)) 0).
  specialize (IH (q + 1)). replace (nrpp f - 0) with (nrpp f) in * by lia. lia.
Qed.

Lemma rest_cons f : forall m p sl r t,
  Z.to_nat (num_pages (file_hdr_ f) - p) = m ->
  RM_FIRST_RECORD_PAGE <= p -> -1 <= sl -> rest f p sl = r :: t ->
  RM_FIRST_RECORD_PAGE <= page_no r /\ -1 <= slot_no r /\ rest f (page_no r) (slot_no r) = t.
Proof.
  intros m. induction m as [|m IH]; intros p sl r t Hm Hp Hsl H;
    unfold rest in H; destruct (_ && _) eqn:E; try discriminate H;
    apply andb_true_iff in E as [E1 E2]; apply Z.ltb_lt in E2; [lia|].
  unfold page_rids in H at 1.
  destruct (set_bits (page_bits f p) (Z.to_nat (nrpp f - (sl + 1))) (sl + 1)) as [|j t1] eqn:Hs.
  - simpl in H. rewrite pages_rids_rest in H by lia.
    apply (IH (p + 1) (-1)); [lia|lia|lia|exact H].
  - simpl in H. injection H as <- <-. simpl.
    assert (Hj : In j (set_bits (page_bits f p) (Z.to_nat (nrpp f - (sl + 1))) (sl + 1)))
      by (rewrite Hs; by left).
    apply set_bits_in in Hj as [Hj _].
    split_and!; [lia|lia|].
    unfold rest. replace (RM_FIRST_RECORD_PAGE <=? p) with true by (symmetry; by apply Z.leb_le).
    replace (p <? num_pages (file_hdr_ f)) with true by (symmetry; by apply Z.ltb_lt).
    simpl. f_equal. unfold page_rids. f_equal.
    rewrite <- (set_bits_cons _ _ _ _ _ Hs). f_equal. lia.
Qed.

Lemma rest_after f p sl x : In x (rest f p sl) -> rid_lt {| page_no := p; slot_no := sl |} x.
Proof.
  unfold rest, rid_lt. destruct (_ && _) eqn:E; [|done]. simpl.
  rewrite in_app_iff, page_rids_in, pages_rids_in.
  intros [(-> & H1 & _)|(H1 & _)]; [right; split; [done|lia]|left; lia].
Qed.

Lemma rest_sorted f : forall n p sl, (length (rest f p sl) <= n)%nat ->
  RM_FIRST_RECORD_PAGE <= p -> -1 <= sl -> StronglySorted rid_lt (rest f p sl).
Proof.
  intros n. induction n as [|n IH]; intros p sl Hn Hp Hsl.
  - destruct (rest f p sl); [constructor|simpl in Hn; lia].
  - destruct (rest f p sl) as [|r t] eqn:Hr; [constructor|].
    destruct (rest_cons f _ p sl r t eq_refl Hp Hsl Hr) as (Hp' & Hsl' & Ht).
    constructor.
    + rewrite <- Ht. apply IH; [rewrite Ht; simpl in Hn; lia|done|done].
    + apply Forall_forall. intros x Hx. rewrite <- Ht in Hx.
      apply list_elem_of_In, rest_after in Hx. by destruct r.
Qed.

Lemma collect_spec f s : pages_present f ->
  forall fuel p sl, RM_FIRST_RECORD_PAGE <= p -> -1 <= sl -> (length (rest f p sl) < fuel)%nat ->
  collect fuel (mkRmScan (Some f) (hd end_rid (rest f p sl))) s = Ok (rest f p sl) s.
Proof.
  intros Hpr fuel. induction fuel as [|n IH]; intros p sl Hp Hsl Hlen; [lia|].
  destruct (rest f p sl) as [|r t] eqn:Hr; [reflexivity|].
  destruct (rest_cons f _ p sl r t eq_refl Hp Hsl Hr) as (Hp' & Hsl' & Ht).
  simpl. unfold is_end. simpl.
  replace (page_no r =? RM_NO_PAGE) with false
    by (symmetry; apply Z.eqb_neq; unfold RM_NO_PAGE, RM_FIRST_RECORD_PAGE in *; lia).
  unfold next, bind. simpl.
  rewrite (next_loop_spec f s Hpr _ (page_no r) (slot_no r) Hp' Hsl' (Nat.le_refl _)).
  unfold ret. rewrite Ht.
  rewrite <- Ht. rewrite (IH (page_no r) (slot_no r) Hp' Hsl'); [by rewrite Ht|].
  rewrite Ht. simpl in Hlen. lia.
Qed.

Lemma new_spec f s : pages_present f ->
  new (Some f) s = Ok (mkRmScan (Some f) (hd end_rid (rest f RM_FIRST_RECORD_PAGE (-1)))) s.
Proof.
  intros Hpr. unfold new, next, bind. simpl.
  by rewrite (next_loop_spec f s Hpr _ RM_FIRST_RECORD_PAGE (-1)) by (unfold RM_FIRST_RECORD_PAGE; lia).
Qed.

Lemma scan_all_spec f s fuel : pages_present f ->
  (length (rest f RM_FIRST_RECORD_PAGE (-1)) < fuel)%nat ->
  scan_all (Some f) fuel s = Ok (rest f RM_FIRST_RECORD_PAGE (-1)) s.
Proof.
  intros Hpr Hf. unfold scan_all, bind. rewrite (new_spec f s Hpr).
  apply (collect_spec f s Hpr); [unfold RM_FIRST_RECORD_PAGE; lia|lia|done].
Qed.

Lemma rest_start_in f x :
  In x (rest f RM_FIRST_RECORD_PAGE (-1)) <->
  RM_FIRST_RECORD_PAGE <= page_no x < num_pages (file_hdr_ f) /\ 0 <= slot_no x < nrpp f /\
  Bitmap.is_set (page_bits f (page_no x)) (slot_no x) = true.
Proof.
  rewrite <- pages_rids_rest by lia. rewrite pages_rids_in.
  unfold RM_FIRST_RECORD_PAGE. split; intros (H1 & H2 & H3); split_and!; try done; lia.
Qed.

Lemma live_bits s tab f pno k : fhs s !! tab = Some f -> file_wf f ->
  (exists d, live s tab pno k = Some d) <->
  RM_FIRST_RECORD_PAGE <= pno < num_pages (file_hdr_ f) /\ Z.of_nat k < nrpp f /\
  Bitmap.is_set (page_bits f pno) (Z.of_nat k) = true.
Proof.
  intros Hf Hwf. unfold live, slot_live. rewrite Hf.
  destruct (data_page f pno) eqn:Hd.
  2: { split; [by intros [d Hd']|]. intros (Hr & _). apply data_page_range in Hr. congruence. }
  apply data_page_range in Hd as Hr.
  unfold page_bits, Bitmap.is_set. rewrite Nat2Z.id.
  destruct (pages f !! pno) as [pg|] eqn:Hpg.
  2: { split; [by intros [d Hd']|]. intros (_ & _ & Hb). discriminate Hb. }
  destruct (Hwf pno pg Hr Hpg) as [Hlb Hls]. unfold page_live, nrpp.
  split.
  - intros [d Hd']. destruct (bitmap pg !! k) as [[]|] eqn:Hb; try discriminate Hd'.
    apply lookup_lt_Some in Hb. split_and!; [lia|lia|lia|done].
  - intros (_ & Hk & Hb). destruct (bitmap pg !! k) as [[]|] eqn:Hbk; try discriminate Hb.
    apply lookup_lt_is_Some_2. lia.
Qed.

Lemma rest_in f p sl x : -1 <= sl -> In x (rest f p sl) ->
  RM_FIRST_RECORD_PAGE <= page_no x < num_pages (file_hdr_ f) /\ 0 <= slot_no x < nrpp f /\
  Bitmap.is_set (page_bits f (page_no x)) (slot_no x) = true.
Proof.
  intros Hsl. unfold rest. destruct (_ && _) eqn:E; [|done].
  apply andb_true_iff in E as [E1 E2]. apply Z.leb_le in E1. apply Z.ltb_lt in E2.
  rewrite in_app_iff, page_rids_in, pages_rids_in. unfold RM_FIRST_RECORD_PAGE in *.
  intros [(E & H1 & H2)|(H1 & H2 & H3)]; [rewrite E|]; split_and!; try done; lia.
Qed.

Lemma next_rest f s p sl r t : pages_present f ->
  RM_FIRST_RECORD_PAGE <= p -> -1 <= sl -> rest f p sl = r :: t ->
  next (mkRmScan (Some f) r) s = Ok (mkRmScan (Some f) (hd end_rid t)) s.
Proof.
  intros Hpr Hp Hsl Hr.
  destruct (rest_cons f _ p sl r t eq_refl Hp Hsl Hr) as (Hp' & Hsl' & Ht).
  unfold next, bind. simpl.
  rewrite (next_loop_spec f s Hpr _ (page_no r) (slot_no r) Hp' Hsl' (Nat.le_refl _)).
  by rewrite Ht.
Qed.

Lemma not_end f p sl r t : RM_FIRST_RECORD_PAGE <= p -> -1 <= sl -> rest f p sl = r :: t ->
  is_end (mkRmScan (Some f) r) = false.
Proof.
  intros Hp Hsl Hr. destruct (rest_cons f _ p sl r t eq_refl Hp Hsl Hr) as (Hp' & _).
  unfold is_end. simpl. apply Z.eqb_neq. unfold RM_NO_PAGE, RM_FIRST_RECORD_PAGE in *. lia.
Qed.

Lemma rest_length_bound f :
  (length (rest f RM_FIRST_RECORD_PAGE (-1)) <=
   Z.to_nat (num_pages (file_hdr_ f)) * Z.to_nat (nrpp f))%nat.
Proof.
  rewrite <- pages_rids_rest by reflexivity.
  pose proof (pages_rids_length f (Z.to_nat (num_pages (file_hdr_ f) - RM_FIRST_RECORD_PAGE))
                RM_FIRST_RECORD_PAGE).
  assert (Z.to_nat (num_pages (file_hdr_ f) - RM_FIRST_RECORD_PAGE) * Z.to_nat (nrpp f) <=
          Z.to_nat (num_pages (file_hdr_ f)) * Z.to_nat (nrpp f))%nat
    by (apply Nat.mul_le_mono_r; unfold RM_FIRST_RECORD_PAGE; lia).
  lia.
Qed.

End RmScan.


(** ** Sequential scan (execution/executor_seq_scan.h) *)

Module SeqScan.

Record SeqScanExecutor := mkSeqScan {
  tab_name_ : string;
  context_ : bool;
  rid_ : Rid;
  scan_ : RmScan.RmScan
}.

Definition set_scan (e : SeqScanExecutor) (sc : RmScan.RmScan) (r : Rid) : SeqScanExecutor :=
  mkSeqScan (tab_name_ e) (context_ e) r sc.

Section Exec.
(** [check_conditions] (the conjunction of [check_condition] over
    [fed_conds_]) is left abstract; the [while] loops of [beginTuple] and
    [nextTuple] run for at most [loop_fuel] rounds. *)
Variable check_conditions : list Byte.byte -> bool.
Variable loop_fuel : nat.

(** [while (!scan_->is_end()) { rid_ = scan_->rid(); rec = get_record(rid_);
    if (check_conditions(rec)) return; scan_->next(); }] *)
Fixpoint scan_loop (fuel : nat) (tab : string) (ctx : bool) (sc : RmScan.RmScan) (r0 : Rid)
    : M DbState (RmScan.RmScan * Rid) :=
  match fuel with
  | O => ret (sc, r0)
  | S n =>
      if RmScan.is_end sc then ret (sc, r0)
      else
        let r := RmScan.rid sc in
        rec <- get_record tab r ctx ;;
        if check_conditions rec then ret (sc, r)
        else sc' <- RmScan.next sc ;; scan_loop n tab ctx sc' r
  end.

Definition beginTuple (e : SeqScanExecutor) : M DbState SeqScanExecutor :=
  f <- fh_of (tab_name_ e) ;;
  with_lock (context_ e) (lock_IS_on_table (fd_ f)) ;;;
  sc <- RmScan.new (Some f) ;;
  c <- scan_loop loop_fuel (tab_name_ e) (context_ e) sc (rid_ e) ;;
  ret (set_scan e (fst c) (snd c)).

Definition nextTuple (e : SeqScanExecutor) : M DbState SeqScanExecutor :=
  sc <- RmScan.next (scan_ e) ;;
  c <- scan_loop loop_fuel (tab_name_ e) (context_ e) sc (rid_ e) ;;
  ret (set_scan e (fst c) (snd c)).

Definition is_end (e : SeqScanExecutor) : bool := RmScan.is_end (scan_ e).

Definition Next (e : SeqScanExecutor) : M DbState (list Byte.byte) :=
  get_record (tab_name_ e) (rid_ e) (context_ e).

Definition rid (e : SeqScanExecutor) : Rid := rid_ e.

(** The executor driven as its parent drives it: [beginTuple], then
    [while (!is_end()) { use rid(); nextTuple(); }], for at most [fuel]
    rounds. *)
Fixpoint drive (fuel : nat) (e : SeqScanExecutor) : M DbState (list Rid) :=
  match fuel with
  | O => ret []
  | S n =>
      if is_end e then ret []
      else e' <- nextTuple e ;; l <- drive n e' ;; ret (rid e :: l)
  end.

Definition run (e : SeqScanExecutor) (fuel : nat) : M DbState (list Rid) :=
  e' <- beginTuple e ;; drive fuel e'.

End Exec.
(** The rids a scan visits before it stops at one whose record passes. *)
Fixpoint skip (P : Rid -> bool) (l : list Rid) : list Rid :=
  match l with
  | [] => []
  | r :: t => if P r then l else skip P t
  end.

Lemma skip_length P l : (length (skip P l) <= length l)%nat.
Proof. induction l as [|r t IH]; simpl; [lia|]. destruct (P r); simpl; lia. Qed.

Lemma skip_idem P l : skip P (skip P l) = skip P l.
Proof.
  induction l as [|r t IH]; simpl; [done|].
  destruct (P r) eqn:E; [simpl; by rewrite E|done].
Qed.

Lemma filter_skip P l : List.filter P (skip P l) = List.filter P l.
Proof.
  induction l as [|r t IH]; simpl; [done|].
  destruct (P r) eqn:E; simpl; [by rewrite E|done].
Qed.

Lemma skip_head P r t : skip P (r :: t) = r :: t -> P r = true.
Proof.
  simpl. destruct (P r); [done|]. intros H.
  pose proof (skip_length P t) as Hl. rewrite H in Hl. simpl in Hl. lia.
Qed.

Section Proofs.
Variable check_conditions : list Byte.byte -> bool.
Variable tab : string.
Variable f : RmFile.
Variable s : DbState.
Hypothesis Hf : fhs s !! tab = Some f.
Hypothesis Hwf : file_wf f.
Hypothesis Hpr : RmScan.pages_present f.

(** Whether the live record at [r] passes the conditions. *)
Definition passes (r : Rid) : bool :=
  match live s tab (page_no r) (rid_slot r) with
  | Some d => check_conditions d
  | None => false
  end.

Lemma rest_live p sl r : -1 <= sl -> In r (RmScan.rest f p sl) ->
  exists d, live s tab (page_no r) (rid_slot r) = Some d.
Proof.
  intros Hsl Hr. apply RmScan.rest_in in Hr as (H1 & H2 & H3); [|done].
  apply (RmScan.live_bits s tab f _ _ Hf Hwf). unfold rid_slot.
  rewrite Z2Nat.id by lia. split_and!; try done; lia.
Qed.

Lemma scan_loop_spec : forall fuel p sl r0,
  RM_FIRST_RECORD_PAGE <= p -> -1 <= sl -> (length (RmScan.rest f p sl) < fuel)%nat ->
  exists p' sl' r', RM_FIRST_RECORD_PAGE <= p' /\ -1 <= sl' /\
    RmScan.rest f p' sl' = skip passes (RmScan.rest f p sl) /\
    (forall r t, RmScan.rest f p' sl' = r :: t -> r' = r) /\
    scan_loop check_conditions fuel tab false
      (RmScan.mkRmScan (Some f) (hd RmScan.end_rid (RmScan.rest f p sl))) r0 s =
    Ok (RmScan.mkRmScan (Some f) (hd RmScan.end_rid (RmScan.rest f p' sl')), r') s.
Proof.
  intros fuel. induction fuel as [|n IH]; intros p sl r0 Hp Hsl Hlen; [lia|].
  destruct (RmScan.rest f p sl) as [|r t] eqn:Hr.
  { exists p, sl, r0. rewrite Hr. split_and!; try done. }
  simpl. rewrite (RmScan.not_end f p sl r t Hp Hsl Hr).
  destruct (rest_live p sl r Hsl) as [d Hd]; [rewrite Hr; by left|].
  unfold bind, RmScan.rid. simpl. rewrite (get_record_live_bwd _ _ _ _ Hd).
  assert (Hpass : passes r = check_conditions d) by (unfold passes; by rewrite Hd).
  destruct (check_conditions d) eqn:Hc.
  - exists p, sl, r. rewrite Hr, Hpass. split_and!; try done.
    intros r1 t1 H. by injection H.
  - rewrite (RmScan.next_rest f s p sl r t Hpr Hp Hsl Hr).
    destruct (RmScan.rest_cons f _ p sl r t eq_refl Hp Hsl Hr) as (Hp' & Hsl' & Ht).
    rewrite <- Ht.
    destruct (IH (page_no r) (slot_no r) r Hp' Hsl') as (p' & sl' & r' & H1 & H2 & H3 & H4 & H5);
      [rewrite Ht; simpl in Hlen; lia|].
    exists p', sl', r'. split_and!; try done. by rewrite H3, Ht, Hpass.
Qed.

Lemma drive_spec lf : forall fuel p sl e,
  RM_FIRST_RECORD_PAGE <= p -> -1 <= sl ->
  RmScan.rest f p sl = skip passes (RmScan.rest f p sl) ->
  scan_ e = RmScan.mkRmScan (Some f) (hd RmScan.end_rid (RmScan.rest f p sl)) ->
  (forall r t, RmScan.rest f p sl = r :: t -> rid_ e = r) ->
  tab_name_ e = tab -> context_ e = false ->
  (length (RmScan.rest f p sl) < fuel)%nat -> (length (RmScan.rest f p sl) < lf)%nat ->
  drive check_conditions lf fuel e s = Ok (List.filter passes (RmScan.rest f p sl)) s.
Proof.
  intros fuel. induction fuel as [|n IH]; intros p sl e Hp Hsl Hsk He Hrid Ht Hc Hl1 Hl2; [lia|].
  destruct (RmScan.rest f p sl) as [|r t] eqn:Hr.
  { simpl. unfold is_end. by rewrite He. }
  pose proof (skip_head passes r t (eq_sym Hsk)) as Hpass.
  simpl in He. simpl. unfold is_end. rewrite He, (RmScan.not_end f p sl r t Hp Hsl Hr).
  unfold bind, nextTuple, bind. rewrite He.
  rewrite (RmScan.next_rest f s p sl r t Hpr Hp Hsl Hr).
  destruct (RmScan.rest_cons f _ p sl r t eq_refl Hp Hsl Hr) as (Hp' & Hsl' & Hrt).
  rewrite <- Hrt, Ht, Hc.
  destruct (scan_loop_spec lf (page_no r) (slot_no r) (rid_ e) Hp' Hsl')
    as (p' & sl' & r' & H1 & H2 & H3 & H4 & H5); [rewrite Hrt; simpl in Hl2; lia|].
  rewrite H5. cbn [fst snd].
  assert (Hlen : (length (RmScan.rest f p' sl') <= length t)%nat)
    by (rewrite H3, Hrt; apply skip_length).
  unfold ret at 1. cbv iota beta. rewrite (IH p' sl' (set_scan e (RmScan.mkRmScan (Some f) (hd RmScan.end_rid (RmScan.rest f p' sl'))) r'));
    try done; try (simpl in Hl1, Hl2; lia).
  - unfold rid. rewrite (Hrid r t eq_refl). simpl. rewrite Hpass.
    by rewrite H3, filter_skip, Hrt.
  - by rewrite H3, skip_idem.
Qed.

Lemma run_spec e lf fuel :
  tab_name_ e = tab -> context_ e = false ->
  (length (RmScan.rest f RM_FIRST_RECORD_PAGE (-1)) < fuel)%nat ->
  (length (RmScan.rest f RM_FIRST_RECORD_PAGE (-1)) < lf)%nat ->
  run check_conditions lf e fuel s = Ok (List.filter passes (RmScan.rest f RM_FIRST_RECORD_PAGE (-1))) s.
Proof.
  intros Ht Hc Hl1 Hl2. unfold run, beginTuple, bind, fh_of. rewrite Ht, Hf, Hc.
  simpl. rewrite (RmScan.new_spec f s Hpr).
  destruct (scan_loop_spec lf RM_FIRST_RECORD_PAGE (-1) (rid_ e)) as (p' & sl' & r' & H1 & H2 & H3 & H4 & H5);
    [unfold RM_FIRST_RECORD_PAGE; lia|lia|done|].
  rewrite H5. cbn [fst snd].
  assert (Hlen : (length (RmScan.rest f p' sl') <= length (RmScan.rest f RM_FIRST_RECORD_PAGE (-1)))%nat)
    by (rewrite H3; apply skip_length).
  unfold ret at 1. cbv iota beta. rewrite (drive_spec lf fuel p' sl'); try done; try lia.
  all: first [by rewrite H3, filter_skip | by rewrite H3, skip_idem | simpl; by rewrite Ht].
Qed.

End Proofs.

Lemma StronglySorted_filter {A} (R : A -> A -> Prop) (P : A -> bool) l :
  StronglySorted R l -> StronglySorted R (List.filter P l).
Proof.
  induction 1 as [|a l Hs IH Hf]; simpl; [constructor|].
  destruct (P a); [|done]. constructor; [done|].
  apply Forall_forall. intros x Hx. apply list_elem_of_In, filter_In in Hx as [Hx _].
  rewrite Forall_forall in Hf. apply Hf. by apply list_elem_of_In.
Qed.

End SeqScan.

(* ------------------------------------------------------------------ *)
(** *** Releasing the locks of a transaction *)

(** The request queue of [id], if the lock table has one. *)
Definition rq (s : DbState) (id : LockDataId) : option (list LockRequest) :=
  option_map request_queue_ (lock_table s !! id).

(** A queue without the requests of transaction [tid]. *)
Definition drop_txn (tid : Z) (rs : list LockRequest) : list LockRequest :=
  List.filter (fun r => negb (txn_id_ r =? tid)) rs.

Lemma drop_txn_none tid rs : (forall r, In r rs -> txn_id_ r <> tid) -> drop_txn tid rs = rs.
Proof.
  induction rs as [|r rs IH]; intros H; simpl; [done|].
  assert ((txn_id_ r =? tid) = false) as -> by (apply Z.eqb_neq, H; left; done).
  simpl. f_equal. apply IH. intros x Hx. apply H. by right.
Qed.

Lemma drop_txn_idem tid rs : drop_txn tid (drop_txn tid rs) = drop_txn tid rs.
Proof.
  apply drop_txn_none. intros r Hr. unfold drop_txn in Hr.
  apply filter_In in Hr as [_ Hr]. apply negb_true_iff, Z.eqb_neq in Hr. exact Hr.
Qed.

Lemma erase_first_drop tid rs : NoDup (map txn_id_ rs) ->
  match erase_first tid rs with
  | Some rs' => rs' = drop_txn tid rs
  | None => drop_txn tid rs = rs
  end.
Proof.
  induction rs as [|r rs IH]; intros Hnd; simpl; [done|].
  simpl in Hnd. apply NoDup_cons in Hnd as [Hr Hnd].
  destruct (txn_id_ r =? tid) eqn:E; simpl.
  - symmetry. apply drop_txn_none. intros x Hx Hxt. apply Z.eqb_eq in E. subst tid.
    apply Hr. apply list_elem_of_In, in_map_iff. exists x. split; [exact Hxt|exact Hx].
  - specialize (IH Hnd). destruct (erase_first tid rs); simpl; congruence.
Qed.

Lemma unlock_spec id s : lock_inv s ->
  exists b s', unlock id s = Ok b s' /\ fhs s' = fhs s /\ events s' = events s /\
    txn_id (txn s') = txn_id (txn s) /\ lock_inv s' /\
    forall id', rq s' id' =
      if bool_decide (id' = id) then option_map (drop_txn (txn_id (txn s))) (rq s id')
      else rq s id'.
Proof.
  intros Hinv. pose proof (unlock_inv id s Hinv) as Hinv'.
  unfold unlock in *. unfold rq.
  destruct (lock_table s !! id) as [q|] eqn:Hl.
  - destruct (Hinv id q Hl) as (_ & _ & Hnd & _).
    pose proof (erase_first_drop (txn_id (txn s)) (request_queue_ q) Hnd) as He.
    destruct (erase_first _ _) as [rs'|] eqn:Ee.
    + eexists _, _. split; [reflexivity|]. simpl in *. split_and!; try done.
      intros id'. case_bool_decide as Hid.
      * subst id'. rewrite lookup_insert_eq, Hl. simpl. by rewrite He.
      * by rewrite lookup_insert_ne by congruence.
    + eexists _, _. split; [reflexivity|]. split_and!; try done.
      intros id'. case_bool_decide as Hid; [|done].
      subst id'. rewrite Hl. simpl. by rewrite He.
  - eexists _, _. split; [reflexivity|]. split_and!; try done.
    intros id'. case_bool_decide as Hid; [|done]. subst id'. by rewrite Hl.
Qed.

Lemma unlock_all_spec ids : forall s, lock_inv s ->
  exists s', unlock_all ids s = Ok tt s' /\ fhs s' = fhs s /\ events s' = events s /\
    txn_id (txn s') = txn_id (txn s) /\ lock_inv s' /\
    forall id, rq s' id =
      if bool_decide (id ∈ ids) then option_map (drop_txn (txn_id (txn s))) (rq s id)
      else rq s id.
Proof.
  induction ids as [|id0 ids IH]; intros s Hinv; simpl.
  - exists s. split_and!; try done.
    all: intros id; case_bool_decide as H; [by apply list_elem_of_nil in H|done].
  - destruct (unlock_spec id0 s Hinv) as (b & s1 & Hu & Hf1 & He1 & Ht1 & Hi1 & Hq1).
    destruct (IH s1 Hi1) as (s2 & Hu2 & Hf2 & He2 & Ht2 & Hi2 & Hq2).
    exists s2. unfold bind. rewrite Hu. split_and!; try congruence.
    { exact Hi2. }
    intros id. rewrite Hq2, Hq1, Ht1.
    destruct (decide (id = id0)) as [->|Hne].
    + rewrite (bool_decide_eq_true_2 (id0 = id0)) by done.
      rewrite (bool_decide_eq_true_2 (id0 ∈ id0 :: ids)) by apply list_elem_of_here.
      case_bool_decide; [|done].
      destruct (rq s id0); simpl; [by rewrite drop_txn_idem|done].
    + rewrite (bool_decide_eq_false_2 (id = id0)) by done.
      case_bool_decide as Hin; case_bool_decide as Hin'; try done.
      * exfalso. apply Hin'. by apply list_elem_of_further.
      * exfalso. apply elem_of_cons in Hin' as [|]; [done|]. by apply Hin.
Qed.

(* ------------------------------------------------------------------ *)
(** ** Facts about the B+tree node operations *)

Module IxNode.
Import Ix.

(** *** Sorted node arrays *)

Lemma StronglySorted_app {A} (R : A -> A -> Prop) l1 l2 :
  StronglySorted R (l1 ++ l2) <->
  StronglySorted R l1 /\ StronglySorted R l2 /\ (forall a b, In a l1 -> In b l2 -> R a b).
Proof.
  induction l1 as [|x l1 IH]; simpl.
  - split; [intros H; split_and!; [constructor|done|done]|intros (_ & H & _); exact H].
  - split.
    + intros H. apply StronglySorted_inv in H as [H Hx]. apply IH in H as (H1 & H2 & H3).
      pose proof (proj1 (List.Forall_forall _ _) Hx) as Hx'.
      split_and!; [constructor; [done|] | done |].
      * apply List.Forall_forall. intros y Hy. apply Hx'. apply in_app_iff. by left.
      * intros a b [<-|Ha] Hb; [apply Hx'; apply in_app_iff; by right|by apply H3].
    + intros (H1 & H2 & H3). apply StronglySorted_inv in H1 as [H1 Hx].
      constructor; [apply IH; split_and!; [done|done|]|].
      * intros a b Ha Hb. apply H3; [by right|done].
      * apply List.Forall_forall. intros y Hy. apply in_app_iff in Hy as [Hy|Hy].
        -- by apply (proj1 (List.Forall_forall _ _) Hx).
        -- apply H3; [by left|done].
Qed.

Lemma StronglySorted_lookup {A} (R : A -> A -> Prop) l i j a b :
  StronglySorted R l -> (i < j)%nat -> l !! i = Some a -> l !! j = Some b -> R a b.
Proof.
  revert i j; induction l as [|x l IH]; intros i j Hs Hij Hi Hj; [done|].
  apply StronglySorted_inv in Hs as [Hs Hx].
  destruct j as [|j]; [lia|]. simpl in Hj.
  destruct i as [|i]; simpl in Hi.
  - injection Hi as <-. apply (proj1 (List.Forall_forall _ _) Hx). apply list_elem_of_In; by eapply list_elem_of_lookup_2.
  - apply (IH i j); [done|lia|done|done].
Qed.

Lemma StronglySorted_lt_le (l : list Z) : StronglySorted Z.lt l -> StronglySorted Z.le l.
Proof.
  induction 1 as [|a l Hs IH Hf]; constructor; [done|].
  eapply Forall_impl; [exact Hf|]. intros x Hx; simpl in *; lia.
Qed.

Lemma ix_compare_lt a b : (ix_compare a b <? 0) = true <-> a < b.
Proof. unfold ix_compare. destruct (Z.compare_spec a b); simpl; split; intros; (congruence || lia). Qed.

Lemma ix_compare_le a b : (ix_compare a b <=? 0) = true <-> a <= b.
Proof. unfold ix_compare. destruct (Z.compare_spec a b); simpl; split; intros; (congruence || lia). Qed.

Lemma ix_compare_eq a b : (ix_compare a b =? 0) = true <-> a = b.
Proof. unfold ix_compare. destruct (Z.compare_spec a b); simpl; split; intros; (congruence || lia). Qed.

Lemma get_key_lookup n i : 0 <= i < get_size n -> keys n !! Z.to_nat i = Some (get_key n i).
Proof.
  intros H. unfold get_key, get_size in *.
  destruct (lookup_lt_is_Some_2 (keys n) (Z.to_nat i)) as [x Hx]; [lia|]. by rewrite Hx.
Qed.

Lemma get_rid_lookup n i : 0 <= i -> (Z.to_nat i < length (rids n))%nat ->
  rids n !! Z.to_nat i = Some (get_rid n i).
Proof.
  intros H0 H. unfold get_rid.
  destruct (lookup_lt_is_Some_2 (rids n) (Z.to_nat i)) as [x Hx]; [lia|]. by rewrite Hx.
Qed.

Lemma get_key_mono n i j : StronglySorted Z.le (keys n) -> 0 <= i <= j -> j < get_size n ->
  get_key n i <= get_key n j.
Proof.
  intros Hs Hij Hj. destruct (Z.eq_dec i j) as [->|Hne]; [lia|].
  apply (StronglySorted_lookup Z.le (keys n) (Z.to_nat i) (Z.to_nat j)); [done|lia| |];
    apply get_key_lookup; lia.
Qed.

Lemma lower_bound_go_spec n t fuel : StronglySorted Z.le (keys n) -> forall l r res,
  0 <= l <= r -> r <= get_size n -> (Z.to_nat (r - l) < fuel)%nat ->
  (forall i, 0 <= i < l -> get_key n i < t) -> (forall i, r <= i < get_size n -> t <= get_key n i) ->
  res = lower_bound_go fuel n t l r ->
  l <= res <= r /\ (forall i, 0 <= i < res -> get_key n i < t) /\
  (forall i, res <= i < get_size n -> t <= get_key n i).
Proof.
  intros Hs. induction fuel as [|fuel IH]; intros l r res Hl Hr Hf Hlo Hhi ->; [lia|].
  simpl. destruct (l <? r) eqn:Hlr.
  - apply Z.ltb_lt in Hlr.
    assert (Hm : l <= l + (r - l) / 2 < r)
      by (pose proof (Z.div_pos (r - l) 2 ltac:(lia) ltac:(lia)); pose proof (Z.div_lt (r - l) 2 ltac:(lia) ltac:(lia)); lia).
    set (mid := l + (r - l) / 2) in *. clearbody mid.
    destruct (ix_compare (get_key n mid) t <? 0) eqn:Hc.
    + apply ix_compare_lt in Hc.
      edestruct (IH (mid + 1) r) as (H1 & H2 & H3); [lia|lia|lia| |exact Hhi|reflexivity|].
      * intros i Hi. destruct (Z.lt_ge_cases i l); [apply Hlo; lia|].
        pose proof (get_key_mono n i mid Hs ltac:(lia) ltac:(lia)). lia.
      * split_and!; [lia|lia|exact H2|exact H3].
    + assert (Hc' : t <= get_key n mid).
      { destruct (Z.le_gt_cases t (get_key n mid)) as [?|Hgt]; [done|].
        apply ix_compare_lt in Hgt. congruence. }
      edestruct (IH l mid) as (H1 & H2 & H3); [lia|lia|lia|exact Hlo| |reflexivity|].
      * intros i Hi. destruct (Z.lt_ge_cases i r); [|apply Hhi; lia].
        pose proof (get_key_mono n mid i Hs ltac:(lia) ltac:(lia)). lia.
      * split_and!; [lia|lia|exact H2|exact H3].
  - apply Z.ltb_ge in Hlr. assert (l = r) as <- by lia. split_and!; [lia|lia|exact Hlo|exact Hhi].
Qed.

Lemma upper_bound_go_spec n t fuel : StronglySorted Z.le (keys n) -> forall l r res,
  1 <= l <= r -> r <= get_size n -> (Z.to_nat (r - l) < fuel)%nat ->
  (forall i, 1 <= i < l -> get_key n i <= t) -> (forall i, r <= i < get_size n -> t < get_key n i) ->
  res = upper_bound_go fuel n t l r ->
  l <= res <= r /\ (forall i, 1 <= i < res -> get_key n i <= t) /\
  (forall i, res <= i < get_size n -> t < get_key n i).
Proof.
  intros Hs. induction fuel as [|fuel IH]; intros l r res Hl Hr Hf Hlo Hhi ->; [lia|].
  simpl. destruct (l <? r) eqn:Hlr.
  - apply Z.ltb_lt in Hlr.
    assert (Hm : l <= l + (r - l) / 2 < r)
      by (pose proof (Z.div_pos (r - l) 2 ltac:(lia) ltac:(lia)); pose proof (Z.div_lt (r - l) 2 ltac:(lia) ltac:(lia)); lia).
    set (mid := l + (r - l) / 2) in *. clearbody mid.
    destruct (ix_compare (get_key n mid) t <=? 0) eqn:Hc.
    + apply ix_compare_le in Hc.
      edestruct (IH (mid + 1) r) as (H1 & H2 & H3); [lia|lia|lia| |exact Hhi|reflexivity|].
      * intros i Hi. destruct (Z.lt_ge_cases i l); [apply Hlo; lia|].
        pose proof (get_key_mono n i mid Hs ltac:(lia) ltac:(lia)). lia.
      * split_and!; [lia|lia|exact H2|exact H3].
    + assert (Hc' : t < get_key n mid).
      { destruct (Z.lt_ge_cases t (get_key n mid)) as [?|Hgt]; [done|].
        apply ix_compare_le in Hgt. congruence. }
      edestruct (IH l mid) as (H1 & H2 & H3); [lia|lia|lia|exact Hlo| |reflexivity|].
      * intros i Hi. destruct (Z.lt_ge_cases i r); [|apply Hhi; lia].
        pose proof (get_key_mono n mid i Hs ltac:(lia) ltac:(lia)). lia.
      * split_and!; [lia|lia|exact H2|exact H3].
  - apply Z.ltb_ge in Hlr. assert (l = r) as <- by lia. split_and!; [lia|lia|exact Hlo|exact Hhi].
Qed.

Lemma lower_bound_bounds n t : StronglySorted Z.le (keys n) ->
  0 <= lower_bound n t <= get_size n /\
  (forall i, 0 <= i < lower_bound n t -> get_key n i < t) /\
  (forall i, lower_bound n t <= i < get_size n -> t <= get_key n i).
Proof.
  intros Hs. unfold lower_bound.
  edestruct (lower_bound_go_spec n t (S (length (keys n))) Hs 0 (get_size n)) as (H1 & H2 & H3);
    [unfold get_size; lia|lia|unfold get_size; lia|lia|lia|reflexivity|].
  split_and!; [lia|lia|exact H2|exact H3].
Qed.


Lemma zip_fst {A B} (a : A) (b : B) l k : (a, b) ∈ zip l k -> In a l.
Proof.
  intros H. apply elem_of_lookup_zip_with in H as (i & x & y & E & Hx & _).
  injection E as -> ->. apply list_elem_of_In. by eapply list_elem_of_lookup_2.
Qed.

(** [leaf_lookup] on a node with strictly increasing keys finds exactly
    the pairs of the node. *)
Lemma leaf_lookup_iff n k r : StronglySorted Z.lt (keys n) -> length (rids n) = length (keys n) ->
  leaf_lookup n k = Some r <-> (k, r) ∈ zip (keys n) (rids n).
Proof.
  intros Hs Hl. pose proof (StronglySorted_lt_le _ Hs) as Hle.
  destruct (lower_bound_bounds n k Hle) as (Hb & Hlo & Hhi).
  unfold leaf_lookup. set (p := lower_bound n k) in *. split.
  - destruct (p <? get_size n) eqn:Hp; [|discriminate]. apply Z.ltb_lt in Hp.
    destruct (ix_compare (get_key n p) k =? 0) eqn:Hc; [|discriminate]. apply ix_compare_eq in Hc.
    intros [= <-]. apply elem_of_lookup_zip_with. exists (Z.to_nat p), k, (get_rid n p).
    split_and!; [done| |].
    + rewrite <- Hc. apply get_key_lookup. lia.
    + apply get_rid_lookup; [lia|]. unfold get_size in Hp. lia.
  - intros H. apply elem_of_lookup_zip_with in H as (i & x & y & E & Hx & Hy).
    injection E as <- <-.
    assert (Hi : (i < length (keys n))%nat) by (apply lookup_lt_Some in Hx; done).
    assert (Hki : get_key n (Z.of_nat i) = k).
    { pose proof (get_key_lookup n (Z.of_nat i) ltac:(unfold get_size; lia)) as G.
      rewrite Nat2Z.id in G. congruence. }
    assert (Hpi : p = Z.of_nat i).
    { destruct (Z.lt_trichotomy p (Z.of_nat i)) as [Hlt|[Heq|Hgt]]; [|done|].
      - exfalso. pose proof (Hhi p ltac:(unfold get_size in *; lia)).
        pose proof (StronglySorted_lookup Z.lt (keys n) (Z.to_nat p) i (get_key n p) k Hs
                      ltac:(lia) ltac:(apply get_key_lookup; unfold get_size; lia) Hx). lia.
      - exfalso. pose proof (Hlo (Z.of_nat i) ltac:(lia)). lia. }
    rewrite Hpi. replace (Z.of_nat i <? get_size n) with true
      by (symmetry; apply Z.ltb_lt; unfold get_size; lia).
    rewrite Hki. replace (ix_compare k k =? 0) with true by (symmetry; by apply ix_compare_eq).
    f_equal. pose proof (get_rid_lookup n (Z.of_nat i) ltac:(lia) ltac:(lia)) as G.
    rewrite Nat2Z.id in G. congruence.
Qed.

Lemma leaf_lookup_ext n n' k :
  StronglySorted Z.lt (keys n) -> length (rids n) = length (keys n) ->
  StronglySorted Z.lt (keys n') -> length (rids n') = length (keys n') ->
  (forall r, (k, r) ∈ zip (keys n') (rids n') <-> (k, r) ∈ zip (keys n) (rids n)) ->
  leaf_lookup n' k = leaf_lookup n k.
Proof.
  intros Hs Hl Hs' Hl' H. apply option_eq. intros r.
  rewrite (leaf_lookup_iff n' k r Hs' Hl'), (leaf_lookup_iff n k r Hs Hl). apply H.
Qed.


Lemma in_take_lt (K : list Z) P a : In a (take P K) -> exists i, (i < P)%nat /\ K !! i = Some a.
Proof.
  intros H. apply list_elem_of_In, list_elem_of_lookup in H as [i Hi].
  rewrite lookup_take in Hi. destruct (decide (i < P)%nat); [|discriminate]. by exists i.
Qed.

Lemma in_drop_ge {A} (K : list A) P b : In b (drop P K) -> exists j, K !! (P + j)%nat = Some b.
Proof.
  intros H. apply list_elem_of_In, list_elem_of_lookup in H as [j Hj].
  rewrite lookup_drop in Hj. by exists j.
Qed.

Lemma get_key_of_lookup n i a : keys n !! i = Some a -> get_key n (Z.of_nat i) = a.
Proof. intros H. unfold get_key. by rewrite Nat2Z.id, H. Qed.

Lemma size_of_lookup n i a : keys n !! i = Some a -> Z.of_nat i < get_size n.
Proof. intros H. apply lookup_lt_Some in H. unfold get_size. lia. Qed.

End IxNode.

Module Projection.

(** The column metadata the executors hand on ([ColMeta]): the table and
    column names, the type, and the length and offset in the record. The
    fields of [TabCol] carry a [tc_] prefix, as Rocq gives record fields
    one name space. *)
Record ColMeta := mkColMeta {
  tab_name : string;
  name : string;
  type : ColType;
  len : Z;
  offset : Z }.

Record TabCol := mkTabCol { tc_tab_name : string; tc_col_name : string }.

(** Modelled from the spec: [AbstractExecutor::get_col] (executor_abstract.h
    is not in the sources), the position of the first column with the
    target's table and column name; a missing column throws. *)
Definition get_col (rec_cols : list ColMeta) (target : TabCol) : option (nat * ColMeta) :=
  list_find (fun col => tab_name col = tc_tab_name target /\ name col = tc_col_name target)
    rec_cols.

Record ProjectionExecutor := mkProjection {
  sel_idxs_ : list nat;
  cols_ : list ColMeta;
  len_ : Z }.

(** The loop of the constructor from [curr_offset] on: each selected column
    is found among the child's columns, its position recorded, and a copy
    of its metadata placed at [curr_offset]; [None] when [get_col]
    throws. *)
Fixpoint layout (prev_cols : list ColMeta) (sel_cols : list TabCol) (curr_offset : Z)
    : option (list nat * list ColMeta * Z) :=
  match sel_cols with
  | [] => Some ([], [], curr_offset)
  | sel_col :: rest =>
      match get_col prev_cols sel_col with
      | None => None
      | Some (pos, col) =>
          let col' := mkColMeta (tab_name col) (name col) (type col) (len col) curr_offset in
          match layout prev_cols rest (curr_offset + len col) with
          | None => None
          | Some (idxs, cols, l) => Some (pos :: idxs, col' :: cols, l)
          end
      end
  end.

(** [ProjectionExecutor::ProjectionExecutor(prev, sel_cols)], with
    [prev_cols = prev_->cols()]. *)
Definition new (prev_cols : list ColMeta) (sel_cols : list TabCol) : option ProjectionExecutor :=
  match layout prev_cols sel_cols 0 with
  | Some (idxs, cols, l) => Some (mkProjection idxs cols l)
  | None => None
  end.

Definition no_col : ColMeta := mkColMeta "" "" TYPE_INT 0 0.

(** The loop of [Next] over [i], pairing [sel_idxs_[i]] with [cols_[i]]:
    the bytes of [prev_cols[idx]] in [prev_rec] are copied to
    [proj_col.offset] of the output buffer. *)
Fixpoint copy_cols (prev_cols : list ColMeta) (prev_rec : list Byte.byte)
    (idxs : list nat) (cols : list ColMeta) (proj : list Byte.byte) : list Byte.byte :=
  match idxs, cols with
  | idx :: idxs', proj_col :: cols' =>
      let prev_col := nth idx prev_cols no_col in
      copy_cols prev_cols prev_rec idxs' cols'
        (memcpy proj (Z.to_nat (offset proj_col))
           (drop (Z.to_nat (offset prev_col)) prev_rec) (Z.to_nat (len prev_col)))
  | _, _ => proj
  end.

(** [ProjectionExecutor::Next]: [prev_rec] is the child's current record
    and [proj] the fresh [RmRecord(len_)], whose bytes are not
    initialised. *)
Definition Next (e : ProjectionExecutor) (prev_cols : list ColMeta)
    (prev_rec proj : list Byte.byte) : list Byte.byte :=
  copy_cols prev_cols prev_rec (sel_idxs_ e) (cols_ e) proj.

(** The bytes of column [c] in a record. *)
Definition col_bytes (rec : list Byte.byte) (c : ColMeta) : list Byte.byte :=
  take (Z.to_nat (len c)) (drop (Z.to_nat (offset c)) rec).

Lemma memcpy_spec dst off src n :
  (off + n <= length dst)%nat -> (n <= length src)%nat ->
  memcpy dst off src n = take off dst ++ take n src ++ drop (off + n) dst.
Proof.
  revert dst off src. induction n as [|n IH]; intros dst off src Hd Hs.
  - rewrite Nat.add_0_r. simpl take. rewrite app_nil_l, take_drop. by destruct src.
  - destruct src as [|b src]; simpl in Hs; [lia|]. simpl.
    rewrite IH by (rewrite ?length_insert; lia).
    assert (Hl : (off < length dst)%nat) by lia.
    rewrite take_S_r with (x := b) by (by rewrite list_lookup_insert_eq).
    rewrite take_insert_ge by lia.
    rewrite drop_insert_lt by lia.
    rewrite <- app_assoc. simpl. by rewrite Nat.add_succ_r.
Qed.

(** A column lies within the record [rec]. *)
Definition fits (rec : list Byte.byte) (c : ColMeta) : Prop :=
  0 <= offset c /\ 0 <= len c /\ offset c + len c <= Z.of_nat (length rec).

Definition total_len (cs : list ColMeta) : Z := foldr (fun c acc => len c + acc) 0 cs.

(** The child columns [get_col] finds for the selected columns. *)
Definition found (prev_cols : list ColMeta) (sel_cols : list TabCol) (cs : list ColMeta) : Prop :=
  Forall2 (fun tc c => exists pos, get_col prev_cols tc = Some (pos, c)) sel_cols cs.

Lemma get_col_elem prev_cols tc pos c :
  get_col prev_cols tc = Some (pos, c) -> prev_cols !! pos = Some c.
Proof. unfold get_col. intros H. apply list_find_Some in H. tauto. Qed.

Lemma layout_total prev_cols sel o idxs cols l :
  layout prev_cols sel o = Some (idxs, cols, l) ->
  exists cs, found prev_cols sel cs /\ l = o + total_len cs /\
    length idxs = length cs /\
    (forall i idx, idxs !! i = Some idx -> prev_cols !! idx = cs !! i) /\
    (forall i c, cols !! i = Some c -> exists c0, cs !! i = Some c0 /\
       c = mkColMeta (tab_name c0) (name c0) (type c0) (len c0) (o + total_len (take i cs))) /\
    length cols = length cs.
Proof.
  revert o idxs cols l. induction sel as [|tc rest IH]; intros o idxs cols l H; simpl in H.
  - injection H as <- <- <-. exists []. split_and!; [constructor|simpl; lia|done| | |done].
    + intros i idx Hi. by rewrite lookup_nil in Hi.
    + intros i c Hc. by rewrite lookup_nil in Hc.
  - destruct (get_col prev_cols tc) as [[pos col]|] eqn:Hg; [|discriminate].
    destruct (layout prev_cols rest (o + len col)) as [[[idxs' cols'] l']|] eqn:Hr; [|discriminate].
    injection H as <- <- <-.
    destruct (IH _ _ _ _ Hr) as (cs & Hcs & El & Hli & Hidx & Hcols & Hlc).
    exists (col :: cs). split_and!.
    + constructor; eauto.
    + simpl; lia.
    + simpl; lia.
    + intros [|i] idx Hi; simpl in Hi.
      * injection Hi as <-. exact (get_col_elem _ _ _ _ Hg).
      * exact (Hidx i idx Hi).
    + intros [|i] c Hc; simpl in Hc.
      * injection Hc as <-. exists col. split; [done|]. simpl. f_equal; lia.
      * destruct (Hcols i c Hc) as (c0 & Hc0 & ->). exists c0. split; [done|].
        simpl. f_equal; lia.
    + simpl; lia.
Qed.

Section Copy.

Variable prev_cols : list ColMeta.
Variable prev_rec : list Byte.byte.
Hypothesis Hfit : forall c, c ∈ prev_cols -> fits prev_rec c.

Lemma found_fits sel cs : found prev_cols sel cs -> forall c, c ∈ cs -> fits prev_rec c.
Proof.
  induction 1 as [|tc c sel cs (pos & Hg) _ IH]; intros c' Hc'.
  - set_solver.
  - apply elem_of_cons in Hc' as [->|Hc'].
    + apply Hfit, (list_elem_of_lookup_2 _ pos), (get_col_elem _ tc), Hg.
    + by apply IH.
Qed.

Lemma total_len_nonneg cs : (forall c, c ∈ cs -> fits prev_rec c) -> 0 <= total_len cs.
Proof.
  induction cs as [|c cs IH]; intros H; simpl; [lia|].
  destruct (H c (list_elem_of_here _ _)) as (_ & Hl & _).
  assert (0 <= total_len cs) by (apply IH; intros c' Hc'; apply H, list_elem_of_further, Hc').
  unfold total_len in *. lia.
Qed.

Lemma copy_cols_spec sel o idxs cols l dst :
  layout prev_cols sel o = Some (idxs, cols, l) -> 0 <= o -> (Z.to_nat l <= length dst)%nat ->
  exists cs, found prev_cols sel cs /\ l = o + total_len cs /\
    copy_cols prev_cols prev_rec idxs cols dst =
      take (Z.to_nat o) dst ++ concat (map (col_bytes prev_rec) cs) ++ drop (Z.to_nat l) dst.
Proof.
  revert o idxs cols l dst.
  induction sel as [|tc rest IH]; intros o idxs cols l dst H Ho Hl; simpl in H.
  - injection H as <- <- <-. exists []. split_and!; [constructor|simpl; lia|].
    simpl. by rewrite take_drop.
  - destruct (get_col prev_cols tc) as [[pos col]|] eqn:Hg; [|discriminate].
    destruct (layout prev_cols rest (o + len col)) as [[[idxs' cols'] l']|] eqn:Hr; [|discriminate].
    injection H as <- <- <-.
    pose proof (get_col_elem _ _ _ _ Hg) as Hc.
    destruct (Hfit col (list_elem_of_lookup_2 _ _ _ Hc)) as (Hoff & Hlen & Hend).
    destruct (layout_total _ _ _ _ _ _ Hr) as (cs0 & Hcs0 & El & _).
    pose proof (total_len_nonneg cs0 (found_fits _ _ Hcs0)).
    simpl. rewrite (nth_lookup_Some _ _ _ _ Hc). simpl.
    rewrite memcpy_spec by (rewrite ?length_drop; lia).
    fold (col_bytes prev_rec col).
    assert (L1 : length (take (Z.to_nat o) dst) = Z.to_nat o) by (rewrite length_take; lia).
    assert (L2 : length (col_bytes prev_rec col) = Z.to_nat (len col))
      by (unfold col_bytes; rewrite length_take, length_drop; lia).
    edestruct IH as (cs & Hcs & El' & ->); [exact Hr|lia| |].
    { rewrite !length_app, L1, L2, length_drop. lia. }
    exists (col :: cs). split_and!; [constructor; eauto|simpl; lia|].
    rewrite (app_assoc (take (Z.to_nat o) dst) (col_bytes prev_rec col)).
    rewrite take_app_length' by (rewrite length_app; lia).
    rewrite drop_app_ge by (rewrite length_app; lia).
    rewrite drop_drop, length_app, L1, L2.
    replace (Z.to_nat o + Z.to_nat (len col) + (Z.to_nat l' - (Z.to_nat o + Z.to_nat (len col))))%nat
      with (Z.to_nat l') by lia.
    simpl. by rewrite !app_assoc.
Qed.

End Copy.

End Projection.

Module IxChain.
Import Ix.

(** [IxIndexHandle::erase_leaf]: the predecessor of the leaf is linked to
    its successor and back; a node that is not a leaf fails the
    assertion. *)
Definition erase_leaf (leaf_pno : Z) : M IxState unit :=
  leaf <- fetch_node leaf_pno ;;
  if is_leaf leaf then
    update_node (prev_leaf leaf) (set_next_leaf (next_leaf leaf)) ;;;
    update_node (next_leaf leaf) (set_prev_leaf (prev_leaf leaf))
  else throw INTERNAL.

Definition nxt (ns : gmap Z IxNode) (p : Z) : option Z := option_map next_leaf (ns !! p).
Definition prv (ns : gmap Z IxNode) (p : Z) : option Z := option_map prev_leaf (ns !! p).

(** Two pages linked both ways in the leaf chain. *)
Definition link (ns : gmap Z IxNode) (a b : Z) : Prop := nxt ns a = Some b /\ prv ns b = Some a.

Fixpoint path (ns : gmap Z IxNode) (l : list Z) : Prop :=
  match l with
  | a :: ((b :: _) as l') => link ns a b /\ path ns l'
  | _ => True
  end.

(** The leaf chain: from the leaf header page through the leaves [ps] and
    back to the header page. *)
Definition leaf_chain (ns : gmap Z IxNode) (ps : list Z) : Prop :=
  path ns (IX_LEAF_HEADER_PAGE :: ps ++ [IX_LEAF_HEADER_PAGE]).

Lemma path_app_cons ns l1 y l2 :
  path ns (l1 ++ y :: l2) <-> path ns (l1 ++ [y]) /\ path ns (y :: l2).
Proof.
  induction l1 as [|c l1 IH]; simpl; [tauto|].
  destruct l1 as [|d l1]; simpl in *; [tauto|]. rewrite IH. tauto.
Qed.

Lemma path_ext ns ns' l :
  (forall c, c ∈ removelast l -> nxt ns' c = nxt ns c) ->
  (forall d, d ∈ tail l -> prv ns' d = prv ns d) ->
  path ns l -> path ns' l.
Proof.
  induction l as [|a l IH]; [done|]. destruct l as [|b l]; [done|].
  intros Hn Hp [[Hab Hba] Hl]. split; [split|].
  - rewrite Hn; [done|]. simpl. apply list_elem_of_here.
  - rewrite Hp; [done|]. simpl. apply list_elem_of_here.
  - apply IH; [| |done].
    + intros c Hc. apply Hn. simpl. destruct l; [by apply elem_of_nil in Hc|].
      by apply list_elem_of_further.
    + intros d Hd. apply Hp. simpl. simpl in Hd. destruct l; [by apply elem_of_nil in Hd|].
      by apply list_elem_of_further.
Qed.

(** The nodes after [erase_leaf] on a leaf [n] with predecessor [a] and
    successor [b]. *)
Definition unlinked (ns : gmap Z IxNode) (a b : Z) (na : IxNode) : gmap Z IxNode :=
  let ns1 := <[a := set_next_leaf b na]> ns in
  match ns1 !! b with
  | Some nb => <[b := set_prev_leaf a nb]> ns1
  | None => ns1
  end.

Lemma erase_leaf_run s x n na nb :
  nodes s !! x = Some n -> is_leaf n = true ->
  nodes s !! prev_leaf n = Some na -> nodes s !! next_leaf n = Some nb ->
  erase_leaf x s = Ok tt (mkIx (file_hdr s) (unlinked (nodes s) (prev_leaf n) (next_leaf n) na)).
Proof.
  intros Hx Hl Ha Hb.
  unfold erase_leaf, update_node, fetch_node, write_node, unlinked, modify, bind, ret.
  rewrite Hx, Hl, Ha. simpl.
  destruct (decide (next_leaf n = prev_leaf n)) as [E|E].
  - rewrite E, lookup_insert_eq. reflexivity.
  - rewrite lookup_insert_ne by congruence. rewrite Hb. reflexivity.
Qed.

Lemma unlinked_nxt ns a b na c :
  ns !! a = Some na -> is_Some (ns !! b) ->
  nxt (unlinked ns a b na) c = if decide (c = a) then Some b else nxt ns c.
Proof.
  intros Ha [nb Hb]. unfold unlinked, nxt.
  destruct (decide (b = a)) as [->|Ne].
  - rewrite lookup_insert_eq.
    destruct (decide (c = a)) as [->|Nc]; simplify_map_eq; reflexivity.
  - rewrite lookup_insert_ne by done. rewrite Hb.
    destruct (decide (c = a)) as [->|Nc]; [simplify_map_eq; reflexivity|].
    destruct (decide (c = b)) as [->|Nb]; simplify_map_eq; reflexivity.
Qed.

Lemma unlinked_prv ns a b na d :
  ns !! a = Some na -> is_Some (ns !! b) ->
  prv (unlinked ns a b na) d = if decide (d = b) then Some a else prv ns d.
Proof.
  intros Ha [nb Hb]. unfold unlinked, prv.
  destruct (decide (b = a)) as [->|Ne].
  - rewrite lookup_insert_eq.
    destruct (decide (d = a)) as [->|Nd]; simplify_map_eq; reflexivity.
  - rewrite lookup_insert_ne by done. rewrite Hb.
    destruct (decide (d = b)) as [->|Nb]; [simplify_map_eq; reflexivity|].
    destruct (decide (d = a)) as [->|Na]; simplify_map_eq; reflexivity.
Qed.

(** The node fields other than the leaf links. *)
Definition node_body (n : IxNode) : bool * Z * list Z * list Rid :=
  (is_leaf n, parent n, keys n, rids n).

Lemma unlinked_body ns a b na p :
  ns !! a = Some na ->
  node_body <$> unlinked ns a b na !! p = node_body <$> ns !! p.
Proof.
  intros Ha. unfold unlinked.
  destruct (<[a:=set_next_leaf b na]> ns !! b) as [nb|] eqn:Hb.
  - destruct (decide (p = b)) as [->|Nb].
    + rewrite lookup_insert_eq. destruct (decide (b = a)) as [->|Nba].
      * rewrite lookup_insert_eq in Hb. injection Hb as <-. by rewrite Ha.
      * rewrite lookup_insert_ne in Hb by done. by rewrite Hb.
    + rewrite lookup_insert_ne by done.
      destruct (decide (p = a)) as [->|Na]; simplify_map_eq; reflexivity.
  - destruct (decide (p = a)) as [->|Na]; simplify_map_eq; reflexivity.
Qed.

Lemma unlinked_frame ns a b na p :
  p <> a -> p <> b -> unlinked ns a b na !! p = ns !! p.
Proof.
  intros Na Nb. unfold unlinked.
  destruct (<[a:=set_next_leaf b na]> ns !! b); simplify_map_eq; reflexivity.
Qed.

End IxChain.

Module IxSplit.
Import Ix.

(** The allocation and leaf-chain facts [split] relies on: the page
    [num_pages_] is not in use, and no leaf links to itself or to that
    page. *)
Definition ix_fresh (s : IxState) : Prop := nodes s !! num_pages_ (file_hdr s) = None.

Definition leaf_links_ok (s : IxState) : Prop :=
  forall p n, nodes s !! p = Some n -> is_leaf n = true ->
    next_leaf n <> p /\ next_leaf n <> num_pages_ (file_hdr s).

(** The node fields [split] reads besides the keys and rids. *)
Definition link_view (n : IxNode) : bool * Z * Z := (is_leaf n, prev_leaf n, next_leaf n).

(** [s'] has the header and the pages of [s], with the same [link_view]. *)
Definition same_links (s s' : IxState) : Prop :=
  file_hdr s' = file_hdr s /\ forall p, link_view <$> nodes s' !! p = link_view <$> nodes s !! p.

Lemma same_links_refl s : same_links s s.
Proof. done. Qed.

Lemma same_links_trans s1 s2 s3 : same_links s1 s2 -> same_links s2 s3 -> same_links s1 s3.
Proof. intros [H1 L1] [H2 L2]. split; [congruence|]. intros p. by rewrite L2, L1. Qed.

Lemma same_links_write s p n n' :
  nodes s !! p = Some n -> link_view n' = link_view n ->
  same_links s (mkIx (file_hdr s) (<[p := n']> (nodes s))).
Proof.
  intros Hn Hv. split; [done|]. intros q. simpl.
  destruct (decide (q = p)) as [->|Hq].
  - rewrite lookup_insert_eq, Hn. simpl. by rewrite Hv.
  - by rewrite lookup_insert_ne by congruence.
Qed.

Lemma same_links_fresh s s' : same_links s s' -> ix_fresh s -> ix_fresh s'.
Proof.
  intros [Hh Hl] Hf. unfold ix_fresh in *. rewrite Hh.
  specialize (Hl (num_pages_ (file_hdr s))). rewrite Hf in Hl.
  by destruct (nodes s' !! num_pages_ (file_hdr s)).
Qed.

Lemma same_links_leaf s s' : same_links s s' -> leaf_links_ok s -> leaf_links_ok s'.
Proof.
  intros [Hh Hl] Hok p n Hn Hleaf. rewrite Hh.
  specialize (Hl p). rewrite Hn in Hl.
  destruct (nodes s !! p) as [m|] eqn:Hm; simpl in Hl; [|discriminate].
  injection Hl as E1 _ E3.
  rewrite E3. apply (Hok p m Hm). congruence.
Qed.

Lemma find_child_ok n c s i s' : find_child n c s = Ok i s' -> s' = s.
Proof. unfold find_child. destruct (list_find _ _) as [[]|]; by intros [= _ <-]. Qed.

Lemma maintain_parent_go_links fuel : forall curr s u s',
  maintain_parent_go fuel curr s = Ok u s' -> same_links s s'.
Proof.
  induction fuel as [|fuel IH]; intros curr s u s' H; simpl in H;
    apply bind_ok in H as (c & s1 & H1 & H); apply fetch_node_ok in H1 as [-> Hc];
    (destruct (parent c =? IX_NO_PAGE); [injection H as _ <-; apply same_links_refl|]);
    [discriminate|].
  apply bind_ok in H as (p & s2 & H2 & H). apply fetch_node_ok in H2 as [-> Hp].
  apply bind_ok in H as (rank & s3 & H3 & H). apply find_child_ok in H3 as ->.
  destruct (get_key p rank =? get_key c 0); [injection H as _ <-; apply same_links_refl|].
  apply bind_ok in H as (u1 & s4 & H4 & H). apply write_node_ok in H4 as ->.
  eapply same_links_trans; [apply (same_links_write _ (parent c) p
    (set_keys_rids p (<[Z.to_nat rank:=get_key c 0]> (keys p)) (rids p))); [exact Hp|reflexivity]|].
  eapply IH, H.
Qed.

Lemma maintain_parent_links pno s u s' : maintain_parent pno s = Ok u s' -> same_links s s'.
Proof. unfold maintain_parent, bind, get. apply maintain_parent_go_links. Qed.

Lemma node_insert_links n key v : link_view (fst (node_insert n key v)) = link_view n.
Proof. unfold node_insert. by destruct (_ && _). Qed.

(** [split] of a node holding [max_size] keys cuts at [max_size / 2]. *)
Lemma split_full s pno node np s' :
  ix_fresh s -> leaf_links_ok s -> nodes s !! pno = Some node ->
  get_size node = max_size (file_hdr s) -> split pno s = Ok np s' ->
  np = num_pages_ (file_hdr s) /\
  exists n1 n2, nodes s' !! pno = Some n1 /\ nodes s' !! np = Some n2 /\
    keys n1 = take (Z.to_nat (max_size (file_hdr s) / 2)) (keys node) /\
    keys n2 = drop (Z.to_nat (max_size (file_hdr s) / 2)) (keys node).
Proof.
  intros Hf Hok Hn Hsz H.
  destruct (split_spec pno s node np s' Hn Hf (Hok pno node Hn) H)
    as [Hp (n1 & n2 & H1 & H2 & K1 & _ & K2 & _)].
  rewrite Hsz in K1, K2. split; [done|]. eauto 7.
Qed.

Lemma insert_entry_split key v s r s' :
  ix_fresh s -> leaf_links_ok s -> insert_entry key v s = Ok r s' ->
  exists leaf leaf' sz, find_leaf_page key s = Ok r s /\ nodes s !! r = Some leaf /\
    node_insert leaf key v = (leaf', sz) /\
    (sz = get_size leaf -> s' = s) /\
    (sz <> get_size leaf ->
       exists s2 l, maintain_parent r (mkIx (file_hdr s) (<[r := leaf']> (nodes s))) = Ok tt s2 /\
         nodes s2 !! r = Some l /\
         (get_size l = max_size (file_hdr s) ->
            exists new_leaf s3 n1 n2, split r s2 = Ok new_leaf s3 /\
              new_leaf = num_pages_ (file_hdr s) /\
              nodes s3 !! r = Some n1 /\ nodes s3 !! new_leaf = Some n2 /\
              keys n1 = take (Z.to_nat (max_size (file_hdr s) / 2)) (keys l) /\
              keys n2 = drop (Z.to_nat (max_size (file_hdr s) / 2)) (keys l) /\
              insert_into_parent (map_size (nodes s3)) r (get_key n2 0) new_leaf s3 = Ok tt s') /\
         (get_size l <> max_size (file_hdr s) -> s' = s2)).
Proof.
  intros Hf Hok H. unfold insert_entry in H.
  apply bind_ok in H as (pno & s0 & H0 & H).
  pose proof (find_leaf_page_pure _ _ _ _ H0) as ->.
  apply bind_ok in H as (leaf & s1 & H1 & H). apply fetch_node_ok in H1 as [-> Hleaf].
  destruct (node_insert leaf key v) as [leaf' sz] eqn:Hins.
  destruct (sz =? get_size leaf) eqn:Esz.
  - apply ret_ok in H as [-> ->]. exists leaf, leaf', sz. split_and!; try done.
    + intros Hne. apply Z.eqb_eq in Esz. congruence.
  - apply Z.eqb_neq in Esz.
    apply bind_ok in H as (u1 & s2 & H2 & H). apply write_node_ok in H2 as ->.
    apply bind_ok in H as (u3 & s3 & H3 & H).
    apply bind_ok in H as (l & s4 & H4 & H). apply fetch_node_ok in H4 as [-> Hl].
    apply bind_ok in H as (h & s5 & H5 & H). apply get_hdr_ok in H5 as [-> ->].
    apply bind_ok in H as (u6 & s6 & H6 & H). apply ret_ok in H as [-> ->].
    assert (Hsl : same_links s s3).
    { eapply same_links_trans; [apply (same_links_write _ pno leaf leaf'); [exact Hleaf|]|].
      - pose proof (node_insert_links leaf key v) as E. by rewrite Hins in E.
      - destruct u3. apply (maintain_parent_links _ _ _ _ H3). }
    destruct Hsl as [Hh Hl3].
    exists leaf, leaf', sz. split_and!; try done.
    intros _. exists s3, l. destruct u3. split_and!; [done|done| |].
    + intros Hmax. rewrite Hh in H6. rewrite Hmax, Z.eqb_refl in H6.
      apply bind_ok in H6 as (nl & s7 & H7 & H6).
      apply bind_ok in H6 as (n2 & s8 & H8 & H6). apply fetch_node_ok in H8 as [-> H8].
      apply bind_ok in H6 as (s9 & s10 & H9 & H6). injection H9 as <- <-.
      destruct (split_full s3 pno l nl s7 ltac:(eapply same_links_fresh; [split; eauto|done])
                  ltac:(eapply same_links_leaf; [split; eauto|done]) Hl ltac:(by rewrite Hh)
                  H7) as [Enl (m1 & m2 & M1 & M2 & K1 & K2)].
      rewrite Hh in Enl, K1, K2. rewrite M2 in H8. injection H8 as <-.
      destruct u6. exists nl, s7, m1, m2. split_and!; done.
    + intros Hmax. rewrite Hh in H6. apply Z.eqb_neq in Hmax. rewrite Hmax in H6.
      by apply ret_ok in H6 as [_ ->].
Qed.

Lemma insert_into_parent_step fuel old key new s s' :
  ix_fresh s -> leaf_links_ok s -> insert_into_parent (S fuel) old key new s = Ok tt s' ->
  exists o, nodes s !! old = Some o /\
    (parent o = IX_NO_PAGE ->
       root_page_ (file_hdr s') = num_pages_ (file_hdr s) /\
       exists rt, nodes s' !! num_pages_ (file_hdr s) = Some rt /\ is_leaf rt = false /\
         keys rt = [get_key o 0; key] /\ map page_no (rids rt) = [old; new]) /\
    (parent o <> IX_NO_PAGE ->
       exists p i nw, nodes s !! parent o = Some p /\ find_child p old s = Ok i s /\
         let p1 := insert_pairs p (i + 1) [key] [{| page_no := new; slot_no := 0 |}] in
         let s1 := mkIx (file_hdr s)
                     (<[new := set_parent (parent o) nw]> (<[parent o := p1]> (nodes s))) in
         <[parent o := p1]> (nodes s) !! new = Some nw /\
         (get_size p1 = max_size (file_hdr s) ->
            exists np s3 n1 n2, split (parent o) s1 = Ok np s3 /\
              np = num_pages_ (file_hdr s) /\
              nodes s3 !! parent o = Some n1 /\ nodes s3 !! np = Some n2 /\
              keys n1 = take (Z.to_nat (max_size (file_hdr s) / 2)) (keys p1) /\
              keys n2 = drop (Z.to_nat (max_size (file_hdr s) / 2)) (keys p1) /\
              insert_into_parent fuel (parent o) (get_key n2 0) np s3 = Ok tt s') /\
         (get_size p1 <> max_size (file_hdr s) -> s' = s1)).
Proof.
  intros Hf Hok H. simpl in H.
  apply bind_ok in H as (o & s0 & H0 & H). apply fetch_node_ok in H0 as [-> Ho].
  exists o. split; [done|].
  destruct (parent o =? IX_NO_PAGE) eqn:Ep.
  - apply Z.eqb_eq in Ep. split; [|intros E; congruence]. intros _.
    ix_step H. ix_step H. ix_step H. ix_step H. ix_step H. ix_step H.
    apply set_hdr_ok in H. subst s'. simpl in *.
    split; [done|].
    assert (HoP : old <> num_pages_ (file_hdr s))
      by (intros E; unfold ix_fresh in Hf; rewrite <- E in Hf; congruence).
    set (P := num_pages_ (file_hdr s)) in *.
    destruct (decide (new = P)) as [->|Hn].
    + rewrite lookup_insert_eq. rewrite lookup_insert_ne in H2 by congruence.
      rewrite lookup_insert_eq in H2. injection H2 as <-.
      eexists; split; [reflexivity|]. split_and!; reflexivity.
    + rewrite lookup_insert_ne by congruence. rewrite lookup_insert_ne by congruence.
      rewrite lookup_insert_eq. eexists; split; [reflexivity|]. split_and!; reflexivity.
  - apply Z.eqb_neq in Ep. split; [intros E; congruence|]. intros _.
    apply bind_ok in H as (p & s1 & H1 & H). apply fetch_node_ok in H1 as [-> Hp].
    apply bind_ok in H as (i & s2 & H2 & H). pose proof (find_child_ok _ _ _ _ _ H2) as ->.
    apply bind_ok in H as (u3 & s3 & H3 & H). apply write_node_ok in H3 as ->.
    apply bind_ok in H as (u4 & s4 & H4 & H). apply update_node_ok in H4 as (nw & Hnw & ->).
    simpl in Hnw. cbn [file_hdr nodes] in H.
    exists p, i, nw. split_and!; [done|done|]. cbv zeta.
    set (p1 := insert_pairs p (i + 1) [key] [{| page_no := new; slot_no := 0 |}]) in *.
    set (s1 := mkIx (file_hdr s) (<[new := set_parent (parent o) nw]> (<[parent o := p1]> (nodes s)))) in *.
    apply bind_ok in H as (p2 & s5 & H5 & H). apply fetch_node_ok in H5 as [-> Hp2].
    apply bind_ok in H as (h & s6 & H6 & H). apply get_hdr_ok in H6 as [-> ->].
    assert (Hp2' : keys p2 = keys p1).
    { simpl in Hp2. destruct (decide (new = parent o)) as [->|Hne].
      - rewrite lookup_insert_eq in Hp2. rewrite lookup_insert_eq in Hnw.
        injection Hnw as <-. by injection Hp2 as <-.
      - rewrite lookup_insert_ne in Hp2 by done. rewrite lookup_insert_eq in Hp2.
        by injection Hp2 as <-. }
    assert (Hsz : get_size p2 = get_size p1) by (unfold get_size; by rewrite Hp2').
    assert (Hsl : same_links s s1).
    { eapply same_links_trans; [apply (same_links_write _ (parent o) p p1); [exact Hp|reflexivity]|].
      exact (same_links_write (mkIx (file_hdr s) (<[parent o := p1]> (nodes s))) new nw
               (set_parent (parent o) nw) Hnw eq_refl). }
    split; [done|]. change (file_hdr s1) with (file_hdr s) in H. rewrite Hsz in H. split.
    + intros Hmax. rewrite Hmax, Z.eqb_refl in H.
      apply bind_ok in H as (np & s7 & H7 & H).
      apply bind_ok in H as (n2 & s8 & H8 & H). apply fetch_node_ok in H8 as [-> H8].
      destruct (split_full s1 (parent o) p2 np s7 (same_links_fresh _ _ Hsl Hf)
                  (same_links_leaf _ _ Hsl Hok) Hp2 ltac:(simpl; congruence) H7)
        as [Enp (m1 & m2 & M1 & M2 & K1 & K2)].
      rewrite M2 in H8. injection H8 as <-. simpl in Enp, K1, K2. rewrite Hp2' in K1, K2.
      exists np, s7, m1, m2. split_and!; done.
    + intros Hmax. apply Z.eqb_neq in Hmax. rewrite Hmax in H. by apply ret_ok in H as [_ ->].
Qed.

(** [leaf_links_ok], checked node by node. *)
Lemma leaf_links_ok_map s :
  map_Forall (fun p n => is_leaf n = true -> next_leaf n <> p /\ next_leaf n <> num_pages_ (file_hdr s))
    (nodes s) -> leaf_links_ok s.
Proof. intros H p n Hn. exact (H p n Hn). Qed.

(** Example states: the capacity-4 index holding 10, 20, 30 (the next
    insert fills its leaf), and the full leaf [10; 20; 30; 40] just split
    into pages 2 and 3. *)
Definition c4_pre : IxState := res_state (insert_keys [10; 20; 30] (ix_empty 4)).
Definition c4_split : IxState := res_state (split 2 c4_full).

End IxSplit.

(* ================================================================== *)
(** * Claims *)

(** C5: after every sequence of lock-manager operations (the five
    acquisition functions and unlock, each made by any transaction), started
    from a lock table whose queues satisfy [queue_inv] (the empty table
    does), the group mode of every queue equals the lattice join of the
    modes of the granted requests remaining in that queue. *)
Theorem group_mode_is_join_of_granted (s : DbState) (Hs : lock_inv s)
    (ops : list (Transaction * LockOp)) (id : LockDataId) (q : LockRequestQueue) :
  lock_table (run_lock_ops ops s) !! id = Some q ->
  group_lock_mode_ q = join_all (request_queue_ q).
Proof.
  intros Hl. apply (run_lock_ops_inv ops s Hs id q Hl).
Qed.

Lemma group_mode_is_join_of_granted_witness :
  lock_inv ex_db /\
  group_lock_mode_ (mkQueue [mkLockRequest 2 LockMode.INTENTION_SHARED true] GroupLockMode.IS)
  = join_all (request_queue_ (mkQueue [mkLockRequest 2 LockMode.INTENTION_SHARED true]
                                      GroupLockMode.IS)).
Proof.
  assert (H0 : lock_inv ex_db) by apply map_Forall_empty.
  split; [exact H0|].
  apply (group_mode_is_join_of_granted ex_db H0 ex_lock_ops (LockTableId 3)).
  vm_compute. reflexivity.
Defined.

(** C6 (as the code behaves): an acquisition of mode [m] on [id] by the
    current transaction T, from a lock table satisfying [lock_inv]:
    - if T is SHRINKING the call fails with LOCK_ON_SHRINKING and changes
      nothing;
    - if T holds no request on [id], the call fails with DEADLOCK_PREVENTION
      and changes nothing exactly when [m] is incompatible with the queue's
      group mode; otherwise a granted request (T, m) is appended, [m] is
      joined into the group mode and [id] is added to T's lock set;
    - if T already holds a request on [id], the call either succeeds (it
      returns at once or upgrades, see C7) or fails with DEADLOCK_PREVENTION
      and changes nothing. *)
Theorem acquisition_admission op id m s :
  acq_target op = Some (id, m) -> lock_inv s ->
  (txn_state (txn s) = TransactionState.SHRINKING ->
     run_lock_op op s = Err LOCK_ON_SHIRINKING s) /\
  (txn_state (txn s) <> TransactionState.SHRINKING ->
     (forall r, r ∈ request_queue_ (queue_of s id) -> txn_id_ r <> txn_id (txn s)) ->
     run_lock_op op s =
       if group_compatible m (group_lock_mode_ (queue_of s id))
       then Ok true (mkDb
         (<[id := mkQueue (request_queue_ (queue_of s id) ++ [mkLockRequest (txn_id (txn s)) m true])
                  (group_join (mode_group m) (group_lock_mode_ (queue_of s id)))]> (lock_table s))
         (add_lock id (txn s)) (fhs s) (events s))
       else Err DEADLOCK_PREVENTION s) /\
  (txn_state (txn s) <> TransactionState.SHRINKING ->
     (exists r, r ∈ request_queue_ (queue_of s id) /\ txn_id_ r = txn_id (txn s)) ->
     (exists s', run_lock_op op s = Ok true s') \/ run_lock_op op s = Err DEADLOCK_PREVENTION s).
Proof.
  intros Ht Hinv. destruct (acq_target_spec _ _ _ Ht) as (dec & c & ng & Hrun & Hc & Hng & _).
  split; [|split].
  - intros Hs. rewrite Hrun. unfold acquire. by rewrite decide_True.
  - intros Hns Hno. rewrite Hrun, acquire_fresh by done.
    pose proof (queue_group_ok id (queue_of s id) (lookup_default_inv _ id Hinv)) as Hok.
    rewrite (Hc _ Hok).
    destruct (group_compatible m _) eqn:Hgc; cbn [negb].
    + rewrite (Hng _); [reflexivity|]. by rewrite (Hc _ Hok), Hgc.
    + unfold queue_of in *. destruct (lock_table s !! id) eqn:Hl; simpl in Hgc.
      * unfold set_lock_table. rewrite insert_id by done. by rewrite db_eta.
      * destruct m; discriminate.
  - by apply (acquire_held_outcome op id m).
Qed.

Lemma acquisition_admission_witness :
  acq_target (OpExclusiveTable 3) = Some (LockTableId 3, LockMode.EXLUCSIVE) /\
  lock_inv ex_db /\ exists s', run_lock_op (OpExclusiveTable 3) ex_db = Ok true s'.
Proof.
  assert (H0 : lock_inv ex_db) by apply map_Forall_empty.
  split; [reflexivity|]. split; [exact H0|].
  destruct (acquisition_admission (OpExclusiveTable 3) (LockTableId 3) LockMode.EXLUCSIVE
              ex_db eq_refl H0) as (_ & Hf & _).
  rewrite Hf.
  - vm_compute. eexists. reflexivity.
  - discriminate.
  - intros r Hr. change (queue_of ex_db (LockTableId 3)) with empty_queue in Hr.
    simpl in Hr. by apply not_elem_of_nil in Hr.
Defined.

(** C6 counterexample: T (transaction 1) already holds a shared lock on a
    row that transaction 2 also holds shared, so T does hold a request on
    the id; the claim then says the exclusive request is granted, but the
    code refuses the upgrade with DEADLOCK_PREVENTION. *)
Lemma ce6_exclusive_after_shared_refused :
  lock_inv ce6_db /\
  txn_state (txn ce6_db) <> TransactionState.SHRINKING /\
  (exists r, r ∈ request_queue_ (queue_of ce6_db (LockRecordId 3 ce6_rid)) /\
             txn_id_ r = txn_id (txn ce6_db)) /\
  exists s', lock_exclusive_on_record ce6_rid 3 ce6_db = Err DEADLOCK_PREVENTION s'.
Proof.
  split; [|split; [discriminate|split]].
  - unfold lock_inv, ce6_db; simpl. rewrite map_Forall_singleton. unfold queue_inv; simpl.
    split_and!; [reflexivity | repeat constructor | | repeat constructor; auto].
    repeat constructor; set_solver.
  - exists (mkLockRequest 1 LockMode.SHARED true). split; [|reflexivity].
    change (queue_of ce6_db (LockRecordId 3 ce6_rid)) with
      (mkQueue [mkLockRequest 1 LockMode.SHARED true; mkLockRequest 2 LockMode.SHARED true]
               GroupLockMode.S).
    simpl. apply elem_of_cons. by left.
  - vm_compute. eexists. reflexivity.
Qed.

(** C7: when the current transaction T holds a granted request of mode
    [m'] on [id] and requests a mode [m] strictly above [m'] in the lattice
    (T not SHRINKING, lock table satisfying [lock_inv]), the call fails with
    DEADLOCK_PREVENTION, changing nothing, exactly when some granted request
    of another transaction has a mode incompatible with [m]; otherwise T's
    request mode becomes [m] and the group mode becomes the join of the
    granted modes of the updated queue. *)
Theorem upgrade_rule op id m s q pre r post :
  acq_target op = Some (id, m) -> lock_inv s ->
  txn_state (txn s) <> TransactionState.SHRINKING ->
  lock_table s !! id = Some q -> request_queue_ q = pre ++ r :: post ->
  txn_id_ r = txn_id (txn s) ->
  group_lt (mode_group (lock_mode_ r)) (mode_group m) = true ->
  if other_incompatible m (pre ++ post)
  then run_lock_op op s = Err DEADLOCK_PREVENTION s
  else run_lock_op op s =
         Ok true (set_lock_table
           (<[id := mkQueue (pre ++ set_mode m r :: post)
                            (join_all (pre ++ set_mode m r :: post))]> (lock_table s)) s).
Proof.
  intros Ht Hinv Hns Hl Hsplit Htid Hlt.
  pose proof (Hinv id q Hl) as Hq.
  destruct (queue_split _ _ _ _ _ Hq Hsplit) as (Hg & Hoc & Hlen).
  rewrite Htid in Hoc.
  destruct Hq as (_ & Hgr & Hnd & Hrec). rewrite Hsplit in Hgr, Hnd.
  assert (Hpre : forall x, x ∈ pre -> txn_id_ x <> txn_id (txn s)).
  { intros x Hx. rewrite <- Htid. apply (own_request_unique _ _ _ Hnd).
    apply elem_of_app. by left. }
  assert (Hr : granted_ r = true).
  { rewrite Forall_forall in Hgr. apply Hgr. apply elem_of_app. right. apply elem_of_cons. by left. }
  assert (Ho : Forall (fun r => granted_ r = true) (pre ++ post)).
  { apply Forall_app in Hgr as [H1 H2]. inversion H2; subst. by apply Forall_app. }
  rewrite (other_incompatible_join _ _ Ho), join_all_upgrade by done.
  rewrite join_all_app. fold (others_join pre post).
  assert (Hm : match id with
                | LockRecordId _ _ =>
                    lock_mode_ r = LockMode.SHARED \/ lock_mode_ r = LockMode.EXLUCSIVE
                | LockTableId _ => True
                end).
  { destruct id; [done|]. simpl in Hrec. rewrite Hsplit, Forall_forall in Hrec.
    apply Hrec. apply elem_of_app. right. apply elem_of_cons. by left. }
  destruct op; simpl in Ht; inversion Ht; subst; clear Ht; cbn [run_lock_op].
  (* lock_shared_on_record: no mode of a row lock is below S *)
  1: destruct Hm as [Hm|Hm]; rewrite Hm in Hlt; discriminate.
  (* lock_IS_on_table: no mode is below IS *)
  4: destruct (lock_mode_ r); discriminate Hlt.
  all: unfold lock_exclusive_on_record, lock_shared_on_table, lock_exclusive_on_table,
         lock_IS_on_table, lock_IX_on_table.
  all: match goal with
       | |- context [acquire _ _ ?dec _ _ _] =>
           destruct (dec q (txn_id (txn s)) r) as [a|] eqn:Hd;
           [rewrite (acquire_held _ _ dec _ _ s q pre r post a Hns Hl Hsplit Htid Hpre Hd)|]
       end.
  all: cbv beta in Hd; rewrite ?Hoc, ?Hlen, ?Hg in Hd.
  all: destruct (lock_mode_ r); destruct (others_join pre post);
         vm_compute in Hlt; try discriminate Hlt;
         vm_compute in Hd; try discriminate Hd;
         try (destruct Hm as [Hm|Hm]; discriminate Hm).
  all: injection Hd as <-.
  all: simpl; reflexivity.
Qed.

Lemma upgrade_rule_witness :
  lock_inv w7_db /\
  run_lock_op (OpSharedTable 3) w7_db =
    Ok true (set_lock_table
      (<[LockTableId 3 := mkQueue [mkLockRequest 1 LockMode.SHARED true;
                                   mkLockRequest 2 LockMode.INTENTION_SHARED true]
                                  GroupLockMode.S]> (lock_table w7_db)) w7_db).
Proof.
  assert (H0 : lock_inv w7_db).
  { unfold lock_inv, w7_db; simpl. rewrite map_Forall_singleton. unfold queue_inv; simpl.
    split_and!; [reflexivity | repeat constructor | repeat constructor; set_solver | done]. }
  split; [exact H0|].
  exact (upgrade_rule (OpSharedTable 3) (LockTableId 3) LockMode.SHARED w7_db
           (mkQueue [mkLockRequest 1 LockMode.INTENTION_SHARED true;
                     mkLockRequest 2 LockMode.INTENTION_SHARED true] GroupLockMode.IS)
           [] (mkLockRequest 1 LockMode.INTENTION_SHARED true)
           [mkLockRequest 2 LockMode.INTENTION_SHARED true]
           eq_refl H0 ltac:(discriminate) eq_refl eq_refl eq_refl eq_refl).
Defined.

(** C3 (code bug): [insert_record_at] does not maintain the free list. A
    transaction deletes the second record of a full page, which links the
    page at the head of the free list; the undo of that delete writes the
    record back with [insert_record_at], which makes the page full again
    but leaves it in the free list. The invariant holds before and after
    the delete and fails after the undo, and the next [insert_record] then
    takes the full page from the free list, finds no clear bit and returns
    the invalid rid {-1, -1} without inserting. *)
Theorem insert_record_at_breaks_heap_inv :
  heap_file_inv c3_db c3_tab = true /\
  (exists s1, delete_record c3_tab c3_rid false c3_db = Ok tt s1 /\
     heap_file_inv s1 c3_tab = true /\
     exists s2, insert_record_at c3_tab c3_rid [Byte.x0b] s1 = Ok tt s2 /\
       heap_file_inv s2 c3_tab = false /\
       exists s3, insert_record c3_tab [Byte.x0c] s2 = Ok {| page_no := -1; slot_no := -1 |} s3).
Proof.
  split; [vm_compute; reflexivity|].
  eexists; split; [vm_compute; reflexivity|]. split; [vm_compute; reflexivity|].
  eexists; split; [vm_compute; reflexivity|]. split; [vm_compute; reflexivity|].
  eexists. vm_compute. reflexivity.
Qed.

(** C9: [get_record], [delete_record] and [update_record], called with a
    context, take the row lock (S for [get_record], X for the other two)
    before they look the record up. So when such a call fails with
    PAGE_NOT_EXIST (the page number is outside [1, num_pages)) or with
    RECORD_NOT_FOUND (the page exists and the slot bit is clear), the
    transaction still holds a granted request of at least the requested
    mode on the row, the row id is in its lock set, and the heap files are
    unchanged. The lock table is assumed to satisfy [lock_inv] and the lock
    set to record every queue the transaction is in ([lock_set_inv]). *)
Theorem failed_row_access_keeps_lock a tab rid s f e s' :
  lock_inv s -> lock_set_inv s -> fhs s !! tab = Some f ->
  run_access a tab rid s = Err e s' ->
  e = PAGE_NOT_EXIST \/ e = RECORD_NOT_FOUND ->
  (e = PAGE_NOT_EXIST ->
     page_no rid < RM_FIRST_RECORD_PAGE \/ num_pages (file_hdr_ f) <= page_no rid) /\
  (e = RECORD_NOT_FOUND -> exists p, pages f !! page_no rid = Some p /\
     Bitmap.is_set (bitmap p) (slot_no rid) = false) /\
  fhs s' = fhs s /\
  exists q r, lock_table s' !! LockRecordId (fd_ f) rid = Some q /\ r ∈ request_queue_ q /\
    txn_id_ r = txn_id (txn s) /\ granted_ r = true /\
    group_le (mode_group (access_mode a)) (mode_group (lock_mode_ r)) = true /\
    LockRecordId (fd_ f) rid ∈ lock_set (txn s').
Proof.
  intros Hinv Hls Hf Hrun He.
  destruct a as [| |buf];
    unfold run_access, get_record, delete_record, update_record, with_lock,
      bind, ret, throw, fh_of in Hrun; rewrite Hf in Hrun;
    [ destruct (lock_shared_on_record rid (fd_ f) s) as [b s1|e1 s1] eqn:Hl;
      pose (op := OpSharedRecord rid (fd_ f))
    | destruct (lock_exclusive_on_record rid (fd_ f) s) as [b s1|e1 s1] eqn:Hl;
      pose (op := OpExclusiveRecord rid (fd_ f))
    | destruct (lock_exclusive_on_record rid (fd_ f) s) as [b s1|e1 s1] eqn:Hl;
      pose (op := OpExclusiveRecord rid (fd_ f)) ].
  all: try (inversion Hrun; subst;
            destruct (lock_op_err op _ _ _ _ _ eq_refl Hl) as [-> | ->];
            destruct He; discriminate).
  all: destruct (lock_op_grants op _ _ _ _ _ eq_refl Hinv Hls Hl)
         as (Hfhs & Htid & q & r & Hq & Hr & Hrt & Hrg & Hrm & Hset).
  all: unfold fetch_page_handle, throw, ret in Hrun.
  all: destruct ((page_no rid <? RM_FIRST_RECORD_PAGE) ||
                 (num_pages (file_hdr_ f) <=? page_no rid)) eqn:Hrange.
  all: try (destruct (pages f !! page_no rid) as [p|] eqn:Hp;
            [|inversion Hrun; subst; destruct He; discriminate]).
  all: try (destruct (Bitmap.is_set (bitmap p) (slot_no rid)) eqn:Hb; simpl in Hrun;
            [unfold fh_store, modify in Hrun;
             repeat match type of Hrun with
                    | context [if ?c then _ else _] => destruct c
                    end; discriminate|]).
  all: inversion Hrun; subst.
  all: split; [intros Heq; first
                 [ discriminate Heq
                 | apply orb_true_iff in Hrange as [H1|H1];
                   [left; by apply Z.ltb_lt | right; by apply Z.leb_le] ]|].
  all: split; [intros Heq; first [discriminate Heq | by exists p]|].
  all: split; [done|].
  all: exists q, r; split_and!; try done; congruence.
Qed.

Lemma failed_row_access_keeps_lock_witness :
  lock_inv c3_db /\ lock_set_inv c3_db /\
  exists s', run_access AccGet c3_tab c9_rid c3_db = Err PAGE_NOT_EXIST s' /\
             fhs s' = fhs c3_db.
Proof.
  assert (H0 : lock_inv c3_db) by apply map_Forall_empty.
  assert (H1 : lock_set_inv c3_db).
  { intros id q r Hl. unfold c3_db in Hl; simpl in Hl.
    rewrite lookup_empty in Hl. discriminate. }
  split; [exact H0|]. split; [exact H1|].
  assert (Hrun : run_access AccGet c3_tab c9_rid c3_db =
                 Err PAGE_NOT_EXIST (res_state (run_access AccGet c3_tab c9_rid c3_db)))
    by (vm_compute; reflexivity).
  eexists; split; [exact Hrun|].
  destruct (failed_row_access_keeps_lock AccGet c3_tab c9_rid c3_db c3_file PAGE_NOT_EXIST _
              H0 H1 eq_refl Hrun (or_introl eq_refl)) as (_ & _ & Hf & _).
  exact Hf.
Defined.


(** C2 (corrected): for every DML executor run with a transaction in the
    context that completes, the events appended to the log are, for the
    insert, the heap write, the undo append and then one call per index of
    the table; for the delete and the update, for each rid in turn, the
    undo append, then the index calls (for the delete one per index, for the
    update a delete and an insert on each index whose columns a SET clause
    names), and the heap write last. *)
Theorem dml_step_order op s s' :
  run_dml op s = Ok tt s' -> exists rid, events s' = events s ++ dml_trace op rid.
Proof.
  destruct op as [tn tab vs|tn tab rids|tn tab scs rids]; simpl; intros H.
  - apply bind_ok in H as (rid & s1 & H1 & H2). inversion H2; subst. exists rid.
    unfold insert_values in H1.
    apply bind_ok in H1 as (f & s2 & Hf & H1).
    apply bind_ok in H1 as (u1 & s3 & Hl & H1).
    apply bind_ok in H1 as (rec & s4 & Hb & H1).
    apply bind_ok in H1 as (rid1 & s5 & Hi & H1).
    apply bind_ok in H1 as (u2 & s6 & Hh & H1).
    apply bind_ok in H1 as (u3 & s7 & Ha & H1).
    apply bind_ok in H1 as (u4 & s8 & Hx & H1).
    inversion H1; subst.
    rewrite (emits_index_loop _ _ _ _ _ _ Hx), (emits_append_write_record _ _ _ _ Ha),
      (emits_heap_written _ _ _ _ Hh),
      (emits_quiet _ (quiet_insert_record _ _) _ _ _ Hi),
      (emits_quiet _ (quiet_build_record _ _ _) _ _ _ Hb),
      (emits_quiet _ (quiet_with_lock _ _ (quiet_lock_IX_on_table _)) _ _ _ Hl),
      (emits_quiet _ (quiet_fh_of _) _ _ _ Hf).
    simpl. by rewrite !app_nil_r, <- !app_assoc.
  - exists c2_rid. exact (emits_delete_rids _ _ _ _ _ _ H).
  - exists c2_rid. exact (emits_update_rids _ _ _ _ _ _ _ H).
Qed.

Lemma dml_step_order_witness :
  (exists s', run_dml c2_delete c2_db = Ok tt s') /\
  exists rid, events (res_state (run_dml c2_delete c2_db))
              = events c2_db ++ dml_trace c2_delete rid.
Proof.
  split.
  - eexists. vm_compute. reflexivity.
  - apply dml_step_order. vm_compute. reflexivity.
Defined.

(** C2, counterexample: deleting the row inserted by [c1_ops] appends the
    undo entry first, then updates the index, and writes the heap last. *)
Lemma ce2_delete_heap_write_last :
  exists s', run_dml c2_delete c2_db = Ok tt s' /\
    events s' = events c2_db ++
      [EvUndoAppend c2_rid; EvIndexUpdate c2_rid 0; EvHeapWrite c2_rid].
Proof. eexists. split; vm_compute; reflexivity. Qed.

(** C1 (corrected): a transaction that begins on a well-formed database
    [s0], runs any sequence of Insert, Delete and Update executors and then
    aborts with every undo step succeeding, ends with the same live records
    as [s0] in every slot of every heap file (a slot is live when its page
    is a data page of the file and its bitmap bit is set; its content is
    then the slot's bytes). Abort makes no index call: the event log after
    the abort is the one before it, so the index entries the executors
    inserted or deleted stay as they are. *)
Theorem abort_restores_live_records s0 tid ops s' :
  db_wf s0 ->
  abort (run_dmls ops (res_state (begin tid s0))) = Ok tt s' ->
  (forall tab pno k, live s' tab pno k = live s0 tab pno k) /\
  events s' = events (run_dmls ops (res_state (begin tid s0))).
Proof.
  intros Hwf H. apply (abort_sound (live s0) _ _); [|exact H].
  apply inv_run_dmls, inv_begin, Hwf.
Qed.

Lemma abort_restores_live_records_witness :
  exists s', abort (run_dmls c1_ops (res_state (begin 1 c1_db))) = Ok tt s' /\
    (forall tab pno k, live s' tab pno k = live c1_db tab pno k) /\
    events s' = events (run_dmls c1_ops (res_state (begin 1 c1_db))).
Proof.
  eexists. split; [vm_compute; reflexivity|].
  apply (abort_restores_live_records c1_db 1 c1_ops).
  - intros tab f Hf pno p _ Hp. unfold c1_db in Hf. simpl in Hf.
    apply lookup_singleton_Some in Hf as [_ <-]. simpl in Hp.
    rewrite lookup_empty in Hp. discriminate Hp.
  - vm_compute. reflexivity.
Defined.

(** C1, counterexample: inserting one row into the empty table
    [accounts] and aborting leaves a database that is not byte-equal to the
    one before [begin]: the page allocated by the insert stays (the file
    header counts two pages where it counted one), and the index entry the
    insert added is never removed (the log holds the index call of the
    insert and nothing after it). *)
Lemma ce1_abort_keeps_page_and_index_entry :
  exists s' f', c1_run = Ok tt s' /\ fhs s' !! c1_tab_name = Some f' /\
    num_pages (file_hdr_ c1_file) = 1 /\ num_pages (file_hdr_ f') = 2 /\
    events s' = [EvHeapWrite c2_rid; EvUndoAppend c2_rid; EvIndexUpdate c2_rid 0].
Proof. do 2 eexists. split_and!; vm_compute; reflexivity. Qed.

(** ** Claims on the B+tree index *)

Module IxClaims.
Import Ix IxSplit.

(** C8 (corrected): on the B+tree, if the lookup [get_value] finds [key], then
    [insert_entry key v] changes nothing and returns the page number of the leaf holding
    [key], the same kind of value a successful insert returns (no duplicate-key indication
    distinct from success); if the lookup does not find [key], then [delete_entry key]
    changes nothing and returns [false]. Neither raises an error. *)
Theorem duplicate_insert_missing_delete_noop key v s r s1 :
  get_value key s = Ok r s1 ->
  match r with
  | Some _ => exists pno, find_leaf_page key s = Ok pno s /\ insert_entry key v s = Ok pno s
  | None => forall coalesce_or_redistribute,
              delete_entry coalesce_or_redistribute key s = Ok false s
  end.
Proof.
  intros H. apply get_value_inv in H as (_ & pno & n & Hf & Hn & Hl).
  destruct r as [r|].
  - exists pno. split; [done|]. unfold insert_entry, bind at 1 2. rewrite Hf.
    unfold fetch_node. rewrite Hn. rewrite (node_insert_found _ _ v r Hl).
    simpl. by rewrite Z.eqb_refl.
  - intros cr. unfold delete_entry, bind at 1 2. rewrite Hf.
    unfold fetch_node. rewrite Hn. rewrite (node_remove_missing _ _ Hl).
    simpl. by rewrite Z.eqb_refl.
Qed.

(** Witness of the C8 theorem on a one-key tree. *)
Lemma duplicate_insert_missing_delete_noop_witness :
  get_value 10 c8_tree = Ok (Some {| page_no := 1; slot_no := 10 |}) c8_tree /\
  exists pno, find_leaf_page 10 c8_tree = Ok pno c8_tree /\ insert_entry 10 c8_rid c8_tree = Ok pno c8_tree.
Proof.
  split; [vm_compute; reflexivity|].
  exact (duplicate_insert_missing_delete_noop 10 c8_rid c8_tree _ c8_tree ltac:(vm_compute; reflexivity)).
Defined.

(** C8 counterexample: in a tree holding only key 10, inserting the duplicate 10 and
    inserting the new key 20 both return [Ok 2]; only the second changes the leaf. *)
Lemma ce8_duplicate_insert_same_result :
  insert_entry 10 c8_rid c8_tree = Ok 2 c8_tree /\
  exists s', insert_entry 20 c8_rid c8_tree = Ok 2 s' /\
    keys <$> nodes s' !! 2 = Some [10; 20] /\ keys <$> nodes c8_tree !! 2 = Some [10].
Proof. split; [vm_compute; reflexivity|]. eexists. split_and!; vm_compute; reflexivity. Qed.

(** C4 (confirmed): [split] of a node whose page is present, into the fresh page
    [num_pages_], keeps the keys and rids at positions [0, floor(size/2)) in the old node
    and moves the rest into the new node; for a leaf, the new node sits between the old
    node and its old successor in the doubly linked leaf chain and [last_leaf_] moves to
    the new page when the old page was last. On any index whose page [num_pages_] is
    free and whose leaves link neither to themselves nor to that page: [insert_entry]
    splits the leaf exactly when, after the insert, it holds [max_size] keys; the split
    cuts at [floor(max_size/2)] and [insert_into_parent] receives the first key of the new
    node. [insert_into_parent] puts that key right after the old node's entry in the
    parent (or makes a new root over the two nodes, with separators the old node's first
    key and the key); a parent that then holds [max_size] keys is split the same way,
    and the first key of its new node goes one level up. With leaf capacity 4,
    inserting 10, 20, 30, 40, 50 yields leaf 2 = [10; 20], new leaf 3 = [30; 40; 50], a
    new root 4 with separators [10; 30] (first key of each child), [last_leaf_] = 3 and
    the chain header -> 2 -> 3 -> header in both directions. *)
Theorem split_at_half :
  (forall pno s node new_pno s',
    nodes s !! pno = Some node ->
    nodes s !! num_pages_ (file_hdr s) = None ->
    (is_leaf node = true -> next_leaf node <> pno /\ next_leaf node <> num_pages_ (file_hdr s)) ->
    split pno s = Ok new_pno s' ->
    let sp := Z.to_nat (get_size node / 2) in
    new_pno = num_pages_ (file_hdr s) /\
    exists n1 n2, nodes s' !! pno = Some n1 /\ nodes s' !! new_pno = Some n2 /\
      keys n1 = take sp (keys node) /\ rids n1 = take sp (rids node) /\
      keys n2 = drop sp (keys node) /\ rids n2 = drop sp (rids node) /\
      is_leaf n2 = is_leaf node /\
      (is_leaf node = true ->
         prev_leaf n2 = pno /\ next_leaf n2 = next_leaf node /\ next_leaf n1 = new_pno /\
         (exists n3, nodes s' !! next_leaf node = Some n3 /\ prev_leaf n3 = new_pno) /\
         last_leaf_ (file_hdr s') =
           (if last_leaf_ (file_hdr s) =? pno then new_pno else last_leaf_ (file_hdr s)))) /\
  (forall key v s r s',
    ix_fresh s -> leaf_links_ok s -> insert_entry key v s = Ok r s' ->
    exists leaf leaf' sz, find_leaf_page key s = Ok r s /\ nodes s !! r = Some leaf /\
      node_insert leaf key v = (leaf', sz) /\
      (sz = get_size leaf -> s' = s) /\
      (sz <> get_size leaf ->
         exists s2 l, maintain_parent r (mkIx (file_hdr s) (<[r := leaf']> (nodes s))) = Ok tt s2 /\
           nodes s2 !! r = Some l /\
           (get_size l = max_size (file_hdr s) ->
              exists new_leaf s3 n1 n2, split r s2 = Ok new_leaf s3 /\
                new_leaf = num_pages_ (file_hdr s) /\
                nodes s3 !! r = Some n1 /\ nodes s3 !! new_leaf = Some n2 /\
                keys n1 = take (Z.to_nat (max_size (file_hdr s) / 2)) (keys l) /\
                keys n2 = drop (Z.to_nat (max_size (file_hdr s) / 2)) (keys l) /\
                insert_into_parent (map_size (nodes s3)) r (get_key n2 0) new_leaf s3 = Ok tt s') /\
           (get_size l <> max_size (file_hdr s) -> s' = s2))) /\
  (forall fuel old key new s s',
    ix_fresh s -> leaf_links_ok s -> insert_into_parent (S fuel) old key new s = Ok tt s' ->
    exists o, nodes s !! old = Some o /\
      (parent o = IX_NO_PAGE ->
         root_page_ (file_hdr s') = num_pages_ (file_hdr s) /\
         exists rt, nodes s' !! num_pages_ (file_hdr s) = Some rt /\ is_leaf rt = false /\
           keys rt = [get_key o 0; key] /\ map page_no (rids rt) = [old; new]) /\
      (parent o <> IX_NO_PAGE ->
         exists p i nw, nodes s !! parent o = Some p /\ find_child p old s = Ok i s /\
           let p1 := insert_pairs p (i + 1) [key] [{| page_no := new; slot_no := 0 |}] in
           let s1 := mkIx (file_hdr s)
                       (<[new := set_parent (parent o) nw]> (<[parent o := p1]> (nodes s))) in
           <[parent o := p1]> (nodes s) !! new = Some nw /\
           (get_size p1 = max_size (file_hdr s) ->
              exists np s3 n1 n2, split (parent o) s1 = Ok np s3 /\
                np = num_pages_ (file_hdr s) /\
                nodes s3 !! parent o = Some n1 /\ nodes s3 !! np = Some n2 /\
                keys n1 = take (Z.to_nat (max_size (file_hdr s) / 2)) (keys p1) /\
                keys n2 = drop (Z.to_nat (max_size (file_hdr s) / 2)) (keys p1) /\
                insert_into_parent fuel (parent o) (get_key n2 0) np s3 = Ok tt s') /\
           (get_size p1 <> max_size (file_hdr s) -> s' = s1))) /\
  (exists s', insert_keys [10; 20; 30; 40; 50] (ix_empty 4) = Ok tt s' /\
    root_page_ (file_hdr s') = 4 /\ first_leaf_ (file_hdr s') = 2 /\ last_leaf_ (file_hdr s') = 3 /\
    leaf_view <$> nodes s' !! 2 = Some ([10; 20], 4, IX_LEAF_HEADER_PAGE, 3) /\
    leaf_view <$> nodes s' !! 3 = Some ([30; 40; 50], 4, 2, IX_LEAF_HEADER_PAGE) /\
    (fun n => (keys n, map page_no (rids n), parent n)) <$> nodes s' !! 4 =
      Some ([10; 30], [2; 3], IX_NO_PAGE) /\
    (fun n => (prev_leaf n, next_leaf n)) <$> nodes s' !! IX_LEAF_HEADER_PAGE = Some (3, 2)).
Proof.
  split; [exact split_spec|].
  split; [exact insert_entry_split|].
  split; [exact insert_into_parent_step|].
  eexists. split_and!; vm_compute; reflexivity.
Qed.

(** Witness of the C4 theorem: splitting a full leaf [10; 20; 30; 40]; inserting 40
    into the leaf [10; 20; 30] of capacity 4, which splits it and passes 30 up; and
    the new root made over the split leaf. *)
Lemma split_at_half_witness :
  (exists new_pno s', split 2 c4_full = Ok new_pno s' /\ new_pno = 3 /\
    exists n1 n2, nodes s' !! 2 = Some n1 /\ nodes s' !! 3 = Some n2 /\
      keys n1 = [10; 20] /\ keys n2 = [30; 40] /\ next_leaf n1 = 3 /\ prev_leaf n2 = 2) /\
  (exists leaf leaf' sz, find_leaf_page 40 c4_pre = Ok 2 c4_pre /\ nodes c4_pre !! 2 = Some leaf /\
    node_insert leaf 40 c8_rid = (leaf', sz) /\
    (sz = get_size leaf -> res_state (insert_entry 40 c8_rid c4_pre) = c4_pre) /\
    (sz <> get_size leaf ->
       exists s2 l, maintain_parent 2 (mkIx (file_hdr c4_pre) (<[2 := leaf']> (nodes c4_pre))) = Ok tt s2 /\
         nodes s2 !! 2 = Some l /\
         (get_size l = max_size (file_hdr c4_pre) ->
            exists new_leaf s3 n1 n2, split 2 s2 = Ok new_leaf s3 /\
              new_leaf = num_pages_ (file_hdr c4_pre) /\
              nodes s3 !! 2 = Some n1 /\ nodes s3 !! new_leaf = Some n2 /\
              keys n1 = take (Z.to_nat (max_size (file_hdr c4_pre) / 2)) (keys l) /\
              keys n2 = drop (Z.to_nat (max_size (file_hdr c4_pre) / 2)) (keys l) /\
              insert_into_parent (map_size (nodes s3)) 2 (get_key n2 0) new_leaf s3 =
                Ok tt (res_state (insert_entry 40 c8_rid c4_pre))) /\
         (get_size l <> max_size (file_hdr c4_pre) -> res_state (insert_entry 40 c8_rid c4_pre) = s2))) /\
  (exists o, nodes c4_split !! 2 = Some o /\
    (parent o = IX_NO_PAGE ->
       root_page_ (file_hdr (res_state (insert_into_parent (S 2) 2 30 3 c4_split))) = num_pages_ (file_hdr c4_split) /\
       exists rt, nodes (res_state (insert_into_parent (S 2) 2 30 3 c4_split)) !! num_pages_ (file_hdr c4_split) = Some rt /\
         is_leaf rt = false /\ keys rt = [get_key o 0; 30] /\ map page_no (rids rt) = [2; 3]) /\
    (parent o <> IX_NO_PAGE ->
       exists p i nw, nodes c4_split !! parent o = Some p /\ find_child p 2 c4_split = Ok i c4_split /\
         let p1 := insert_pairs p (i + 1) [30] [{| page_no := 3; slot_no := 0 |}] in
         let s1 := mkIx (file_hdr c4_split)
                     (<[3 := set_parent (parent o) nw]> (<[parent o := p1]> (nodes c4_split))) in
         <[parent o := p1]> (nodes c4_split) !! 3 = Some nw /\
         (get_size p1 = max_size (file_hdr c4_split) ->
            exists np s3 n1 n2, split (parent o) s1 = Ok np s3 /\
              np = num_pages_ (file_hdr c4_split) /\
              nodes s3 !! parent o = Some n1 /\ nodes s3 !! np = Some n2 /\
              keys n1 = take (Z.to_nat (max_size (file_hdr c4_split) / 2)) (keys p1) /\
              keys n2 = drop (Z.to_nat (max_size (file_hdr c4_split) / 2)) (keys p1) /\
              insert_into_parent 2%nat (parent o) (get_key n2 0) np s3 =
                Ok tt (res_state (insert_into_parent (S 2) 2 30 3 c4_split))) /\
         (get_size p1 <> max_size (file_hdr c4_split) -> res_state (insert_into_parent (S 2) 2 30 3 c4_split) = s1))).
Proof.
  split; [|split].
  - eexists _, _. split; [vm_compute; reflexivity|].
    destruct (proj1 split_at_half 2 c4_full c4_node _ _ ltac:(vm_compute; reflexivity)
                ltac:(vm_compute; reflexivity) ltac:(intros _; vm_compute; split; discriminate)
                ltac:(vm_compute; reflexivity))
      as [Hp (n1 & n2 & H1 & H2 & Hk1 & _ & Hk2 & _ & _ & Hleaf)].
    destruct (Hleaf eq_refl) as (Hprev & _ & Hnext & _).
    split; [exact Hp|]. exists n1, n2. split_and!.
    + exact H1.
    + exact H2.
    + rewrite Hk1. reflexivity.
    + rewrite Hk2. reflexivity.
    + rewrite Hnext, Hp. reflexivity.
    + exact Hprev.
  - apply (proj1 (proj2 split_at_half) 40 c8_rid c4_pre 2).
    + vm_compute. reflexivity.
    + apply leaf_links_ok_map, (bool_decide_unpack _). vm_compute. reflexivity.
    + vm_compute. reflexivity.
  - apply (proj1 (proj2 (proj2 split_at_half)) 2%nat 2 30 3 c4_split).
    + vm_compute. reflexivity.
    + apply leaf_links_ok_map, (bool_decide_unpack _). vm_compute. reflexivity.
    + vm_compute. reflexivity.
Defined.

End IxClaims.

(** ** Claims on the nested loop join *)

Module NLJClaims.
Import NestedLoopJoin.

Section NLJClaims.

Context {Rec Cond : Type}.
Variable check_join_condition : Rec -> Rec -> Cond -> bool.
Variable fed_conds_ : list Cond.

(** C10 (confirmed): for finite child inputs (scan cursors over lists [L] and [R]),
    (1) each self-call of [nextTuple] is made on a positioned state with strictly fewer
    remaining (left, right) pairs; (2) from a positioned state, [nextTuple] returns within
    that many activations, either with [isend] true and no pair after the current one
    satisfying all join conditions, or on the first later pair, in outer-left, inner-right
    order, that satisfies them; (3) [beginTuple] returns, either with [isend] true and no
    pair satisfying the conditions, or on the first pair that satisfies them. *)
Theorem nested_loop_join_terminates :
  (forall s s', positioned s -> next_step check_join_condition fed_conds_ s = Recurse s' ->
     positioned s' /\ (pairs_left s' < pairs_left s)%nat) /\
  (forall s, positioned s ->
     let L := recs (left_ s) in let R := recs (right_ s) in
     exists s', nextTuple_fuel check_join_condition fed_conds_ (S (pairs_left s)) s = Some s' /\
       recs (left_ s') = L /\ recs (right_ s') = R /\
       ((isend s' = true /\ none_between check_join_condition fed_conds_ L R (pos s) (length L, 0%nat)) \/
        (positioned s' /\ isend s' = isend s /\ lex_lt (pos s) (pos s') /\
         check_at check_join_condition fed_conds_ L R (cur (left_ s')) (cur (right_ s')) = true /\
         none_between check_join_condition fed_conds_ L R (pos s) (pos s')))) /\
  (forall s,
     let L := recs (left_ s) in let R := recs (right_ s) in
     exists s', beginTuple_fuel check_join_condition fed_conds_ (length L * length R) s = Some s' /\
       recs (left_ s') = L /\ recs (right_ s') = R /\
       ((isend s' = true /\
         forall a b, (a < length L)%nat -> (b < length R)%nat ->
           check_at check_join_condition fed_conds_ L R a b = false) \/
        (positioned s' /\ isend s' = isend s /\
         check_at check_join_condition fed_conds_ L R (cur (left_ s')) (cur (right_ s')) = true /\
         (forall a b, (a < length L)%nat -> (b < length R)%nat -> lex_lt (a, b) (pos s') ->
            check_at check_join_condition fed_conds_ L R a b = false)))).
Proof.
  split_and!.
  - exact (next_step_decreases check_join_condition fed_conds_).
  - intros s Hp. apply nextTuple_spec; [exact Hp | lia].
  - intros s. destruct (beginTuple_spec check_join_condition fed_conds_ s)
      as (s' & Hrun & HL & HR & [(He & Hn & H0) | Hpos]).
    + exists s'. split_and!; try assumption. left. split; [exact He|].
      intros a b Ha Hb. destruct (Nat.eq_dec a 0%nat) as [->|Ha0]; [exact (H0 b Hb)|].
      apply Hn; auto; unfold lex_lt; simpl; lia.
    + exists s'. split_and!; try assumption. right. exact Hpos.
Qed.

End NLJClaims.

(** Witness of the C10 theorem: joining [1; 2; 3] with [2; 3] on equality. *)
Lemma nested_loop_join_terminates_witness :
  exists s1 s2 s3,
    beginTuple_fuel c10_check c10_conds 6 c10_start = Some s1 /\ pos s1 = (1%nat, 0%nat) /\ isend s1 = false /\
    nextTuple_fuel c10_check c10_conds (S (pairs_left s1)) s1 = Some s2 /\ pos s2 = (2%nat, 1%nat) /\ isend s2 = false /\
    nextTuple_fuel c10_check c10_conds (S (pairs_left s2)) s2 = Some s3 /\ isend s3 = true.
Proof.
  destruct (proj2 (proj2 (nested_loop_join_terminates c10_check c10_conds)) c10_start)
    as (s1 & H1 & _).
  assert (Hp1 : positioned s1) by (simpl in H1; injection H1 as <-; vm_compute; lia).
  destruct (proj1 (proj2 (nested_loop_join_terminates c10_check c10_conds)) s1 Hp1)
    as (s2 & H2 & _).
  assert (Hp2 : positioned s2).
  { simpl in H1; injection H1 as <-. vm_compute in H2. injection H2 as <-. vm_compute; lia. }
  destruct (proj1 (proj2 (nested_loop_join_terminates c10_check c10_conds)) s2 Hp2)
    as (s3 & H3 & _).
  exists s1, s2, s3. split_and!; try assumption;
    simpl in H1; injection H1 as <-; try reflexivity;
    vm_compute in H2; injection H2 as <-; try reflexivity;
    vm_compute in H3; injection H3 as <-; reflexivity.
Defined.

(** [beginTuple] never clears [isend]: once a join has reported its end, a later
    [beginTuple] leaves [is_end] true, even when it stops on a pair that satisfies the
    join conditions. *)
Theorem beginTuple_keeps_isend {Rec Cond} (check_join_condition : Rec -> Rec -> Cond -> bool)
    fed_conds_ fuel s s' :
  isend s = true -> beginTuple_fuel check_join_condition fed_conds_ fuel s = Some s' ->
  isend s' = true.
Proof.
  intros He. unfold beginTuple_fuel.
  destruct (child_is_end (child_beginTuple (left_ s))); [intros H; injection H as <-; reflexivity|].
  destruct (child_is_end (child_beginTuple (right_ s))); [intros H; injection H as <-; reflexivity|].
  destruct (check_current _ _ _) eqn:Ec; [intros H; injection H as <-; exact He|].
  apply nextTuple_keeps_isend. exact He.
Qed.

(** Witness: after a full pass, [beginTuple] stops on the matching pair (2, 2) and
    still reports [is_end]. *)
Lemma beginTuple_keeps_isend_witness :
  exists s_end s',
    nextTuple_fuel c10_check c10_conds 6
      (mkNLJ (mkChild [1; 2; 3] 2) (mkChild [2; 3] 1) false) = Some s_end /\ isend s_end = true /\
    beginTuple_fuel c10_check c10_conds 6 s_end = Some s' /\ isend s' = true /\
    check_current c10_check c10_conds s' = true.
Proof.
  eexists _, _. split_and!; [vm_compute; reflexivity | reflexivity | vm_compute; reflexivity | |
    vm_compute; reflexivity].
  apply (beginTuple_keeps_isend c10_check c10_conds 6
           (mkNLJ (mkChild [1; 2; 3] 3) (mkChild [2; 3] 2) true)); vm_compute; reflexivity.
Defined.

End NLJClaims.


Module HeapExtras.

(** get_record reads exactly the live records: on a well-formed database,
    a successful read (with or without a lock context) returns the live
    record of the slot, and without a context every live record is read back
    unchanged, leaving the state as it was. *)
Lemma get_record_reads_live tab rid s :
  db_wf s ->
  (forall ctx d s', get_record tab rid ctx s = Ok d s' ->
     live s tab (page_no rid) (rid_slot rid) = Some d) /\
  (forall d, live s tab (page_no rid) (rid_slot rid) = Some d ->
     get_record tab rid false s = Ok d s).
Proof.
  intros Hwf. split.
  - intros ctx d s'. by apply get_record_live_fwd.
  - intros d. apply get_record_live_bwd.
Qed.

Lemma get_record_reads_live_witness :
  db_wf c3_db /\ get_record c3_tab c3_rid false c3_db = Ok [Byte.x0b] c3_db.
Proof.
  split; [exact c3_db_wf|].
  apply (proj2 (get_record_reads_live c3_tab c3_rid c3_db c3_db_wf)).
  vm_compute. reflexivity.
Defined.

(** insert_record then get_record: on a well-formed database whose file
    header has at least the header page and a free list that is empty or
    starts at a data page, a record inserted at a real rid (not {-1,-1})
    goes to a slot that was free and is read back as the inserted bytes. *)
Lemma insert_record_then_get tab buf s rid s' :
  db_wf s -> (forall f, fhs s !! tab = Some f -> free_head_ok f = true) ->
  insert_record tab buf s = Ok rid s' -> page_no rid <> RM_NO_PAGE ->
  live s tab (page_no rid) (rid_slot rid) = None /\
  get_record tab rid false s' = Ok buf s'.
Proof.
  intros Hwf Hok H Hn. split.
  - pose proof (insert_record_spec tab buf s) as Hs. rewrite H in Hs. apply Hs.
  - apply get_record_live_bwd. by apply (insert_record_live tab buf s rid s').
Qed.

Lemma insert_record_then_get_witness :
  exists s', insert_record hx_tab [Byte.x2a] hx_db = Ok hx_rid s' /\
    live hx_db hx_tab (page_no hx_rid) (rid_slot hx_rid) = None /\
    get_record hx_tab hx_rid false s' = Ok [Byte.x2a] s'.
Proof.
  eexists. split; [vm_compute; reflexivity|].
  apply (insert_record_then_get hx_tab [Byte.x2a] hx_db hx_rid).
  - intros t f Hf. unfold hx_db in Hf. simpl in Hf.
    apply lookup_singleton_Some in Hf as [_ <-]. intros pno p _ Hp.
    simpl in Hp. rewrite lookup_empty in Hp. discriminate Hp.
  - intros f Hf. vm_compute in Hf. injection Hf as <-. vm_compute. reflexivity.
  - vm_compute. reflexivity.
  - vm_compute. discriminate.
Defined.

(** delete_record then get_record: after a successful delete (with or
    without a lock context) the record is gone, and reading it fails with
    RECORD_NOT_FOUND, leaving the state unchanged. *)
Lemma delete_record_then_get tab rid ctx s u s' :
  delete_record tab rid ctx s = Ok u s' ->
  get_record tab rid false s' = Err RECORD_NOT_FOUND s'.
Proof.
  intros H. pose proof (delete_record_spec tab rid ctx s) as Hs. rewrite H in Hs.
  destruct Hs as (p & a & b & _ & Hop).
  destruct (page_op_after _ _ _ _ _ _ Hop) as (f' & Hf' & Hd & Hp).
  unfold get_record, bind, fh_of, with_lock, ret. rewrite Hf'.
  rewrite (fetch_data _ _ _ _ Hd Hp). simpl. by rewrite is_set_reset.
Qed.

Lemma delete_record_then_get_witness :
  exists s', delete_record c3_tab c3_rid false c3_db = Ok tt s' /\
    get_record c3_tab c3_rid false s' = Err RECORD_NOT_FOUND s'.
Proof.
  eexists. split; [vm_compute; reflexivity|].
  apply (delete_record_then_get c3_tab c3_rid false c3_db tt).
  vm_compute. reflexivity.
Defined.

(** update_record then get_record: on a well-formed database, after a
    successful update the slot is read back as the new bytes. *)
Lemma update_record_then_get tab rid buf ctx s u s' :
  db_wf s -> update_record tab rid buf ctx s = Ok u s' ->
  get_record tab rid false s' = Ok buf s'.
Proof.
  intros Hwf H. pose proof (update_record_spec tab rid buf ctx s) as Hs. rewrite H in Hs.
  destruct Hs as (p & a & b & Hb & Hop).
  destruct (page_op_wf_page _ _ _ _ _ _ Hop Hwf) as (f & _ & Hlb & Hls).
  apply get_record_live_bwd. rewrite (page_op_live _ _ _ _ _ _ Hop).
  rewrite decide_True by reflexivity.
  apply page_live_write; [by apply is_set_lookup|congruence].
Qed.

Lemma update_record_then_get_witness :
  exists s', update_record c3_tab c3_rid [Byte.x0c] false c3_db = Ok tt s' /\
    get_record c3_tab c3_rid false s' = Ok [Byte.x0c] s'.
Proof.
  eexists. split; [vm_compute; reflexivity|].
  apply (update_record_then_get c3_tab c3_rid [Byte.x0c] false c3_db tt).
  - exact c3_db_wf.
  - vm_compute. reflexivity.
Defined.

(** The heap writes change one slot at most: a successful delete_record or
    update_record changes the live record of its own rid only (a delete
    leaves it free), a successful insert_record fills a slot that was free
    and changes no other; all three keep the database well formed. A
    failing delete or update leaves every heap file as it was, and a
    failing insert leaves the whole state as it was. *)
Lemma heap_writes_local tab rid buf ctx s :
  (match delete_record tab rid ctx s with
   | Ok _ s' => (db_wf s -> db_wf s') /\ local_change tab (page_no rid) (rid_slot rid) s s' /\
       live s' tab (page_no rid) (rid_slot rid) = None
   | Err _ s' => fhs s' = fhs s
   end) /\
  (match update_record tab rid buf ctx s with
   | Ok _ s' => (db_wf s -> db_wf s') /\ local_change tab (page_no rid) (rid_slot rid) s s'
   | Err _ s' => fhs s' = fhs s
   end) /\
  (match insert_record tab buf s with
   | Ok r s' => (db_wf s -> db_wf s') /\ live s tab (page_no r) (rid_slot r) = None /\
       local_change tab (page_no r) (rid_slot r) s s'
   | Err _ s' => s' = s
   end).
Proof.
  split_and!.
  - pose proof (delete_record_spec tab rid ctx s) as Hs.
    pose proof (keeps_delete_record tab rid ctx s) as (Hw & _ & _ & Hl).
    destruct (delete_record tab rid ctx s) as [u s'|e s']; simpl in *; [|done].
    split_and!; [done|done|].
    destruct Hs as (p & a & b & _ & Hop). rewrite (page_op_live _ _ _ _ _ _ Hop).
    rewrite decide_True by reflexivity. apply page_live_reset.
  - pose proof (update_record_spec tab rid buf ctx s) as Hs.
    pose proof (keeps_update_record tab rid buf ctx s) as (Hw & _ & _ & Hl).
    destruct (update_record tab rid buf ctx s) as [u s'|e s']; simpl in *; [|done].
    split; done.
  - pose proof (insert_record_spec tab buf s) as Hs.
    destruct (insert_record tab buf s) as [r s'|e s']; [|done].
    destruct Hs as (_ & H0 & _ & Hw & Hl). split_and!; done.
Qed.

(** The errors of the record operations without a lock context: a rid on a
    page outside the data pages [1, num_pages) makes get_record,
    delete_record, update_record and insert_record at a rid fail with
    PAGE_NOT_EXIST; a rid on a data page whose bitmap bit is clear makes
    get_record, delete_record and update_record fail with RECORD_NOT_FOUND.
    Each failure leaves the state unchanged. *)
Lemma record_ops_errors tab rid buf s f :
  fhs s !! tab = Some f ->
  (data_page f (page_no rid) = false ->
     get_record tab rid false s = Err PAGE_NOT_EXIST s /\
     delete_record tab rid false s = Err PAGE_NOT_EXIST s /\
     update_record tab rid buf false s = Err PAGE_NOT_EXIST s /\
     insert_record_at tab rid buf s = Err PAGE_NOT_EXIST s) /\
  (forall p, data_page f (page_no rid) = true -> pages f !! page_no rid = Some p ->
     Bitmap.is_set (bitmap p) (slot_no rid) = false ->
     get_record tab rid false s = Err RECORD_NOT_FOUND s /\
     delete_record tab rid false s = Err RECORD_NOT_FOUND s /\
     update_record tab rid buf false s = Err RECORD_NOT_FOUND s).
Proof.
  intros Hf. split.
  - intros Hd.
    assert (Hfe : fetch_page_handle f (page_no rid) s = Err PAGE_NOT_EXIST s).
    { unfold fetch_page_handle. unfold data_page in Hd.
      replace ((page_no rid <? RM_FIRST_RECORD_PAGE) || (num_pages (file_hdr_ f) <=? page_no rid))
        with true; [reflexivity|].
      symmetry. apply andb_false_iff in Hd as [Hd|Hd]; apply orb_true_iff;
        [left; apply Z.ltb_lt; apply Z.leb_gt in Hd|right; apply Z.leb_le; apply Z.ltb_ge in Hd]; lia. }
    unfold get_record, delete_record, update_record, insert_record_at, bind, fh_of, with_lock, ret.
    rewrite Hf, Hfe. done.
  - intros p Hd Hp Hb.
    unfold get_record, delete_record, update_record, bind, fh_of, with_lock, ret.
    rewrite Hf, (fetch_data _ _ _ _ Hd Hp), Hb. done.
Qed.

(** A heap file with a free slot: [c3_db] after deleting [c3_rid]. *)
Definition hx_db_free : DbState := res_state (delete_record c3_tab c3_rid false c3_db).

Lemma record_ops_errors_witness :
  get_record c3_tab c9_rid false c3_db = Err PAGE_NOT_EXIST c3_db /\
  delete_record c3_tab c3_rid false hx_db_free = Err RECORD_NOT_FOUND hx_db_free.
Proof.
  split.
  - apply (record_ops_errors c3_tab c9_rid [] c3_db c3_file); reflexivity.
  - assert (Hf : fhs hx_db_free !! c3_tab =
      Some (mkRmFile 5 (mkFileHdr 1 2 1 2 1)
              {[ 1 := mkPage 1 RM_NO_PAGE [true; false] [[Byte.x0a]; [Byte.x0b]] ]}))
      by (vm_compute; reflexivity).
    apply (proj2 (record_ops_errors c3_tab c3_rid [] hx_db_free _ Hf)
                 (mkPage 1 RM_NO_PAGE [true; false] [[Byte.x0a]; [Byte.x0b]]));
      vm_compute; reflexivity.
Defined.

End HeapExtras.


Module ScanExtras.

(** A full record scan lists the live records: on a file whose data pages
    are all present and well formed, [RmScan]'s constructor followed by
    [next] until [is_end] (with enough rounds) produces, without changing
    the state, the rids of exactly the live records of the table, each once,
    in strictly increasing (page_no, slot_no) order. *)
Lemma rm_scan_lists_live tab f s fuel :
  fhs s !! tab = Some f -> file_wf f -> RmScan.pages_present f ->
  (Z.to_nat (num_pages (file_hdr_ f)) * Z.to_nat (nrpp f) < fuel)%nat ->
  exists l, RmScan.scan_all (Some f) fuel s = Ok l s /\
    StronglySorted RmScan.rid_lt l /\ Forall (fun r => 0 <= slot_no r) l /\
    forall pno k, (exists d, live s tab pno k = Some d) <->
      In {| page_no := pno; slot_no := Z.of_nat k |} l.
Proof.
  intros Hf Hwf Hpr Hfuel. exists (RmScan.rest f RM_FIRST_RECORD_PAGE (-1)).
  assert (Hlen : (length (RmScan.rest f RM_FIRST_RECORD_PAGE (-1)) < fuel)%nat)
    by (pose proof (RmScan.rest_length_bound f); lia).
  split_and!.
  - by apply RmScan.scan_all_spec.
  - apply (RmScan.rest_sorted f _ _ _ (Nat.le_refl _)); unfold RM_FIRST_RECORD_PAGE; lia.
  - apply Forall_forall. intros x Hx. apply list_elem_of_In, RmScan.rest_start_in in Hx. lia.
  - intros pno k. rewrite (RmScan.live_bits s tab f pno k Hf Hwf), RmScan.rest_start_in.
    simpl. split; intros (H1 & H2 & H3); split_and!; try done; lia.
Qed.

Lemma rm_scan_lists_live_witness :
  RmScan.scan_all (Some c3_file) 5 c3_db =
    Ok [{| page_no := 1; slot_no := 0 |}; {| page_no := 1; slot_no := 1 |}] c3_db /\
  exists l, RmScan.scan_all (Some c3_file) 5 c3_db = Ok l c3_db /\
    StronglySorted RmScan.rid_lt l /\ Forall (fun r => 0 <= slot_no r) l /\
    forall pno k, (exists d, live c3_db c3_tab pno k = Some d) <->
      In {| page_no := pno; slot_no := Z.of_nat k |} l.
Proof.
  split; [vm_compute; reflexivity|].
  apply (rm_scan_lists_live c3_tab c3_file c3_db 5).
  - vm_compute. reflexivity.
  - apply (c3_db_wf c3_tab). vm_compute. reflexivity.
  - intros pno Hd. apply data_page_range in Hd. unfold RM_FIRST_RECORD_PAGE in Hd. simpl in Hd.
    assert (pno = 1) as -> by lia. vm_compute. eexists. reflexivity.
  - vm_compute. lia.
Defined.

End ScanExtras.


Module SeqScanExtras.

(** A sequential scan returns the matching live records: with no lock
    context, on a file whose data pages are all present and well formed,
    [SeqScanExecutor::beginTuple] followed by [nextTuple] until [is_end]
    stops at the rids of exactly the live records whose bytes pass
    [check_conditions], each once, in strictly increasing (page_no, slot_no)
    order, and leaves the state unchanged. [check_conditions] is any
    predicate on the record bytes. *)
Lemma seq_scan_lists_matching check tab f s e lf fuel :
  fhs s !! tab = Some f -> file_wf f -> RmScan.pages_present f ->
  SeqScan.tab_name_ e = tab -> SeqScan.context_ e = false ->
  (Z.to_nat (num_pages (file_hdr_ f)) * Z.to_nat (nrpp f) < lf)%nat ->
  (Z.to_nat (num_pages (file_hdr_ f)) * Z.to_nat (nrpp f) < fuel)%nat ->
  exists l, SeqScan.run check lf e fuel s = Ok l s /\
    StronglySorted RmScan.rid_lt l /\ Forall (fun r => 0 <= slot_no r) l /\
    forall pno k, (exists d, live s tab pno k = Some d /\ check d = true) <->
      In {| page_no := pno; slot_no := Z.of_nat k |} l.
Proof.
  intros Hf Hwf Hpr Ht Hc Hlf Hfuel. pose proof (RmScan.rest_length_bound f) as Hb.
  exists (List.filter (SeqScan.passes check tab s) (RmScan.rest f RM_FIRST_RECORD_PAGE (-1))).
  split_and!.
  - apply (SeqScan.run_spec check tab f s Hf Hwf Hpr); [done|done|lia|lia].
  - apply SeqScan.StronglySorted_filter.
    apply (RmScan.rest_sorted f _ _ _ (Nat.le_refl _)); unfold RM_FIRST_RECORD_PAGE; lia.
  - apply Forall_forall. intros x Hx. apply list_elem_of_In, filter_In in Hx as [Hx _].
    apply RmScan.rest_start_in in Hx. lia.
  - intros pno k. rewrite filter_In, RmScan.rest_start_in.
    unfold SeqScan.passes, rid_slot. simpl. rewrite Nat2Z.id.
    pose proof (RmScan.live_bits s tab f pno k Hf Hwf) as Hl. split.
    + intros (d & Hd & Hck). rewrite Hd. split; [|done].
      destruct Hl as [Hl _]. destruct Hl as (H1 & H2 & H3); [by exists d|]. split_and!; try done; lia.
    + intros [(H1 & H2 & H3) Hp]. destruct (live s tab pno k) as [d|]; [|discriminate].
      by exists d.
Qed.

Definition ss_check (d : list Byte.byte) : bool :=
  match d with [b] => Byte.eqb b Byte.x0b | _ => false end.
Definition ss_exec : SeqScan.SeqScanExecutor :=
  SeqScan.mkSeqScan c3_tab false c3_rid (RmScan.mkRmScan None RmScan.end_rid).

Lemma seq_scan_lists_matching_witness :
  SeqScan.run ss_check 5 ss_exec 5 c3_db = Ok [{| page_no := 1; slot_no := 1 |}] c3_db /\
  exists l, SeqScan.run ss_check 5 ss_exec 5 c3_db = Ok l c3_db /\
    StronglySorted RmScan.rid_lt l /\ Forall (fun r => 0 <= slot_no r) l /\
    forall pno k, (exists d, live c3_db c3_tab pno k = Some d /\ ss_check d = true) <->
      In {| page_no := pno; slot_no := Z.of_nat k |} l.
Proof.
  split; [vm_compute; reflexivity|].
  apply (seq_scan_lists_matching ss_check c3_tab c3_file c3_db ss_exec 5 5).
  - vm_compute. reflexivity.
  - apply (c3_db_wf c3_tab). vm_compute. reflexivity.
  - intros pno Hd. apply data_page_range in Hd. unfold RM_FIRST_RECORD_PAGE in Hd. simpl in Hd.
    assert (pno = 1) as -> by lia. vm_compute. eexists. reflexivity.
  - reflexivity.
  - reflexivity.
  - vm_compute. lia.
  - vm_compute. lia.
Defined.

End SeqScanExtras.

Module TxnExtras.

(** [TransactionManager::commit] keeps every heap file and the executor
    events, ends in COMMITTED with empty lock and write sets, keeps the lock
    invariant, and leaves in each request queue exactly the requests of the
    other transactions (the transaction's own lock set covers every queue it
    is in). *)
Theorem commit_releases_locks s : lock_inv s -> lock_set_inv s ->
  exists s', commit s = Ok tt s' /\ fhs s' = fhs s /\ events s' = events s /\
    txn s' = mkTxn (txn_id (txn s)) TransactionState.COMMITTED ∅ [] /\ lock_inv s' /\
    forall id, option_map request_queue_ (lock_table s' !! id) =
      option_map (fun q => List.filter (fun r => negb (txn_id_ r =? txn_id (txn s))) (request_queue_ q))
        (lock_table s !! id).
Proof.
  intros Hinv Hset.
  set (s0 := set_txn (set_write_set [] (txn s)) s).
  assert (Hinv0 : lock_inv s0) by exact Hinv.
  destruct (unlock_all_spec (elements (lock_set (txn s0))) s0 Hinv0)
    as (s2 & Hu & Hf & He & Ht & Hi & Hq).
  exists (set_txn (mkTxn (txn_id (txn s2)) TransactionState.COMMITTED ∅ []) s2).
  unfold commit, bind, modify, get. cbv beta iota. fold s0. rewrite Hu. simpl.
  split_and!; try done.
  - rewrite Ht. done.
  - intros id. specialize (Hq id). unfold rq in Hq. simpl. rewrite Hq. simpl.
    clear Hq. destruct (lock_table s !! id) as [q|] eqn:Hl; simpl; case_bool_decide as Hin; try done.
    f_equal. symmetry. apply drop_txn_none. intros r Hr Ht'. apply Hin.
    apply elem_of_elements. exact (Hset id q r Hl (proj2 (list_elem_of_In _ _) Hr) Ht').
Qed.

Definition tx_req (tid : Z) : LockRequest := mkLockRequest tid LockMode.INTENTION_SHARED true.
Definition tx_db : DbState :=
  mkDb {[ LockTableId 3 := mkQueue [tx_req 1; tx_req 2] GroupLockMode.IS ]}
    (mkTxn 1 TransactionState.GROWING {[ LockTableId 3 ]} []) ∅ [].

Lemma commit_releases_locks_witness :
  lock_inv tx_db /\ lock_set_inv tx_db /\
  exists s', commit tx_db = Ok tt s' /\ fhs s' = fhs tx_db /\ events s' = events tx_db /\
    txn s' = mkTxn 1 TransactionState.COMMITTED ∅ [] /\ lock_inv s' /\
    forall id, option_map request_queue_ (lock_table s' !! id) =
      option_map (fun q => List.filter (fun r => negb (txn_id_ r =? 1)) (request_queue_ q))
        (lock_table tx_db !! id).
Proof.
  assert (Hi : lock_inv tx_db).
  { unfold lock_inv, tx_db. simpl. apply map_Forall_singleton.
    split_and!; [reflexivity|repeat constructor|simpl|exact I].
    apply NoDup_cons; split; [|apply NoDup_singleton]. set_solver. }
  assert (Hs : lock_set_inv tx_db).
  { intros id q r Hl _ _. unfold tx_db in *. simpl in *.
    apply lookup_singleton_Some in Hl as [<- _]. set_solver. }
  split; [exact Hi|]. split; [exact Hs|].
  exact (commit_releases_locks tx_db Hi Hs).
Defined.

End TxnExtras.

Module IxNodeExtras.
Import Ix IxNode.

(** [IxNodeHandle::lower_bound] on keys in non-decreasing order returns the
    first position whose key is not below the target: a position in
    [[0, num_key]], every key before it below the target, every key from it
    on at least the target. *)
Theorem lower_bound_spec n t : StronglySorted Z.le (keys n) ->
  0 <= lower_bound n t <= get_size n /\
  (forall i, 0 <= i < lower_bound n t -> get_key n i < t) /\
  (forall i, lower_bound n t <= i < get_size n -> t <= get_key n i).
Proof.
  intros Hs. unfold lower_bound.
  edestruct (lower_bound_go_spec n t (S (length (keys n))) Hs 0 (get_size n)) as (H1 & H2 & H3);
    [unfold get_size; lia|lia|unfold get_size; lia|lia|lia|reflexivity|].
  split_and!; [lia|lia|exact H2|exact H3].
Qed.

Definition ixn_rids (ks : list Z) : list Rid := map (fun k => {| page_no := 1; slot_no := k |}) ks.
Definition ixn_leaf : IxNode := mkNode true IX_NO_PAGE [10; 20; 30; 40] (ixn_rids [10; 20; 30; 40]) 1 1.

Lemma lower_bound_spec_witness :
  lower_bound ixn_leaf 25 = 2 /\ StronglySorted Z.le (keys ixn_leaf) /\
  0 <= lower_bound ixn_leaf 25 <= get_size ixn_leaf /\
  (forall i, 0 <= i < lower_bound ixn_leaf 25 -> get_key ixn_leaf i < 25) /\
  (forall i, lower_bound ixn_leaf 25 <= i < get_size ixn_leaf -> 25 <= get_key ixn_leaf i).
Proof.
  assert (Hs : StronglySorted Z.le (keys ixn_leaf)) by (simpl; repeat first [lia | constructor]).
  split; [reflexivity|]. split; [exact Hs|]. exact (lower_bound_spec ixn_leaf 25 Hs).
Defined.

(** [IxNodeHandle::internal_lookup] on a node with at least one key, in
    non-decreasing order, returns the child [value[i]] whose range holds the
    key: [key[i] <= key] unless [i = 0] (the first child takes every key
    below [key[1]]), and [key < key[i+1]] unless [i] is the last position. *)
Theorem internal_lookup_child n t : StronglySorted Z.le (keys n) -> 1 <= get_size n ->
  exists i, 0 <= i < get_size n /\ (i = 0 \/ get_key n i <= t) /\
    (i + 1 = get_size n \/ t < get_key n (i + 1)) /\
    internal_lookup n t = page_no (get_rid n i).
Proof.
  intros Hs H1. unfold internal_lookup, upper_bound.
  edestruct (upper_bound_go_spec n t (S (length (keys n))) Hs 1 (get_size n)) as (Hb & Hlo & Hhi);
    [lia|lia|unfold get_size in *; lia|lia|lia|reflexivity|].
  set (u := upper_bound_go (S (length (keys n))) n t 1 (get_size n)) in *.
  exists (u - 1). split_and!; [lia|lia| | |reflexivity].
  - destruct (Z.eq_dec u 1) as [->|]; [by left|right]. apply Hlo. lia.
  - destruct (Z.eq_dec u (get_size n)) as [->|]; [left; lia|right].
    replace (u - 1 + 1) with u by lia. apply Hhi. lia.
Qed.

Definition ixn_child (pno : Z) : Rid := {| page_no := pno; slot_no := 0 |}.
Definition ixn_internal : IxNode :=
  mkNode false IX_NO_PAGE [10; 20; 30] [ixn_child 4; ixn_child 5; ixn_child 6] IX_NO_PAGE IX_NO_PAGE.

Lemma internal_lookup_child_witness :
  internal_lookup ixn_internal 25 = 5 /\
  exists i, 0 <= i < get_size ixn_internal /\ (i = 0 \/ get_key ixn_internal i <= 25) /\
    (i + 1 = get_size ixn_internal \/ 25 < get_key ixn_internal (i + 1)) /\
    internal_lookup ixn_internal 25 = page_no (get_rid ixn_internal i).
Proof.
  split; [reflexivity|].
  apply internal_lookup_child; [simpl; repeat first [lia | constructor]|unfold get_size; simpl; lia].
Defined.

(** [IxNodeHandle::insert] of a key the leaf does not hold, on strictly
    increasing keys with one rid per key: the size grows by one, the keys
    stay strictly increasing, [leaf_lookup] then finds the new rid, and the
    lookup of every other key is unchanged. *)
Theorem node_insert_then_lookup n k v n' sz :
  StronglySorted Z.lt (keys n) -> length (rids n) = length (keys n) -> leaf_lookup n k = None ->
  node_insert n k v = (n', sz) ->
  sz = get_size n + 1 /\ StronglySorted Z.lt (keys n') /\ length (rids n') = length (keys n') /\
  leaf_lookup n' k = Some v /\ (forall k', k' <> k -> leaf_lookup n' k' = leaf_lookup n k').
Proof.
  intros Hs Hl Hnone Hins.
  pose proof (StronglySorted_lt_le _ Hs) as Hle.
  destruct (lower_bound_bounds n k Hle) as (Hb & Hlo & Hhi).
  pose proof Hnone as Hnone0. unfold leaf_lookup in Hnone0.
  unfold node_insert in Hins. set (p := lower_bound n k) in *.
  assert (Hcond : ((p <? get_size n) && (ix_compare (get_key n p) k =? 0)) = false).
  { destruct (p <? get_size n), (ix_compare (get_key n p) k =? 0); done. }
  rewrite Hcond in Hins. injection Hins as <- <-.
  set (P := Z.to_nat p).
  assert (HP : (P <= length (keys n))%nat) by (unfold get_size in Hb; lia).
  set (K := keys n) in *. set (R := rids n) in *.
  assert (Htake : forall a, In a (take P K) -> a < k).
  { intros a Ha. destruct (in_take_lt K P a Ha) as (i & Hi & Ha').
    rewrite <- (get_key_of_lookup n i a Ha'). apply Hlo. lia. }
  assert (Hdrop : forall b, In b (drop P K) -> k < b).
  { intros b Hb'. destruct (in_drop_ge K P b Hb') as (j & Hj).
    pose proof (get_key_of_lookup n _ _ Hj) as Gj. pose proof (size_of_lookup n _ _ Hj) as Sj.
    assert (k <= b) by (rewrite <- Gj; apply Hhi; lia).
    destruct (Z.eq_dec k b) as [<-|]; [exfalso|lia].
    destruct (lookup_lt_is_Some_2 R (P + j)) as [y Hy]; [apply lookup_lt_Some in Hj; lia|].
    assert (Hin : (k, y) ∈ zip K R) by (apply elem_of_lookup_zip_with; by exists (P + j)%nat, k, y).
    apply (leaf_lookup_iff n k y Hs Hl) in Hin. congruence. }
  assert (HK : keys (insert_pairs n p [k] [v]) = take P K ++ [k] ++ drop P K) by reflexivity.
  assert (HR : rids (insert_pairs n p [k] [v]) = take P R ++ [v] ++ drop P R) by reflexivity.
  assert (Hsort : StronglySorted Z.lt (keys (insert_pairs n p [k] [v]))).
  { rewrite HK. rewrite <- (take_drop P K) in Hs. apply StronglySorted_app in Hs as (Hs1 & Hs2 & _).
    apply StronglySorted_app. split_and!; [done| |].
    - apply StronglySorted_app. split_and!; [repeat constructor|done|].
      intros a b [<-|[]] Hb'. by apply Hdrop.
    - intros a b Ha Hb'. apply in_app_iff in Hb' as [[<-|[]]|Hb']; [by apply Htake|].
      pose proof (Htake a Ha). pose proof (Hdrop b Hb'). lia. }
  assert (Hlen : length (rids (insert_pairs n p [k] [v])) = length (keys (insert_pairs n p [k] [v]))).
  { rewrite HK, HR. rewrite !length_app, !length_take, !length_drop. simpl. lia. }
  assert (Hzip : zip (keys (insert_pairs n p [k] [v])) (rids (insert_pairs n p [k] [v])) =
                 zip (take P K) (take P R) ++ (k, v) :: zip (drop P K) (drop P R)).
  { rewrite HK, HR. rewrite zip_with_app by (rewrite !length_take; lia). reflexivity. }
  assert (HZ : zip K R = zip (take P K) (take P R) ++ zip (drop P K) (drop P R)).
  { rewrite <- zip_with_app by (rewrite !length_take; lia). by rewrite !take_drop. }
  split_and!.
  - unfold get_size. rewrite HK, !length_app, length_take, length_drop. simpl. change (keys n) with K. lia.
  - exact Hsort.
  - exact Hlen.
  - apply (leaf_lookup_iff _ k v Hsort Hlen). rewrite Hzip. apply elem_of_app. right. apply list_elem_of_here.
  - intros k' Hk'. apply leaf_lookup_ext; [done|done|done|done|].
    intros r. change (keys n) with K. change (rids n) with R. rewrite Hzip, HZ, !elem_of_app, elem_of_cons.
    split; [intros [|[[= -> _]|]]; by auto|intros [|]; by auto].
Qed.


(** [IxNodeHandle::remove] of a key the leaf holds, on strictly increasing
    keys with one rid per key: the size drops by one, the keys stay strictly
    increasing, [leaf_lookup] then misses the key, and the lookup of every
    other key is unchanged. *)
Theorem node_remove_then_lookup n k r n' sz :
  StronglySorted Z.lt (keys n) -> length (rids n) = length (keys n) -> leaf_lookup n k = Some r ->
  node_remove n k = (n', sz) ->
  sz = get_size n - 1 /\ StronglySorted Z.lt (keys n') /\ length (rids n') = length (keys n') /\
  leaf_lookup n' k = None /\ (forall k', k' <> k -> leaf_lookup n' k' = leaf_lookup n k').
Proof.
  intros Hs Hl Hsome Hrem.
  pose proof (StronglySorted_lt_le _ Hs) as Hle.
  destruct (lower_bound_bounds n k Hle) as (Hb & Hlo & Hhi).
  pose proof Hsome as Hsome0. unfold leaf_lookup in Hsome0.
  unfold node_remove in Hrem. set (p := lower_bound n k) in *.
  destruct (p <? get_size n) eqn:Hp; [|discriminate]. apply Z.ltb_lt in Hp.
  destruct (ix_compare (get_key n p) k =? 0) eqn:Hc; [|discriminate].
  apply ix_compare_eq in Hc. injection Hsome0 as Hr.
  simpl in Hrem. injection Hrem as <- <-.
  set (P := Z.to_nat p).
  assert (HKp : keys n !! P = Some k) by (rewrite <- Hc; apply get_key_lookup; lia).
  assert (HRp : rids n !! P = Some r) by (rewrite <- Hr; apply get_rid_lookup; [lia|]; unfold get_size in Hp; lia).
  set (K := keys n) in *. set (R := rids n) in *.
  pose proof (take_drop_middle K P k HKp) as HK.
  pose proof (take_drop_middle R P r HRp) as HR.
  assert (HP : (P < length K)%nat) by (apply lookup_lt_Some in HKp; done).
  assert (Hparts : StronglySorted Z.lt (take P K) /\ StronglySorted Z.lt (drop (S P) K) /\
                   (forall a, In a (take P K) -> a < k) /\ (forall b, In b (drop (S P) K) -> k < b) /\
                   (forall a b, In a (take P K) -> In b (drop (S P) K) -> a < b)).
  { rewrite <- HK in Hs. apply StronglySorted_app in Hs as (Hs1 & Hs2 & Hx).
    apply StronglySorted_inv in Hs2 as [Hs2 Hf].
    split_and!; [done|done| | |].
    - intros a Ha. apply Hx; [done|by left].
    - intros b Hb'. by apply (proj1 (List.Forall_forall _ _) Hf).
    - intros a b Ha Hb'. apply Hx; [done|by right]. }
  destruct Hparts as (Hs1 & Hs2 & Htake & Hdrop & Hx).
  assert (HK' : keys (erase_pair n p) = take P K ++ drop (S P) K) by reflexivity.
  assert (HR' : rids (erase_pair n p) = take P R ++ drop (S P) R) by reflexivity.
  assert (Hsort : StronglySorted Z.lt (keys (erase_pair n p))).
  { rewrite HK'. apply StronglySorted_app. split_and!; [done|done|exact Hx]. }
  assert (Hlt : length (take P K) = length (take P R)) by (rewrite !length_take; lia).
  assert (Hlen : length (rids (erase_pair n p)) = length (keys (erase_pair n p))).
  { rewrite HK', HR'. rewrite !length_app, !length_take, !length_drop. lia. }
  assert (Hzip : zip (keys (erase_pair n p)) (rids (erase_pair n p)) =
                 zip (take P K) (take P R) ++ zip (drop (S P) K) (drop (S P) R)).
  { rewrite HK', HR'. by rewrite zip_with_app. }
  assert (HZ : zip K R = zip (take P K) (take P R) ++ (k, r) :: zip (drop (S P) K) (drop (S P) R)).
  { rewrite <- HK at 1. rewrite <- HR at 1. by rewrite zip_with_app. }
  split_and!.
  - unfold get_size. rewrite HK', !length_app, length_take, length_drop.
    change (keys n) with K. lia.
  - exact Hsort.
  - exact Hlen.
  - destruct (leaf_lookup (erase_pair n p) k) as [r'|] eqn:E; [exfalso|done].
    apply (leaf_lookup_iff _ k r' Hsort Hlen) in E. rewrite Hzip in E.
    apply elem_of_app in E as [E|E]; apply zip_fst in E; [apply Htake in E|apply Hdrop in E]; lia.
  - intros k' Hk'. apply leaf_lookup_ext; [done|done|done|done|].
    intros r0. change (keys n) with K. change (rids n) with R. rewrite Hzip, HZ, !elem_of_app, elem_of_cons.
    split; [intros [|]; by auto|intros [|[[= -> _]|]]; by auto].
Qed.

Lemma node_insert_then_lookup_witness :
  exists n' sz, node_insert ixn_leaf 25 (ixn_child 9) = (n', sz) /\
    sz = get_size ixn_leaf + 1 /\ StronglySorted Z.lt (keys n') /\ length (rids n') = length (keys n') /\
    leaf_lookup n' 25 = Some (ixn_child 9) /\
    (forall k', k' <> 25 -> leaf_lookup n' k' = leaf_lookup ixn_leaf k').
Proof.
  eexists _, _. split; [reflexivity|].
  apply (node_insert_then_lookup ixn_leaf 25 (ixn_child 9));
    [simpl; repeat first [lia | constructor]|reflexivity|reflexivity|reflexivity].
Defined.

Lemma node_remove_then_lookup_witness :
  exists n' sz, node_remove ixn_leaf 20 = (n', sz) /\
    sz = get_size ixn_leaf - 1 /\ StronglySorted Z.lt (keys n') /\ length (rids n') = length (keys n') /\
    leaf_lookup n' 20 = None /\
    (forall k', k' <> 20 -> leaf_lookup n' k' = leaf_lookup ixn_leaf k').
Proof.
  eexists _, _. split; [reflexivity|].
  apply (node_remove_then_lookup ixn_leaf 20 {| page_no := 1; slot_no := 20 |});
    [simpl; repeat first [lia | constructor]|reflexivity|reflexivity|reflexivity].
Defined.

End IxNodeExtras.

Module ProjectionExtras.
Import Projection.

(** Example: a child over table [t] with columns [a] (4 bytes at 0), [b]
    (3 bytes at 4) and [c] (4 bytes at 7), projected on [c] and [a]. *)
Definition px_cols : list ColMeta :=
  [mkColMeta "t" "a" TYPE_INT 4 0; mkColMeta "t" "b" TYPE_STRING 3 4;
   mkColMeta "t" "c" TYPE_INT 4 7].
Definition px_sel : list TabCol := [mkTabCol "t" "c"; mkTabCol "t" "a"].
Definition px_rec : list Byte.byte :=
  [Byte.x01; Byte.x02; Byte.x03; Byte.x04; Byte.x61; Byte.x62; Byte.x63;
   Byte.x05; Byte.x06; Byte.x07; Byte.x08].

(** Projection, [ProjectionExecutor::Next]: once the constructor has
    succeeded, and when every child column lies within the child's record,
    the projected record is exactly the bytes of the selected child
    columns, one after the other in the order of [sel_cols], whatever the
    fresh buffer held before; its length [len_] is the sum of their
    lengths. *)
Theorem projection_Next_concat prev_cols sel_cols e prev_rec proj :
  (forall c, c ∈ prev_cols -> fits prev_rec c) ->
  new prev_cols sel_cols = Some e ->
  length proj = Z.to_nat (len_ e) ->
  exists cs, found prev_cols sel_cols cs /\ len_ e = total_len cs /\
    Next e prev_cols prev_rec proj = concat (map (col_bytes prev_rec) cs).
Proof.
  intros Hfit Hn Hl. unfold new in Hn.
  destruct (layout prev_cols sel_cols 0) as [[[idxs cols] l]|] eqn:Hlay; [|discriminate].
  injection Hn as <-. simpl in Hl.
  destruct (copy_cols_spec prev_cols prev_rec Hfit _ _ _ _ _ proj Hlay ltac:(lia) ltac:(lia))
    as (cs & Hcs & El & Hc).
  exists cs. split_and!; [done|simpl; lia|].
  unfold Next. simpl. rewrite Hc. simpl.
  rewrite drop_ge by lia. by rewrite app_nil_r.
Qed.

Lemma projection_Next_concat_witness :
  exists e, new px_cols px_sel = Some e /\
    Next e px_cols px_rec (replicate 8 Byte.x00) =
      [Byte.x05; Byte.x06; Byte.x07; Byte.x08; Byte.x01; Byte.x02; Byte.x03; Byte.x04] /\
    exists cs, found px_cols px_sel cs /\ len_ e = total_len cs /\
      Next e px_cols px_rec (replicate 8 Byte.x00) = concat (map (col_bytes px_rec) cs).
Proof.
  eexists. split; [reflexivity|]. split; [reflexivity|].
  apply projection_Next_concat; [|reflexivity|reflexivity].
  intros c Hc. repeat (apply elem_of_cons in Hc as [->|Hc]; [unfold fits; simpl; lia|]).
  set_solver.
Defined.

(** Projection, constructor: the output columns are copies of the child
    columns [get_col] finds, in the order of [sel_cols], laid out one after
    the other from offset 0; [sel_idxs_[i]] is the position of the [i]-th
    of them among the child's columns. *)
Theorem projection_new_layout prev_cols sel_cols e :
  new prev_cols sel_cols = Some e ->
  exists cs, found prev_cols sel_cols cs /\ len_ e = total_len cs /\
    length (sel_idxs_ e) = length cs /\ length (cols_ e) = length cs /\
    (forall i idx, sel_idxs_ e !! i = Some idx -> prev_cols !! idx = cs !! i) /\
    (forall i c, cols_ e !! i = Some c -> exists c0, cs !! i = Some c0 /\
       c = mkColMeta (tab_name c0) (name c0) (type c0) (len c0) (total_len (take i cs))).
Proof.
  unfold new. intros Hn.
  destruct (layout prev_cols sel_cols 0) as [[[idxs cols] l]|] eqn:Hlay; [|discriminate].
  injection Hn as <-.
  destruct (layout_total _ _ _ _ _ _ Hlay) as (cs & Hcs & El & Hli & Hidx & Hcols & Hlc).
  exists cs. simpl. split_and!; try done.
Qed.

Lemma projection_new_layout_witness :
  exists e, new px_cols px_sel = Some e /\
    sel_idxs_ e = [2%nat; 0%nat] /\ map offset (cols_ e) = [0; 4] /\ len_ e = 8 /\
    exists cs, found px_cols px_sel cs /\ len_ e = total_len cs /\
      length (sel_idxs_ e) = length cs /\ length (cols_ e) = length cs /\
      (forall i idx, sel_idxs_ e !! i = Some idx -> px_cols !! idx = cs !! i) /\
      (forall i c, cols_ e !! i = Some c -> exists c0, cs !! i = Some c0 /\
         c = mkColMeta (tab_name c0) (name c0) (type c0) (len c0) (total_len (take i cs))).
Proof.
  eexists. split; [reflexivity|]. split_and!; [reflexivity|reflexivity|reflexivity|].
  apply projection_new_layout. reflexivity.
Defined.

(** Projection, constructor: it throws exactly when one of the selected
    columns is not among the child's columns. *)
Theorem projection_new_fails prev_cols sel_cols :
  new prev_cols sel_cols = None <->
  exists tc, tc ∈ sel_cols /\ get_col prev_cols tc = None.
Proof.
  unfold new.
  assert (G : forall o, layout prev_cols sel_cols o = None <->
                        exists tc, tc ∈ sel_cols /\ get_col prev_cols tc = None).
  { induction sel_cols as [|tc rest IH]; intros o; simpl.
    - split; [discriminate|]. intros (tc & Htc & _). by apply elem_of_nil in Htc.
    - destruct (get_col prev_cols tc) as [[pos col]|] eqn:Hg.
      + specialize (IH (o + len col)).
        destruct (layout prev_cols rest (o + len col)) as [[[idxs cols] l]|].
        * split; [discriminate|]. intros (tc' & Htc' & Hg').
          apply elem_of_cons in Htc' as [->|Htc']; [congruence|].
          assert (Some (idxs, cols, l) = None) by (apply IH; eauto). discriminate.
        * split; [|done]. intros _. destruct (proj1 IH eq_refl) as (tc' & ? & ?).
          exists tc'. split; [by apply elem_of_cons; right|done].
      + split; [|done]. intros _. exists tc. split; [apply list_elem_of_here|done]. }
  rewrite <- (G 0).
  destruct (layout prev_cols sel_cols 0) as [[[idxs cols] l]|]; split; done.
Qed.

End ProjectionExtras.

Module IxChainExtras.
Import Ix IxChain.

(** Example: the leaf header page 1 and the leaves 2, 3 and 4, chained in
    that order. *)
Definition ixc_leaf (k prev next : Z) : IxNode :=
  mkNode true 5 [k] [{| page_no := 1; slot_no := k |}] prev next.
Definition ixc_tree : IxState :=
  mkIx (mkIxHdr 5 2 4 6 4)
    (<[1 := mkNode true IX_NO_PAGE [] [] 4 2]>
     (<[2 := ixc_leaf 10 1 3]> (<[3 := ixc_leaf 20 2 4]> {[ 4 := ixc_leaf 30 3 1 ]}))).

(** Index, [IxIndexHandle::erase_leaf]: on a well-formed leaf chain
    (header page, leaves [pre], the leaf [x], leaves [post], back to the
    header page, all distinct), erasing the leaf [x] leaves the chain
    [pre ++ post]; only the link fields of the two neighbours of [x]
    change, and every other page, [x] among them, is untouched. *)
Theorem erase_leaf_unlinks s pre x post n :
  leaf_chain (nodes s) (pre ++ x :: post) ->
  NoDup (IX_LEAF_HEADER_PAGE :: pre ++ x :: post) ->
  nodes s !! x = Some n -> is_leaf n = true ->
  exists s', erase_leaf x s = Ok tt s' /\ file_hdr s' = file_hdr s /\
    leaf_chain (nodes s') (pre ++ post) /\
    (forall p, node_body <$> nodes s' !! p = node_body <$> nodes s !! p) /\
    (forall p, p ∉ IX_LEAF_HEADER_PAGE :: pre ++ post -> nodes s' !! p = nodes s !! p).
Proof.
  intros Hch Hnd Hx Hl.
  set (H := IX_LEAF_HEADER_PAGE) in *.
  apply NoDup_cons in Hnd as [HH Hnd].
  apply NoDup_app in Hnd as (Hpre & Hdis & Hxp). apply NoDup_cons in Hxp as [Hxpost Hpost].
  unfold leaf_chain in Hch. fold H in Hch. rewrite <- app_assoc in Hch.
  change (H :: pre ++ x :: post ++ [H]) with ((H :: pre) ++ x :: (post ++ [H])) in Hch.
  apply (path_app_cons _ (H :: pre) x (post ++ [H])) in Hch as [HP HQ].
  destruct (exists_last (l := H :: pre) ltac:(discriminate)) as (l1 & a & E1).
  destruct (post ++ [H]) as [|b l2] eqn:E2; [by destruct post|].
  rewrite E1, <- app_assoc in HP. simpl in HP.
  apply path_app_cons in HP as [HP1 [Hax _]].
  destruct HQ as [Hxb HQ2].
  destruct Hax as [Hna Hpx]. destruct Hxb as [Hnx Hpb].
  unfold nxt, prv in Hna, Hpx, Hnx, Hpb. rewrite Hx in Hpx, Hnx.
  injection Hpx as Ea. injection Hnx as Eb.
  destruct (nodes s !! a) as [na|] eqn:Ha; [|discriminate].
  destruct (nodes s !! b) as [nb|] eqn:Hb; [|discriminate].
  rewrite <- Ea in Ha. rewrite <- Eb in Hb.
  eexists. split; [exact (erase_leaf_run s x n na nb Hx Hl Ha Hb)|].
  rewrite Ea, Eb in *. simpl.
  assert (Ham : a ∈ H :: pre) by (rewrite E1; apply elem_of_app; right; apply list_elem_of_here).
  assert (Hbm : b ∈ post ++ [H]) by (rewrite E2; apply list_elem_of_here).
  assert (Hsa : is_Some (nodes s !! b)) by (rewrite Hb; eauto).
  split_and!; [done| | |].
  - unfold leaf_chain. fold H. rewrite <- app_assoc.
    change (H :: pre ++ post ++ [H]) with ((H :: pre) ++ post ++ [H]).
    rewrite E1, E2, <- app_assoc. simpl.
    apply path_app_cons. split; [|split; [split|]].
    + apply (path_ext (nodes s)); [| |done].
      * intros c Hc. rewrite removelast_last in Hc.
        rewrite unlinked_nxt by done. rewrite decide_False; [done|].
        intros ->. assert (NoDup (l1 ++ [a])) as Hn1 by (rewrite <- E1; apply NoDup_cons; split; [|done];
                                   intros Hi; apply HH, elem_of_app; by left).
        apply NoDup_app in Hn1 as (_ & Hd & _). apply (Hd a Hc). apply list_elem_of_here.
      * intros d Hd. rewrite unlinked_prv by done. rewrite decide_False; [done|].
        intros ->. assert (Hd' : b ∈ pre).
        { assert (tail (l1 ++ [a]) = pre) as Et by (rewrite <- E1; reflexivity).
          by rewrite <- Et. }
        apply elem_of_app in Hbm as [Hbm|Hbm].
        -- apply (Hdis b Hd'). by apply list_elem_of_further.
        -- apply list_elem_of_singleton in Hbm. rewrite Hbm in Hd'. apply HH, elem_of_app. by left.
    + rewrite unlinked_nxt by done. by rewrite decide_True.
    + rewrite unlinked_prv by done. by rewrite decide_True.
    + apply (path_ext (nodes s)); [| |done].
      * intros c Hc. rewrite unlinked_nxt by done. rewrite decide_False; [done|].
        intros ->. rewrite <- E2, removelast_last in Hc.
        apply elem_of_cons in Ham as [->|Ham].
        -- apply HH. apply elem_of_app; right. by apply list_elem_of_further.
        -- apply (Hdis a Ham). by apply list_elem_of_further.
      * intros d Hd. rewrite unlinked_prv by done. rewrite decide_False; [done|].
        intros ->. simpl in Hd.
        assert (NoDup (b :: l2)) as Hn2.
        { rewrite <- E2. apply NoDup_app. split_and!; [done| |apply NoDup_singleton].
          intros y Hy Hy'. apply list_elem_of_singleton in Hy'. subst y.
          apply HH. apply elem_of_app; right. by apply list_elem_of_further. }
        apply NoDup_cons in Hn2 as [Hn2 _]. done.
  - intros p. by apply unlinked_body.
  - intros p Hp. apply unlinked_frame.
    + intros ->. apply Hp. apply elem_of_cons in Ham as [->|Ham]; [apply list_elem_of_here|].
      apply list_elem_of_further, elem_of_app. by left.
    + intros ->. apply Hp. apply elem_of_app in Hbm as [Hbm|Hbm].
      * apply list_elem_of_further, elem_of_app. by right.
      * apply list_elem_of_singleton in Hbm. rewrite Hbm. apply list_elem_of_here.
Qed.

Lemma erase_leaf_unlinks_witness :
  exists s', erase_leaf 3 ixc_tree = Ok tt s' /\ file_hdr s' = file_hdr ixc_tree /\
    leaf_chain (nodes s') [2; 4] /\
    (forall p, node_body <$> nodes s' !! p = node_body <$> nodes ixc_tree !! p) /\
    (forall p, p ∉ [IX_LEAF_HEADER_PAGE; 2; 4] -> nodes s' !! p = nodes ixc_tree !! p).
Proof.
  apply (erase_leaf_unlinks ixc_tree [2] 3 [4] (ixc_leaf 20 2 4)).
  - unfold leaf_chain. simpl. unfold link, nxt, prv. split_and!; reflexivity.
  - apply NoDup_cons; split; [|apply NoDup_cons; split; [|apply NoDup_cons; split;
      [|apply NoDup_cons; split; [|constructor]]]];
    unfold IX_LEAF_HEADER_PAGE; set_solver.
  - reflexivity.
  - reflexivity.
Defined.

End IxChainExtras.
